(** * SLOG: deterministic ordering-and-execution pipeline

    A shallow embedding of the parts of SLOG that its specification makes
    claims about: the asynchronous log, the per-key lock state and the
    deterministic lock manager, the remaster manager, the TPC-C execution
    dispatcher, and the id generation and multi-home decomposition of the
    sequencer.

    Conventions.
    - C++ unsigned 32-bit integers are [Z] with the wrap-around written out
      ([wrap32]).
    - [std::unordered_set] is [gset], [std::unordered_map] is [gmap];
      protobuf maps, whose iteration order the program observes, are
      association lists in iteration order.
    - A C++ exception, a fatal [CHECK]/[LOG(FATAL)] and a use of an empty
      container's front are explicit results, never silently totalised. *)

Set Warnings "-rewrite-rw,-deprecated-since-9.3,-clear-no-such-hyp,-level-tolerance".
From Stdlib Require Import ZArith Lia DecimalString.
From stdpp Require Import ssreflect base option list gmap fin_sets strings pretty.

Open Scope Z_scope.

(** ** Common types (common/types.h) *)

Definition Key := string.
Definition Value := string.
Definition TxnId := N.

Definition wrap32 (z : Z) : Z := z mod 2 ^ 32.

(** Result of a call that may throw a C++ exception or end the process
    through a failed [CHECK] or [LOG(FATAL)]. *)
Inductive outcome (A : Type) : Type :=
  | Returns (a : A)
  | Throws (what : string)
  | Fatal (what : string).
Arguments Returns {A} a.
Arguments Throws {A} what.
Arguments Fatal {A} what.

Definition outcome_bind {A B} (m : outcome A) (k : A → outcome B) : outcome B :=
  match m with
  | Returns a => k a
  | Throws w => Throws w
  | Fatal w => Fatal w
  end.

Declare Scope outcome_scope.
Delimit Scope outcome_scope with outcome.
Notation "'do' x <- m ; k" := (outcome_bind m (λ x, k))
  (at level 200, x pattern, m at level 100, k at level 200,
   right associativity) : outcome_scope.

(** ** common/async_log.h *)

Module AsyncLog.

Section Log.
Context {T : Type}.

Record t : Type := Build {
  log_ : gmap Z T;
  next_ : Z;
}.

(** [AsyncLog(uint32_t start_from = 0)] *)
Definition make (start_from : Z) : t :=
  {| log_ := ∅; next_ := start_from |}.

Definition taken_message (position : Z) : string :=
  "Log position " +:+ pretty position +:+ " has already been taken".

Definition Insert (position : Z) (item : T) (l : t) : outcome t :=
  if position <? next_ l then Returns l
  else if decide (is_Some (log_ l !! position)) then
    Throws (taken_message position)
  else Returns {| log_ := <[position := item]> (log_ l); next_ := next_ l |}.

Definition HasNext (l : t) : bool :=
  bool_decide (is_Some (log_ l !! next_ l)).

Definition Next (l : t) : outcome (T * t) :=
  if HasNext l then
    match log_ l !! next_ l with
    | Some result =>
        Returns (result, {| log_ := delete (next_ l) (log_ l);
                            next_ := wrap32 (next_ l + 1) |})
    | None => Throws "Next item does not exist"
    end
  else Throws "Next item does not exist".
End Log.

Arguments t : clear implicits.

End AsyncLog.

(** ** module/scheduler_components/deterministic_lock_manager.cpp: LockState *)

Inductive LockMode : Type := UNLOCKED | READ | WRITE.

Global Instance LockMode_eq_dec : EqDecision LockMode.
Proof. solve_decision. Defined.

Record LockState : Type := mkLockState {
  mode : LockMode;
  holders_ : gset TxnId;
  waiters_ : gset TxnId;
  waiter_queue_ : list (TxnId * LockMode);
}.

(** A default-constructed entry, as [lock_table_[key]] creates it. *)
Definition empty_lock : LockState :=
  {| mode := UNLOCKED; holders_ := ∅; waiters_ := ∅; waiter_queue_ := [] |}.

Global Instance LockState_inhabited : Inhabited LockState := populate empty_lock.

Definition AcquireReadLock (txn_id : TxnId) (ls : LockState) : LockState * bool :=
  match mode ls with
  | UNLOCKED =>
      ({| mode := READ; holders_ := {[txn_id]} ∪ holders_ ls;
          waiters_ := waiters_ ls; waiter_queue_ := waiter_queue_ ls |}, true)
  | READ =>
      if decide (waiters_ ls = ∅) then
        ({| mode := READ; holders_ := {[txn_id]} ∪ holders_ ls;
            waiters_ := waiters_ ls; waiter_queue_ := waiter_queue_ ls |}, true)
      else
        ({| mode := READ; holders_ := holders_ ls;
            waiters_ := {[txn_id]} ∪ waiters_ ls;
            waiter_queue_ := waiter_queue_ ls ++ [(txn_id, READ)] |}, false)
  | WRITE =>
      ({| mode := WRITE; holders_ := holders_ ls;
          waiters_ := {[txn_id]} ∪ waiters_ ls;
          waiter_queue_ := waiter_queue_ ls ++ [(txn_id, READ)] |}, false)
  end.

(** The queued request is tagged [READ] in the source, also for a write. *)
Definition AcquireWriteLock (txn_id : TxnId) (ls : LockState) : LockState * bool :=
  match mode ls with
  | UNLOCKED =>
      ({| mode := WRITE; holders_ := {[txn_id]} ∪ holders_ ls;
          waiters_ := waiters_ ls; waiter_queue_ := waiter_queue_ ls |}, true)
  | READ | WRITE =>
      ({| mode := mode ls; holders_ := holders_ ls;
          waiters_ := {[txn_id]} ∪ waiters_ ls;
          waiter_queue_ := waiter_queue_ ls ++ [(txn_id, READ)] |}, false)
  end.

Definition IsQueued (txn_id : TxnId) (ls : LockState) : bool :=
  bool_decide (txn_id ∈ holders_ ls) || bool_decide (txn_id ∈ waiters_ ls).

(** The [do ... while] of [Release] after its first iteration: pops while the
    queue is non-empty and its front is tagged [READ]. *)
Fixpoint promote_reads (q : list (TxnId * LockMode)) (hs ws : gset TxnId)
  : list (TxnId * LockMode) * gset TxnId * gset TxnId :=
  match q with
  | (txn_id, READ) :: q' => promote_reads q' ({[txn_id]} ∪ hs) (ws ∖ {[txn_id]})
  | _ => (q, hs, ws)
  end.

(** [Release] returns [None] where the source calls [front()] on an empty
    deque (undefined behaviour). *)
Definition Release (txn_id : TxnId) (ls : LockState)
  : option (LockState * gset TxnId) :=
  if decide (txn_id ∉ holders_ ls) then
    Some ({| mode := mode ls; holders_ := holders_ ls;
             waiters_ := waiters_ ls ∖ {[txn_id]};
             waiter_queue_ :=
               filter (λ p, p.1 ≠ txn_id) (waiter_queue_ ls) |}, ∅)
  else
    let hs := holders_ ls ∖ {[txn_id]} in
    if decide (hs ≠ ∅) then
      Some ({| mode := mode ls; holders_ := hs; waiters_ := waiters_ ls;
               waiter_queue_ := waiter_queue_ ls |}, ∅)
    else if decide (waiters_ ls = ∅) then
      Some ({| mode := UNLOCKED; holders_ := hs; waiters_ := waiters_ ls;
               waiter_queue_ := waiter_queue_ ls |}, ∅)
    else
      match waiter_queue_ ls with
      | [] => None
      | (front, READ) :: q =>
          let '(q', hs', ws') :=
            promote_reads q ({[front]} ∪ hs) (waiters_ ls ∖ {[front]}) in
          Some ({| mode := READ; holders_ := hs'; waiters_ := ws';
                   waiter_queue_ := q' |}, hs')
      | (front, WRITE) :: q =>
          Some ({| mode := WRITE; holders_ := {[front]} ∪ hs;
                   waiters_ := waiters_ ls ∖ {[front]};
                   waiter_queue_ := q |}, {[front]} ∪ hs)
      | (front, UNLOCKED) :: q =>
          Some ({| mode := mode ls; holders_ := hs; waiters_ := waiters_ ls;
                   waiter_queue_ := waiter_queue_ ls |}, hs)
      end.

(** ** proto/transaction.proto, as far as the modelled code reads it *)

Inductive TransactionType : Type := UNKNOWN | SINGLE_HOME | MULTI_HOME | LOCK_ONLY.
Inductive TransactionStatus : Type := NOT_STARTED | COMMITTED | ABORTED.

Global Instance TransactionType_eq_dec : EqDecision TransactionType.
Proof. solve_decision. Defined.
Global Instance TransactionStatus_eq_dec : EqDecision TransactionStatus.
Proof. solve_decision. Defined.

Record MasterMetadata : Type := mkMeta {
  master : Z;
  counter : Z;
}.

Global Instance MasterMetadata_eq_dec : EqDecision MasterMetadata.
Proof. solve_decision. Defined.

Record Remaster : Type := mkRemaster {
  new_master : Z;
  is_new_master_lock_only : bool;
}.

(** A protobuf map, in the order its iteration visits the entries. *)
Definition pbmap (V : Type) : Type := list (Key * V).

Definition pb_contains {V} (k : Key) (m : pbmap V) : bool :=
  bool_decide (k ∈ m.*1).

(** [Map::at]: [None] stands for the failed lookup. *)
Fixpoint pb_at {V} (k : Key) (m : pbmap V) : option V :=
  match m with
  | [] => None
  | (k', v) :: m' => if decide (k' = k) then Some v else pb_at k m'
  end.

(** [Map::insert] keeps an entry that is already there. *)
Definition pb_insert {V} (kv : Key * V) (m : pbmap V) : pbmap V :=
  if pb_contains kv.1 m then m else m ++ [kv].

Record Transaction : Type := mkTxn {
  id : TxnId;
  type : TransactionType;
  read_set : pbmap Value;
  write_set : pbmap Value;
  master_metadata : pbmap MasterMetadata;
  procedures : list (list string);
  remaster : option Remaster;
  status : TransactionStatus;
  abort_reason : string;
}.

(** [MakeTransaction(read_keys, write_keys)] of the test utilities, with an id. *)
Definition MakeTransaction (i : TxnId) (rs ws : list Key) : Transaction :=
  {| id := i; type := UNKNOWN;
     read_set := (λ k, (k, EmptyString)) <$> rs;
     write_set := (λ k, (k, EmptyString)) <$> ws;
     master_metadata := []; procedures := []; remaster := None;
     status := NOT_STARTED; abort_reason := EmptyString |}.

(** ** The part of [Configuration] the modelled code calls *)

Record Configuration : Type := mkConfig {
  KeyIsInLocalPartition : Key → bool;
  local_replica : Z;
  local_machine_id : Z;
  num_partitions : nat;
  MakeMachineId : Z → nat → Z;
}.

(** ** DeterministicLockManager *)

Definition LOCK_TABLE_SIZE_LIMIT : Z := 1000000.

Record DeterministicLockManager : Type := mkLM {
  lock_table_ : gmap Key LockState;
  num_locks_waited_ : gmap TxnId Z;
}.

Definition new_lock_manager : DeterministicLockManager :=
  {| lock_table_ := ∅; num_locks_waited_ := ∅ |}.

(** [num_locks_waited_[txn_id]] read as a value: a missing entry reads 0. *)
Definition locks_waited (txn_id : TxnId) (lm : DeterministicLockManager) : Z :=
  default 0 (num_locks_waited_ lm !! txn_id).

(** [lock_table_[key]] read as a value: a missing entry reads as a fresh one. *)
Definition lock_entry (key : Key) (lm : DeterministicLockManager) : LockState :=
  default empty_lock (lock_table_ lm !! key).

Section LockManager.
Variable config_ : Configuration.

Definition ExtractKeys (txn : Transaction) : list (Key * LockMode) :=
  ((λ kv : Key * Value, (kv.1, READ)) <$>
     filter (λ kv : Key * Value, KeyIsInLocalPartition config_ kv.1
                  && negb (pb_contains kv.1 (write_set txn)))
            (read_set txn))
  ++ ((λ kv : Key * Value, (kv.1, WRITE)) <$>
     filter (λ kv : Key * Value, KeyIsInLocalPartition config_ kv.1)
            (write_set txn)).

Definition RegisterTxn (txn : Transaction) (lm : DeterministicLockManager)
  : DeterministicLockManager * bool :=
  let txn_id := id txn in
  let keys := ExtractKeys txn in
  match keys with
  | [] => (lm, false)
  | _ :: _ =>
      let n := locks_waited txn_id lm + Z.of_nat (length keys) in
      if decide (n = 0) then
        ({| lock_table_ := lock_table_ lm;
            num_locks_waited_ := delete txn_id (num_locks_waited_ lm) |}, true)
      else
        ({| lock_table_ := lock_table_ lm;
            num_locks_waited_ := <[txn_id := n]> (num_locks_waited_ lm) |}, false)
  end.

(** One iteration of the loop of [AcquireLocks]; [None] is [LOG(FATAL)]. *)
Definition acquire_key (txn_id : TxnId) (lm : DeterministicLockManager)
    (pair : Key * LockMode) : option DeterministicLockManager :=
  let '(key, mode) := pair in
  let ls := lock_entry key lm in
  acquire ← match mode return option (TxnId → LockState → LockState * bool)
            with
            | READ => Some AcquireReadLock
            | WRITE => Some AcquireWriteLock
            | UNLOCKED => None
            end;
  if IsQueued txn_id ls then
    Some {| lock_table_ := <[key := ls]> (lock_table_ lm);
            num_locks_waited_ := num_locks_waited_ lm |}
  else
    let '(ls', acquired) := acquire txn_id ls in
    Some {| lock_table_ := <[key := ls']> (lock_table_ lm);
            num_locks_waited_ :=
              if acquired : bool then
                <[txn_id := locks_waited txn_id lm - 1]> (num_locks_waited_ lm)
              else num_locks_waited_ lm |}.

Definition AcquireLocks (txn : Transaction) (lm : DeterministicLockManager)
  : option (DeterministicLockManager * bool) :=
  let txn_id := id txn in
  let keys := ExtractKeys txn in
  match keys with
  | [] => Some (lm, false)
  | _ :: _ =>
      lm' ← foldl (λ (acc : option DeterministicLockManager) pair,
                     acc ≫= λ lm0, acquire_key txn_id lm0 pair)
                  (Some lm) keys;
      if decide (locks_waited txn_id lm' = 0) then
        Some ({| lock_table_ := lock_table_ lm';
                 num_locks_waited_ := delete txn_id (num_locks_waited_ lm') |},
              true)
      else Some (lm', false)
  end.

Definition RegisterTxnAndAcquireLocks (txn : Transaction)
    (lm : DeterministicLockManager)
  : option (DeterministicLockManager * bool) :=
  AcquireLocks txn (RegisterTxn txn lm).1.

(** The inner loop of [ReleaseLocks] over the new holders of one key. *)
Definition wake_holder (acc : gmap TxnId Z * gset TxnId) (holder : TxnId)
  : gmap TxnId Z * gset TxnId :=
  let '(nlw, ready_txns) := acc in
  let n := default 0 (nlw !! holder) - 1 in
  if decide (n = 0) then (delete holder nlw, {[holder]} ∪ ready_txns)
  else (<[holder := n]> nlw, ready_txns).

(** One iteration of the loop of [ReleaseLocks] over the keys. *)
Definition release_key (txn_id : TxnId)
    (acc : DeterministicLockManager * gset TxnId) (pair : Key * LockMode)
  : option (DeterministicLockManager * gset TxnId) :=
  let '(lm, ready_txns) := acc in
  let key := pair.1 in
  if negb (KeyIsInLocalPartition config_ key) then Some acc
  else
    '(ls', new_holders) ← Release txn_id (lock_entry key lm);
    let table := <[key := ls']> (lock_table_ lm) in
    let '(nlw, ready_txns') :=
      foldl wake_holder (num_locks_waited_ lm, ready_txns)
            (elements new_holders) in
    let table' :=
      if decide (mode ls' = UNLOCKED ∧ LOCK_TABLE_SIZE_LIMIT < Z.of_nat (size table))
      then delete key table else table in
    Some ({| lock_table_ := table'; num_locks_waited_ := nlw |}, ready_txns').

Definition ReleaseLocks (txn : Transaction) (lm : DeterministicLockManager)
  : option (DeterministicLockManager * gset TxnId) :=
  let txn_id := id txn in
  '(lm', ready_txns) ←
    foldl (λ (acc : option (DeterministicLockManager * gset TxnId)) pair,
             acc ≫= λ a, release_key txn_id a pair)
          (Some (lm, ∅)) (ExtractKeys txn);
  Some ({| lock_table_ := lock_table_ lm';
           num_locks_waited_ := delete txn_id (num_locks_waited_ lm') |},
        ready_txns).
End LockManager.

(** A configuration with a single partition, as the lock-manager tests use. *)
Definition one_partition : Configuration :=
  {| KeyIsInLocalPartition := λ _, true; local_replica := 0;
     local_machine_id := 0; num_partitions := 1;
     MakeMachineId := λ rep part, rep + Z.of_nat part |}.

(** ** Sequences of calls on one lock-table entry *)

Inductive lock_op : Type :=
  | CallAcquireRead (txn_id : TxnId)
  | CallAcquireWrite (txn_id : TxnId)
  | CallRelease (txn_id : TxnId).

Definition lock_call (ls : LockState) (op : lock_op) : option LockState :=
  match op with
  | CallAcquireRead t => Some (AcquireReadLock t ls).1
  | CallAcquireWrite t => Some (AcquireWriteLock t ls).1
  | CallRelease t => fst <$> Release t ls
  end.

Definition lock_calls (ops : list lock_op) (ls : LockState) : option LockState :=
  foldl (λ (acc : option LockState) op, acc ≫= λ s, lock_call s op) (Some ls) ops.

(** What every entry built by the three calls satisfies.  [inv_tags] records
    that the source never queues a request under another tag than [READ]. *)
Record lock_inv (ls : LockState) : Prop := mk_lock_inv {
  inv_tags : Forall (λ p : TxnId * LockMode, p.2 = READ) (waiter_queue_ ls);
  inv_waiters : waiters_ ls = list_to_set (waiter_queue_ ls).*1;
  inv_unlocked : mode ls = UNLOCKED → holders_ ls = ∅ ∧ waiter_queue_ ls = [];
  inv_locked : mode ls ≠ UNLOCKED → holders_ ls ≠ ∅;
  inv_write : mode ls = WRITE → size (holders_ ls) = 1%nat;
}.


(** ** The lock manager on the scenario of the write-after-read test *)

Definition txn1 : Transaction := MakeTransaction 1%N ["A"] [].
Definition txn2 : Transaction := MakeTransaction 2%N [] ["A"].
Definition txn3 : Transaction := MakeTransaction 3%N ["A"] [].

Definition other_partition : Configuration :=
  {| KeyIsInLocalPartition := λ _, false; local_replica := 0;
     local_machine_id := 0; num_partitions := 2;
     MakeMachineId := λ rep part, rep + Z.of_nat part |}.

(** ** execution/tpcc: TPCCExecution::Execute *)

Definition set_status (s : TransactionStatus) (txn : Transaction) : Transaction :=
  {| id := id txn; type := type txn; read_set := read_set txn;
     write_set := write_set txn; master_metadata := master_metadata txn;
     procedures := procedures txn; remaster := remaster txn;
     status := s; abort_reason := abort_reason txn |}.

Definition set_abort_reason (r : string) (txn : Transaction) : Transaction :=
  {| id := id txn; type := type txn; read_set := read_set txn;
     write_set := write_set txn; master_metadata := master_metadata txn;
     procedures := procedures txn; remaster := remaster txn;
     status := status txn; abort_reason := r |}.

Module TPCC.

Record OrderLine : Type := mkOrderLine {
  ol_id : Z;
  supply_w_id : Z;
  item_id : Z;
  quantity : Z;
}.

(** Conversion of a [long long] to [int], as in [int w_i_id = stoll(args[6])]. *)
Definition to_int (z : Z) : Z := (z + 2 ^ 31) mod 2 ^ 32 - 2 ^ 31.

(** What [Execute] does before its last statements: it either has returned
    already with the transaction marked aborted, or holds the result of the
    selected procedure and the transaction as the procedure left it. *)
Inductive dispatched : Type :=
  | Returned (txn : Transaction)
  | Ran (result : bool) (txn : Transaction).

Section Execution.
(** The storage and [ApplyWrites] (execution/execution.h), the five TPC-C
    procedures (execution/tpcc/transaction.h) and the number of items of a
    stock-level query are not among the sources; [stoi] and [stoll] are the
    standard library's, [None] standing for the exception they throw. *)
Variable Storage : Type.
Variable ApplyWrites : Transaction → Storage → Storage.
Variable kTotalItems : nat.
Variables stoi stoll : string → option Z.
Variable NewOrderTxn :
  Z → Z → Z → Z → Z → Z → list OrderLine → Transaction → bool * Transaction.
Variable PaymentTxn :
  Z → Z → Z → Z → Z → Z → Z → Z → Transaction → bool * Transaction.
Variable OrderStatusTxn : Z → Z → Z → Z → Transaction → bool * Transaction.
Variable DeliverTxn :
  Z → Z → Z → Z → Z → Z → Transaction → bool * Transaction.
Variable StockLevelTxn :
  Z → Z → Z → list Z → Transaction → bool * Transaction.

Local Open Scope outcome_scope.

Definition parse (f : string → option Z) (s : string) : outcome Z :=
  match f s with
  | Some z => Returns z
  | None => Throws "invalid_argument"
  end.

Definition aborted (reason : string) (txn : Transaction) : Transaction :=
  set_abort_reason reason (set_status ABORTED txn).

(** The loop over the ten order lines of [new_order]; [None] is the early
    return on an order line without four arguments. *)
Fixpoint parse_order_lines (lines : list (list string))
  : outcome (option (list TPCC.OrderLine)) :=
  match lines with
  | [] => Returns (Some [])
  | [a0; a1; a2; a3] :: rest =>
      do ol_id <- parse stoi a0;
      do supply_w_id <- parse stoi a1;
      do item_id <- parse stoi a2;
      do quantity <- parse stoi a3;
      do tail <- parse_order_lines rest;
      Returns ((λ t, mkOrderLine ol_id supply_w_id item_id quantity :: t) <$> tail)
  | _ :: _ => Returns None
  end.

Fixpoint parse_all (f : string → option Z) (l : list string) : outcome (list Z) :=
  match l with
  | [] => Returns []
  | s :: l' => do z <- parse f s; do zs <- parse_all f l'; Returns (z :: zs)
  end.

Definition dispatch (txn : Transaction) : outcome dispatched :=
  match procedures txn with
  | [] | [] :: _ => Returns (Returned (aborted "Invalid code" txn))
  | (txn_name :: _) as args :: lines =>
      if decide (txn_name = "new_order") then
        match args with
        | [_; a1; a2; a3; a4; a5; a6] =>
            if decide (length (procedures txn) ≠ 11%nat) then
              Returns (Returned
                (aborted "new_order: Invalid number of arguments" txn))
            else
              do w_id <- parse stoi a1;
              do d_id <- parse stoi a2;
              do c_id <- parse stoi a3;
              do o_id <- parse stoi a4;
              do datetime <- parse stoll a5;
              do w_i_id <- parse stoll a6;
              do ol <- parse_order_lines lines;
              match ol with
              | None =>
                  Returns (Returned (aborted
                    "new_order: Invalid number of arguments for order line" txn))
              | Some ol =>
                  let '(result, txn') :=
                    NewOrderTxn w_id d_id c_id o_id datetime (to_int w_i_id) ol txn
                  in Returns (Ran result txn')
              end
        | _ => Returns (Returned
                 (aborted "new_order: Invalid number of arguments" txn))
        end
      else if decide (txn_name = "payment") then
        match args with
        | [_; a1; a2; a3; a4; a5; a6; a7; a8] =>
            do w_id <- parse stoi a1;
            do d_id <- parse stoi a2;
            do c_w_id <- parse stoi a3;
            do c_d_id <- parse stoi a4;
            do c_id <- parse stoi a5;
            do amount <- parse stoll a6;
            do datetime <- parse stoll a7;
            do h_id <- parse stoi a8;
            let '(result, txn') :=
              PaymentTxn w_id d_id c_w_id c_d_id c_id amount datetime h_id txn
            in Returns (Ran result txn')
        | _ => Returns (Returned
                 (aborted "payment: Invalid number of arguments" txn))
        end
      else if decide (txn_name = "order_status") then
        match args with
        | [_; a1; a2; a3; a4] =>
            do w_id <- parse stoi a1;
            do d_id <- parse stoi a2;
            do c_id <- parse stoi a3;
            do o_id <- parse stoi a4;
            let '(result, txn') := OrderStatusTxn w_id d_id c_id o_id txn
            in Returns (Ran result txn')
        | _ => Returns (Returned
                 (aborted "order_status: Invalid number of arguments" txn))
        end
      else if decide (txn_name = "deliver") then
        match args with
        | [_; a1; a2; a3; a4; a5; a6] =>
            do w_id <- parse stoi a1;
            do d_id <- parse stoi a2;
            do no_o_id <- parse stoi a3;
            do c_id <- parse stoi a4;
            do o_carrier <- parse stoi a5;
            do datetime <- parse stoll a6;
            let '(result, txn') :=
              DeliverTxn w_id d_id no_o_id c_id o_carrier datetime txn
            in Returns (Ran result txn')
        | _ => Returns (Returned
                 (aborted "deliver: Invalid number of arguments" txn))
        end
      else if decide (txn_name = "stock_level") then
        match args, lines with
        | [_; a1; a2; a3], [item_ids] =>
            do w_id <- parse stoi a1;
            do d_id <- parse stoi a2;
            do o_id <- parse stoi a3;
            if decide (length item_ids ≠ kTotalItems) then
              Returns (Returned
                (aborted "stock_level: Invalid number of items" txn))
            else
              do i_ids <- parse_all stoi item_ids;
              let '(result, txn') := StockLevelTxn w_id d_id o_id i_ids txn
              in Returns (Ran result txn')
        | _, _ => Returns (Returned
                    (aborted "stock_level: Invalid number of arguments" txn))
        end
      else Returns (Returned (aborted "Unknown procedure name" txn))
  end.

(** The block after [if (result) { ... }] is not an [else] branch in the
    source: it runs after the commit as well. *)
Definition Execute (txn : Transaction) (storage : Storage)
  : outcome (Transaction * Storage) :=
  do d <- dispatch txn;
  match d with
  | Returned txn' => Returns (txn', storage)
  | Ran result txn' =>
      let '(txn'', storage') :=
        if result then
          let committed := set_status COMMITTED txn' in
          (committed, ApplyWrites committed storage)
        else (txn', storage) in
      Returns (aborted "Aborted by a TPC-C txn" txn'', storage')
  end.

End Execution.

End TPCC.

(** An instance of the parameters of [TPCC.Execute] to run it on: a
    key-value map as storage, written by [ApplyWrites] with the write set,
    decimal parsing, and procedures that succeed without touching the
    transaction. *)
Definition decimal (s : string) : option Z :=
  Z.of_int <$> NilZero.int_of_string s.

Definition apply_write_set (txn : Transaction) (storage : gmap Key Value)
  : gmap Key Value :=
  foldl (λ m (kv : Key * Value), <[kv.1 := kv.2]> m) storage (write_set txn).

Definition Execute_instance : Transaction → gmap Key Value →
    outcome (Transaction * gmap Key Value) :=
  TPCC.Execute (gmap Key Value) apply_write_set 15 decimal decimal
    (λ _ _ _ _ _ _ _ txn, (true, txn))
    (λ _ _ _ _ _ _ _ _ txn, (true, txn))
    (λ _ _ _ _ txn, (true, txn))
    (λ _ _ _ _ _ _ txn, (true, txn))
    (λ _ _ _ _ txn, (true, txn)).

Definition payment_txn : Transaction :=
  {| id := 7%N; type := SINGLE_HOME; read_set := [];
     write_set := [("warehouse1", "ytd=100")]; master_metadata := [];
     procedures := [["payment"; "1"; "2"; "1"; "2"; "3"; "100"; "0"; "4"]];
     remaster := None; status := NOT_STARTED; abort_reason := EmptyString |}.

(** ** module/scheduler_components/simple_remaster_manager.cpp *)

Module Remaster.

Inductive VerifyMasterResult : Type := VALID | WAITING | ABORT.

Global Instance VerifyMasterResult_eq_dec : EqDecision VerifyMasterResult.
Proof. solve_decision. Defined.

(** [TxnReplicaId] (common/types.h is not among the sources): the id of a
    transaction paired with the region of the local log it came through. *)
Definition TxnReplicaId : Type := TxnId * Z.

Record TransactionHolder : Type := mkHolder {
  GetTransaction : Transaction;
  KeysInPartition : list (Key * LockMode);
}.

(** The storage, modelled as a map from a key to the metadata of its record
    ([storage_->Read] finds the record or not). *)
Definition Storage : Type := gmap Key MasterMetadata.

Record RemasterOccurredResult : Type := mkResult {
  unblocked : list TxnReplicaId;
  should_abort : list TxnReplicaId;
}.

Record SimpleRemasterManager : Type := mkManager {
  storage_ : Storage;
  all_txns_ : gmap TxnReplicaId TransactionHolder;
  blocked_queue_ : gmap Z (list TxnReplicaId);
}.

(** [blocked_queue_[id]] read as a value: a missing queue reads empty. *)
Definition queue_of (local_log_machine_id : Z) (m : SimpleRemasterManager)
  : list TxnReplicaId :=
  default [] (blocked_queue_ m !! local_log_machine_id).

Definition set_queue (local_log_machine_id : Z) (q : list TxnReplicaId)
    (m : SimpleRemasterManager) : SimpleRemasterManager :=
  {| storage_ := storage_ m; all_txns_ := all_txns_ m;
     blocked_queue_ := <[local_log_machine_id := q]> (blocked_queue_ m) |}.

Definition storage_counter (storage : Storage) (key : Key) : Z :=
  match storage !! key with
  | Some record => counter record
  | None => 0
  end.

Local Open Scope outcome_scope.

(** The loop of [CheckCounters] over the keys in the partition. *)
Fixpoint check_keys (storage : Storage) (txn_master_metadata : pbmap MasterMetadata)
    (keys : list (Key * LockMode)) : outcome VerifyMasterResult :=
  match keys with
  | [] => Returns VALID
  | (key, _) :: rest =>
      match pb_at key txn_master_metadata with
      | None => Throws "key not found"
      | Some meta =>
          let txn_counter := counter meta in
          do _ <- match storage !! key with
                  | Some record =>
                      if decide (master meta = master record) then Returns ()
                      else Fatal "Masters don't match for same key"
                  | None => Returns ()
                  end;
          if txn_counter <? storage_counter storage key then Returns ABORT
          else if storage_counter storage key <? txn_counter then Returns WAITING
          else check_keys storage txn_master_metadata rest
      end
  end.

Definition CheckCounters (storage : Storage) (txn_holder : TransactionHolder)
  : outcome VerifyMasterResult :=
  check_keys storage (master_metadata (GetTransaction txn_holder))
             (KeysInPartition txn_holder).

(** [all_txns_->at(id)] throws on a missing id. *)
Definition txn_at (m : SimpleRemasterManager) (txn_replica_id : TxnReplicaId)
  : outcome TransactionHolder :=
  match all_txns_ m !! txn_replica_id with
  | Some holder => Returns holder
  | None => Throws "out_of_range"
  end.

Definition VerifyMaster (txn_replica_id : TxnReplicaId) (m : SimpleRemasterManager)
  : outcome (SimpleRemasterManager * VerifyMasterResult) :=
  do txn_holder <- txn_at m txn_replica_id;
  match KeysInPartition txn_holder with
  | [] => Returns (m, VALID)
  | _ :: _ =>
      match master_metadata (GetTransaction txn_holder) with
      | [] => Returns (m, VALID)
      | (_, first) :: _ =>
          let local_log_machine_id := master first in
          match queue_of local_log_machine_id m with
          | (_ :: _) as q =>
              Returns (set_queue local_log_machine_id (q ++ [txn_replica_id]) m,
                       WAITING)
          | [] =>
              do result <- CheckCounters (storage_ m) txn_holder;
              if decide (result = WAITING) then
                Returns (set_queue local_log_machine_id
                           (queue_of local_log_machine_id m ++ [txn_replica_id]) m,
                         WAITING)
              else Returns (m, result)
          end
      end
  end.

(** [TryToUnblock] on the queue it works on: the recursion pops the head as
    long as its check is not [WAITING]. *)
Fixpoint unblock_queue (m : SimpleRemasterManager) (q : list TxnReplicaId)
    (result : RemasterOccurredResult)
  : outcome (list TxnReplicaId * RemasterOccurredResult) :=
  match q with
  | [] => Returns ([], result)
  | txn_replica_id :: q' =>
      do txn_holder <- txn_at m txn_replica_id;
      do counter_result <- CheckCounters (storage_ m) txn_holder;
      match counter_result with
      | WAITING => Returns (q, result)
      | VALID =>
          unblock_queue m q'
            {| unblocked := unblocked result ++ [txn_replica_id];
               should_abort := should_abort result |}
      | ABORT =>
          unblock_queue m q'
            {| unblocked := unblocked result;
               should_abort := should_abort result ++ [txn_replica_id] |}
      end
  end.

Definition TryToUnblock (local_log_machine_id : Z)
    (acc : SimpleRemasterManager * RemasterOccurredResult)
  : outcome (SimpleRemasterManager * RemasterOccurredResult) :=
  let '(m, result) := acc in
  match blocked_queue_ m !! local_log_machine_id with
  | None | Some [] => Returns acc
  | Some ((_ :: _) as q) =>
      do r <- unblock_queue m q result;
      Returns (set_queue local_log_machine_id r.1 m, r.2)
  end.

Definition head_has_key (m : SimpleRemasterManager) (q : list TxnReplicaId)
    (remaster_key : Key) : outcome bool :=
  match q with
  | [] => Returns false
  | txn_replica_id :: _ =>
      do txn_holder <- txn_at m txn_replica_id;
      Returns (bool_decide (remaster_key ∈ (KeysInPartition txn_holder).*1))
  end.

(** One iteration of the loop of [RemasterOccured] over the queues. *)
Definition remaster_queue (remaster_key : Key)
    (acc : SimpleRemasterManager * RemasterOccurredResult)
    (local_log_machine_id : Z)
  : outcome (SimpleRemasterManager * RemasterOccurredResult) :=
  do touched <- head_has_key acc.1 (queue_of local_log_machine_id acc.1)
                             remaster_key;
  if touched : bool then TryToUnblock local_log_machine_id acc else Returns acc.

Definition RemasterOccured (remaster_key : Key) (remaster_counter : Z)
    (m : SimpleRemasterManager)
  : outcome (SimpleRemasterManager * RemasterOccurredResult) :=
  foldl (λ (acc : outcome (SimpleRemasterManager * RemasterOccurredResult)) i,
           outcome_bind acc (λ a, remaster_queue remaster_key a i))
        (Returns (m, {| unblocked := []; should_abort := [] |}))
        (map_to_list (blocked_queue_ m)).*1.

End Remaster.

(** Whether the check of a queued transaction comes back, and with what. *)
Definition check_result (m : Remaster.SimpleRemasterManager)
    (txn_replica_id : Remaster.TxnReplicaId)
  : option Remaster.VerifyMasterResult :=
  match Remaster.all_txns_ m !! txn_replica_id with
  | Some holder =>
      match Remaster.CheckCounters (Remaster.storage_ m) holder with
      | Returns r => Some r
      | _ => None
      end
  | None => None
  end.

(** The manager [m] with its queues replaced: [RemasterOccured] changes
    nothing else. *)
Definition with_queues (bq : gmap Z (list Remaster.TxnReplicaId))
    (m : Remaster.SimpleRemasterManager) : Remaster.SimpleRemasterManager :=
  {| Remaster.storage_ := Remaster.storage_ m;
     Remaster.all_txns_ := Remaster.all_txns_ m;
     Remaster.blocked_queue_ := bq |}.

(** A queued transaction whose check answers VALID or ABORT leaves its
    queue; one whose check answers WAITING stays at the head. *)
Definition moves_on (m : Remaster.SimpleRemasterManager)
    (txn_replica_id : Remaster.TxnReplicaId) : Prop :=
  check_result m txn_replica_id = Some Remaster.VALID ∨
  check_result m txn_replica_id = Some Remaster.ABORT.

(** The head of the queue has the remastered key among its keys in the
    partition. *)
Definition head_touches (m : Remaster.SimpleRemasterManager) (key : Key)
    (q : list Remaster.TxnReplicaId) : Prop :=
  ∃ txn_replica_id rest holder,
    q = txn_replica_id :: rest ∧
    Remaster.all_txns_ m !! txn_replica_id = Some holder ∧
    key ∈ (Remaster.KeysInPartition holder).*1.

(** Every queued transaction is known and its check neither throws nor ends
    the process. *)
Definition checks_return (m : Remaster.SimpleRemasterManager) : Prop :=
  ∀ i q txn_replica_id,
    Remaster.blocked_queue_ m !! i = Some q → txn_replica_id ∈ q →
    is_Some (check_result m txn_replica_id).

(** How [RemasterOccured] for [key] leaves a queue [q] of [m]: [popped] has
    left it, [rest] stays, and [result] has what it has to. *)
Record queue_outcome (m : Remaster.SimpleRemasterManager) (key : Key)
    (result : Remaster.RemasterOccurredResult)
    (q popped rest : list Remaster.TxnReplicaId) : Prop := mk_queue_outcome {
  qo_split : q = popped ++ rest;
  qo_untouched : ¬ head_touches m key q → popped = [];
  qo_popped : Forall (moves_on m) popped;
  qo_stop : head_touches m key q →
    ∀ txn_replica_id rest', rest = txn_replica_id :: rest' →
      check_result m txn_replica_id = Some Remaster.WAITING;
  qo_unblocked : ∀ txn_replica_id, txn_replica_id ∈ popped →
    check_result m txn_replica_id = Some Remaster.VALID →
    txn_replica_id ∈ Remaster.unblocked result;
  qo_should_abort : ∀ txn_replica_id, txn_replica_id ∈ popped →
    check_result m txn_replica_id = Some Remaster.ABORT →
    txn_replica_id ∈ Remaster.should_abort result;
}.

(** *** What [RemasterOccured] does to one queue *)

(** The check of a queued transaction lets it leave its queue. *)
Definition leaves (m : Remaster.SimpleRemasterManager)
    (txn_replica_id : Remaster.TxnReplicaId) : bool :=
  bool_decide (check_result m txn_replica_id = Some Remaster.VALID ∨
               check_result m txn_replica_id = Some Remaster.ABORT).

(** The longest prefix of a queue whose transactions all leave. *)
Fixpoint leaving (m : Remaster.SimpleRemasterManager)
    (q : list Remaster.TxnReplicaId) : list Remaster.TxnReplicaId :=
  match q with
  | txn_replica_id :: q' =>
      if leaves m txn_replica_id then txn_replica_id :: leaving m q' else []
  | [] => []
  end.

(** The head of the queue is known and has the key among its keys in the
    partition. *)
Definition touched (m : Remaster.SimpleRemasterManager) (key : Key)
    (q : list Remaster.TxnReplicaId) : bool :=
  match q with
  | txn_replica_id :: _ =>
      match Remaster.all_txns_ m !! txn_replica_id with
      | Some holder =>
          bool_decide (key ∈ (Remaster.KeysInPartition holder).*1)
      | None => false
      end
  | [] => false
  end.

(** The transactions that a remaster of [key] takes off the queue, in the
    order of the queue, and those it leaves. *)
Definition popped (m : Remaster.SimpleRemasterManager) (key : Key)
    (q : list Remaster.TxnReplicaId) : list Remaster.TxnReplicaId :=
  if touched m key q then leaving m q else [].

Definition remaining (m : Remaster.SimpleRemasterManager) (key : Key)
    (q : list Remaster.TxnReplicaId) : list Remaster.TxnReplicaId :=
  drop (length (popped m key q)) q.

Definition VALID_of (m : Remaster.SimpleRemasterManager)
    (l : list Remaster.TxnReplicaId) : list Remaster.TxnReplicaId :=
  filter (λ t, check_result m t = Some Remaster.VALID) l.

Definition ABORT_of (m : Remaster.SimpleRemasterManager)
    (l : list Remaster.TxnReplicaId) : list Remaster.TxnReplicaId :=
  filter (λ t, check_result m t = Some Remaster.ABORT) l.

(** What the call looks at in a queue is there to be looked at: the head is
    a known transaction, and, when the head has the key, the transaction at
    which the popping stops can be checked (its check then answers
    WAITING). *)
Definition consultable (m : Remaster.SimpleRemasterManager) (key : Key)
    (q : list Remaster.TxnReplicaId) : Prop :=
  (∀ t, head q = Some t → is_Some (Remaster.all_txns_ m !! t)) ∧
  (touched m key q = true →
   ∀ t, head (remaining m key q) = Some t →
        check_result m t = Some Remaster.WAITING).

(** The queues once the listed ones have been gone through. *)
Definition requeued (m : Remaster.SimpleRemasterManager) (key : Key)
    (iqs : list (Z * list Remaster.TxnReplicaId))
    (bq : gmap Z (list Remaster.TxnReplicaId))
  : gmap Z (list Remaster.TxnReplicaId) :=
  foldl (λ b iq, <[iq.1 := remaining m key iq.2]> b) bq iqs.

(** A key whose counter in the transaction equals the one in the storage and
    whose master, when the storage has the key, equals the stored one: the
    loop of [CheckCounters] steps over such a key. *)
Definition key_agrees (storage : Remaster.Storage)
    (txn_master_metadata : pbmap MasterMetadata) (key : Key) : Prop :=
  ∃ meta, pb_at key txn_master_metadata = Some meta ∧
          counter meta = Remaster.storage_counter storage key ∧
          ∀ record, storage !! key = Some record → master meta = master record.

(** States of the remaster manager used in the examples: key A and key B are
    stored with master 0 and counter 1. *)
Definition storage_AB : Remaster.Storage :=
  {[ "A" := mkMeta 0 1; "B" := mkMeta 0 1 ]}.

Definition holder_of (i : TxnId) (keys : list Key) (meta : pbmap MasterMetadata)
  : Remaster.TransactionHolder :=
  {| Remaster.GetTransaction :=
       {| id := i; type := SINGLE_HOME;
          read_set := (λ k, (k, EmptyString)) <$> keys; write_set := [];
          master_metadata := meta; procedures := []; remaster := None;
          status := NOT_STARTED; abort_reason := EmptyString |};
     Remaster.KeysInPartition := (λ k, (k, READ)) <$> keys |}.

(** Key A ahead of the storage, key B behind it. *)
Definition ahead_then_behind : Remaster.SimpleRemasterManager :=
  {| Remaster.storage_ := storage_AB;
     Remaster.all_txns_ :=
       {[ (1%N, 0) := holder_of 1%N ["A"; "B"]
                        [("A", mkMeta 0 2); ("B", mkMeta 0 0)] ]};
     Remaster.blocked_queue_ := ∅ |}.

(** Key A behind the storage. *)
Definition behind : Remaster.SimpleRemasterManager :=
  {| Remaster.storage_ := storage_AB;
     Remaster.all_txns_ :=
       {[ (2%N, 0) := holder_of 2%N ["A"] [("A", mkMeta 0 0)] ]};
     Remaster.blocked_queue_ := ∅ |}.

(** The state of the test RemasterReleases once the storage has the new
    counter 2 of key A: txn 1 (counter 2) ahead of txn 2 (counter 1) in the
    queue of region 0. *)
Definition after_remaster : Remaster.SimpleRemasterManager :=
  {| Remaster.storage_ := {[ "A" := mkMeta 0 2 ]};
     Remaster.all_txns_ :=
       {[ (1%N, 0) := holder_of 1%N ["A"] [("A", mkMeta 0 2)];
          (2%N, 0) := holder_of 2%N ["A"] [("A", mkMeta 0 1)] ]};
     Remaster.blocked_queue_ := {[ 0 := [(1%N, 0); (2%N, 0)] ]} |}.

(** ** module/sequencer.cpp and module/server.cpp: ids and multi-home batches *)

Module Sequencer.

Record Batch : Type := mkBatch {
  batch_id : Z;
  transaction_type : TransactionType;
  transactions : list Transaction;
}.

(** A [Send] of the request carrying [batch] to a channel of a machine. *)
Record Sent : Type := mkSent {
  sent_batch : Batch;
  to_channel : string;
  to_machine : Z;
}.

Record t : Type := mkSequencer {
  batch_ : Batch;
  batch_id_counter_ : Z;
  outbox : list Sent;
}.

Definition kInterleaverChannel : string := "interleaver".

(** [new Transaction()] *)
Definition new_Transaction : Transaction :=
  {| id := 0%N; type := UNKNOWN; read_set := []; write_set := [];
     master_metadata := []; procedures := []; remaster := None;
     status := NOT_STARTED; abort_reason := EmptyString |}.

Section Sequencer.
Variable config_ : Configuration.
(** [kMaxNumMachines] (common/constants.h) and the width of [BatchId] and
    [TxnId] (common/types.h) are not among the sources. *)
Variable kMaxNumMachines : Z.
Variable id_bits : Z.
(** Whether the build defines [REMASTER_PROTOCOL_COUNTERLESS]. *)
Variable remaster_protocol_counterless : bool.

Definition wrap (z : Z) : Z := z mod 2 ^ id_bits.

Definition NextBatchId (s : t) : t * Z :=
  let c := wrap (batch_id_counter_ s + 1) in
  ({| batch_ := batch_ s; batch_id_counter_ := c; outbox := outbox s |},
   wrap (wrap (c * kMaxNumMachines) + local_machine_id config_)).

Definition PutSingleHomeTransactionIntoBatch (txn : Transaction) (s : t) : t :=
  {| batch_ := {| batch_id := batch_id (batch_ s);
                  transaction_type := transaction_type (batch_ s);
                  transactions := transactions (batch_ s) ++ [txn] |};
     batch_id_counter_ := batch_id_counter_ s; outbox := outbox s |}.

Local Open Scope outcome_scope.

(** One of the two copy loops: the entries of [set] whose master is the local
    replica go to the set [into] and their metadata to [meta]. *)
Fixpoint copy_local (metadata : pbmap MasterMetadata) (set : pbmap Value)
    (into : pbmap Value) (meta : pbmap MasterMetadata)
  : outcome (pbmap Value * pbmap MasterMetadata) :=
  match set with
  | [] => Returns (into, meta)
  | key_value :: rest =>
      match pb_at key_value.1 metadata with
      | None => Throws "key not found"
      | Some m =>
          if decide (master m = local_replica config_) then
            copy_local metadata rest (pb_insert key_value into)
                       (pb_insert (key_value.1, m) meta)
          else copy_local metadata rest into meta
      end
  end.

Definition make_lock_only (txn : Transaction) : outcome Transaction :=
  let metadata := master_metadata txn in
  do r <- copy_local metadata (read_set txn) [] [];
  do w <- copy_local metadata (write_set txn) [] r.2;
  let lock_only_txn :=
    {| id := id new_Transaction; type := type new_Transaction;
       read_set := r.1; write_set := w.1; master_metadata := w.2;
       procedures := []; remaster := None;
       status := NOT_STARTED; abort_reason := EmptyString |} in
  let lock_only_txn :=
    if remaster_protocol_counterless then
      match remaster txn with
      | Some rm =>
          if decide (new_master rm = local_replica config_) then
            {| id := id txn; type := type txn; read_set := read_set txn;
               write_set := write_set txn;
               master_metadata := master_metadata txn;
               procedures := procedures txn;
               remaster := Some {| new_master := new_master rm;
                                   is_new_master_lock_only := true |};
               status := status txn; abort_reason := abort_reason txn |}
          else
            {| id := id lock_only_txn; type := type lock_only_txn;
               read_set := read_set lock_only_txn;
               write_set := write_set lock_only_txn;
               master_metadata := master_metadata lock_only_txn;
               procedures := procedures lock_only_txn;
               remaster := Some {| new_master := new_master rm;
                                   is_new_master_lock_only := false |};
               status := status lock_only_txn;
               abort_reason := abort_reason lock_only_txn |}
      | None => lock_only_txn
      end
    else lock_only_txn in
  Returns {| id := id txn; type := LOCK_ONLY;
             read_set := read_set lock_only_txn;
             write_set := write_set lock_only_txn;
             master_metadata := master_metadata lock_only_txn;
             procedures := procedures lock_only_txn;
             remaster := remaster lock_only_txn;
             status := status lock_only_txn;
             abort_reason := abort_reason lock_only_txn |}.

(** One iteration of the loop over the transactions of the batch. *)
Definition put_lock_only (s : t) (txn : Transaction) : outcome t :=
  do lock_only_txn <- make_lock_only txn;
  match read_set lock_only_txn, write_set lock_only_txn with
  | [], [] => Returns s
  | _, _ => Returns (PutSingleHomeTransactionIntoBatch lock_only_txn s)
  end.

Definition send_to_partitions (batch : Batch) (s : t) : t :=
  {| batch_ := batch_ s; batch_id_counter_ := batch_id_counter_ s;
     outbox := outbox s ++
       ((λ part, {| sent_batch := batch; to_channel := kInterleaverChannel;
                    to_machine := MakeMachineId config_ (local_replica config_) part |})
          <$> seq 0 (num_partitions config_)) |}.

Definition ProcessMultiHomeBatch (batch : Batch) (s : t) : outcome t :=
  if decide (transaction_type batch ≠ MULTI_HOME) then Returns s
  else
    do s' <- foldl (λ (acc : outcome t) txn,
                      outcome_bind acc (λ a, put_lock_only a txn))
                   (Returns s) (transactions batch);
    Returns (send_to_partitions batch s').

End Sequencer.

End Sequencer.

(** [Server::NextTxnId] has the body of [Sequencer::NextBatchId], over the
    counter of the server. *)
Module Server.

Record t : Type := mkServer {
  txn_id_counter_ : Z;
}.

Section Server.
Variable config_ : Configuration.
Variable kMaxNumMachines : Z.
Variable id_bits : Z.

Definition NextTxnId (s : t) : t * Z :=
  let c := Sequencer.wrap id_bits (txn_id_counter_ s + 1) in
  ({| txn_id_counter_ := c |},
   Sequencer.wrap id_bits
     (Sequencer.wrap id_bits (c * kMaxNumMachines) + local_machine_id config_)).

End Server.

End Server.

(** The ids that [n] successive calls return, first call first. *)
Fixpoint batch_ids (config : Configuration) (kMaxNumMachines id_bits : Z)
    (n : nat) (s : Sequencer.t) : list Z :=
  match n with
  | O => []
  | S n' =>
      let '(s', i) := Sequencer.NextBatchId config kMaxNumMachines id_bits s in
      i :: batch_ids config kMaxNumMachines id_bits n' s'
  end.

Fixpoint txn_ids (config : Configuration) (kMaxNumMachines id_bits : Z)
    (n : nat) (s : Server.t) : list Z :=
  match n with
  | O => []
  | S n' =>
      let '(s', i) := Server.NextTxnId config kMaxNumMachines id_bits s in
      i :: txn_ids config kMaxNumMachines id_bits n' s'
  end.

(** The sequencer and the server as their constructors leave them. *)
Definition new_sequencer : Sequencer.t :=
  {| Sequencer.batch_ := Sequencer.mkBatch 0 SINGLE_HOME [];
     Sequencer.batch_id_counter_ := 0; Sequencer.outbox := [] |}.

Definition new_server : Server.t := {| Server.txn_id_counter_ := 0 |}.

Definition machine (m : Z) : Configuration :=
  {| KeyIsInLocalPartition := λ _, true; local_replica := 0;
     local_machine_id := m; num_partitions := 1;
     MakeMachineId := λ rep part, rep + Z.of_nat part |}.

(** The lock-only transaction in the words of the specification: an entry of
    the parent is kept when the parent's metadata gives the local region as
    the master of its key. *)
Definition mastered_locally (config : Configuration)
    (metadata : pbmap MasterMetadata) (key_value : Key * Value) : Prop :=
  master <$> pb_at key_value.1 metadata = Some (local_replica config).

Global Instance mastered_locally_dec config metadata key_value :
  Decision (mastered_locally config metadata key_value).
Proof. unfold mastered_locally. apply _. Defined.

Record lock_only_of (config : Configuration) (txn lock_only : Transaction)
  : Prop := mk_lock_only_of {
  lo_id : id lock_only = id txn;
  lo_type : type lock_only = LOCK_ONLY;
  lo_read_set :
    read_set lock_only
    = filter (mastered_locally config (master_metadata txn)) (read_set txn);
  lo_write_set :
    write_set lock_only
    = filter (mastered_locally config (master_metadata txn)) (write_set txn);
  lo_metadata : ∀ key meta,
    pb_at key (master_metadata lock_only) = Some meta ↔
    (key ∈ (read_set lock_only).*1 ∨ key ∈ (write_set lock_only).*1) ∧
    pb_at key (master_metadata txn) = Some meta;
}.

Definition carries_keys (txn : Transaction) : Prop :=
  read_set txn ≠ [] ∨ write_set txn ≠ [].

Global Instance carries_keys_dec txn : Decision (carries_keys txn).
Proof. unfold carries_keys. apply _. Defined.

(** The sends that replicate [batch] to every partition of the local region. *)
Definition replication (config : Configuration) (batch : Sequencer.Batch)
  : list Sequencer.Sent :=
  (λ part, Sequencer.mkSent batch Sequencer.kInterleaverChannel
             (MakeMachineId config (local_replica config) part))
    <$> seq 0 (num_partitions config).

(** What [ProcessMultiHomeBatch] asks of a transaction of the batch: its
    metadata covers its keys, and no key occurs twice in a set (they are
    protobuf maps). *)
Record covered (txn : Transaction) : Prop := mk_covered {
  cov_read : ∀ kv, kv ∈ read_set txn → is_Some (pb_at kv.1 (master_metadata txn));
  cov_write : ∀ kv, kv ∈ write_set txn → is_Some (pb_at kv.1 (master_metadata txn));
  cov_read_nodup : NoDup (read_set txn).*1;
  cov_write_nodup : NoDup (write_set txn).*1;
}.

(** A remaster transaction whose new master is the local region, in a build
    with [REMASTER_PROTOCOL_COUNTERLESS]: the one case in which the lock-only
    transaction is a copy of the whole parent. *)
Definition copied_whole (config : Configuration) (counterless : bool)
    (txn : Transaction) : Prop :=
  counterless = true ∧
  ∃ rm, remaster txn = Some rm ∧ new_master rm = local_replica config.

(** The lock-only transaction of that case: [CopyFrom(txn)] and the flag
    [is_new_master_lock_only], then the id and the type set as for every
    lock-only transaction. *)
Definition whole_parent (txn lock_only : Transaction) : Prop :=
  ∃ rm, remaster txn = Some rm ∧
        lock_only
        = {| id := id txn; type := LOCK_ONLY; read_set := read_set txn;
             write_set := write_set txn;
             master_metadata := master_metadata txn;
             procedures := procedures txn;
             remaster := Some {| new_master := new_master rm;
                                 is_new_master_lock_only := true |};
             status := status txn; abort_reason := abort_reason txn |}.

(** What [ProcessMultiHomeBatch] builds for one transaction of the batch, in
    either build: the copy of the whole parent in the one case, the entries
    mastered in the local region otherwise. *)
Definition built_for (config : Configuration) (counterless : bool)
    (txn lock_only : Transaction) : Prop :=
  (copied_whole config counterless txn → whole_parent txn lock_only) ∧
  (¬ copied_whole config counterless txn → lock_only_of config txn lock_only).

(** Region 1, and a remaster of key k from region 0 to region 1. *)
Definition region1 : Configuration :=
  {| KeyIsInLocalPartition := λ _, true; local_replica := 1;
     local_machine_id := 2; num_partitions := 2;
     MakeMachineId := λ rep part, rep * 2 + Z.of_nat part |}.

Definition remaster_txn : Transaction :=
  {| id := 9%N; type := MULTI_HOME; read_set := [];
     write_set := [("k", EmptyString)];
     master_metadata := [("k", mkMeta 0 0)]; procedures := [];
     remaster := Some {| new_master := 1; is_new_master_lock_only := false |};
     status := NOT_STARTED; abort_reason := EmptyString |}.

(** A multi-home transaction reading A (region 0) and C (region 1). *)
Definition multi_home_txn : Transaction :=
  {| id := 11%N; type := MULTI_HOME;
     read_set := [("A", EmptyString); ("C", EmptyString)]; write_set := [];
     master_metadata := [("A", mkMeta 0 0); ("C", mkMeta 1 0)];
     procedures := []; remaster := None;
     status := NOT_STARTED; abort_reason := EmptyString |}.

(** ** Sequences of calls on the lock manager *)

Inductive lm_op : Type :=
  | CallRegisterTxn (txn : Transaction)
  | CallAcquireLocks (txn : Transaction)
  | CallReleaseLocks (txn : Transaction).

Inductive lm_answer : Type :=
  | Answered (b : bool)
  | Ready (ready_txns : gset TxnId).

Definition op_txn (op : lm_op) : Transaction :=
  match op with
  | CallRegisterTxn txn | CallAcquireLocks txn | CallReleaseLocks txn => txn
  end.

Definition lm_call (config : Configuration) (lm : DeterministicLockManager)
    (op : lm_op) : option (DeterministicLockManager * lm_answer) :=
  match op with
  | CallRegisterTxn txn =>
      let '(lm', b) := RegisterTxn config txn lm in Some (lm', Answered b)
  | CallAcquireLocks txn =>
      '(lm', b) ← AcquireLocks config txn lm; Some (lm', Answered b)
  | CallReleaseLocks txn =>
      '(lm', ready_txns) ← ReleaseLocks config txn lm; Some (lm', Ready ready_txns)
  end.

Fixpoint lm_calls (config : Configuration) (ops : list lm_op)
    (lm : DeterministicLockManager)
  : option (DeterministicLockManager * list lm_answer) :=
  match ops with
  | [] => Some (lm, [])
  | op :: ops' =>
      '(lm1, a) ← lm_call config lm op;
      '(lm2, answers) ← lm_calls config ops' lm1;
      Some (lm2, a :: answers)
  end.

(** The transaction is returned as ready by one of the answers. *)
Definition returned_ready (txn_id : TxnId) (answers : list lm_answer) : Prop :=
  ∃ ready_txns, Ready ready_txns ∈ answers ∧ txn_id ∈ ready_txns.

(** Every entry of the lock table satisfies the invariant of an entry. *)
Definition table_inv (lm : DeterministicLockManager) : Prop :=
  ∀ key ls, lock_table_ lm !! key = Some ls → lock_inv ls.

(** The number of keys of [keys] on which [txn_id] holds the lock. *)
Definition held_keys (txn_id : TxnId) (keys : list Key)
    (lm : DeterministicLockManager) : nat :=
  length (filter (λ key, txn_id ∈ holders_ (lock_entry key lm)) keys).

(** Where [txn_id] stands in the lock table: on the keys of [on] it holds the
    lock or waits for it, never both, and it is nowhere else. *)
Definition placed_on (txn_id : TxnId) (on : Key → Prop)
    (lm : DeterministicLockManager) : Prop :=
  ∀ key,
    (txn_id ∈ holders_ (lock_entry key lm) →
     txn_id ∉ waiters_ (lock_entry key lm)) ∧
    (txn_id ∈ holders_ (lock_entry key lm) ∨
     txn_id ∈ waiters_ (lock_entry key lm) → on key) ∧
    (on key → txn_id ∈ holders_ (lock_entry key lm) ∨
              txn_id ∈ waiters_ (lock_entry key lm)).

(** The invariant that ties the count of [txn_id] to the locks it holds:
    [base] is 0 before its registration and the number of its keys after. *)
Record waited_inv (txn_id : TxnId) (keys : list Key) (on : Key → Prop)
    (base : Z) (lm : DeterministicLockManager) : Prop := mk_waited_inv {
  wi_table : table_inv lm;
  wi_placed : placed_on txn_id on lm;
  wi_count : locks_waited txn_id lm = base - Z.of_nat (held_keys txn_id keys lm);
}.

(** A transaction with no key in the partition of the configuration. *)
Definition ghost_txn : Transaction := MakeTransaction 100%N [] ["X"].

(** Two managers in which [txn_id] stands alike. *)
Definition same_standing (txn_id : TxnId) (lm lm' : DeterministicLockManager)
  : Prop :=
  (∀ key, txn_id ∈ holders_ (lock_entry key lm') ↔
          txn_id ∈ holders_ (lock_entry key lm)) ∧
  (∀ key, txn_id ∈ waiters_ (lock_entry key lm') ↔
          txn_id ∈ waiters_ (lock_entry key lm)) ∧
  locks_waited txn_id lm' = locks_waited txn_id lm.

(** The state of the loop after the queues [done]. *)
Record loop_inv (m : Remaster.SimpleRemasterManager) (remaster_key : Key)
    (done : list Z)
    (acc : Remaster.SimpleRemasterManager * Remaster.RemasterOccurredResult)
  : Prop := mk_loop_inv {
  li_state : ∃ bq, acc.1 = with_queues bq m;
  li_todo : ∀ i, i ∉ done →
    Remaster.blocked_queue_ acc.1 !! i = Remaster.blocked_queue_ m !! i;
  li_done : ∀ i q, i ∈ done → Remaster.blocked_queue_ m !! i = Some q →
    ∃ popped rest, Remaster.blocked_queue_ acc.1 !! i = Some rest ∧
                   queue_outcome m remaster_key acc.2 q popped rest;
  li_unblocked : ∀ t, t ∈ Remaster.unblocked acc.2 →
    check_result m t = Some Remaster.VALID ∧
    ∃ i q, Remaster.blocked_queue_ m !! i = Some q ∧
           head_touches m remaster_key q ∧ t ∈ q;
  li_should_abort : ∀ t, t ∈ Remaster.should_abort acc.2 →
    check_result m t = Some Remaster.ABORT ∧
    ∃ i q, Remaster.blocked_queue_ m !! i = Some q ∧
           head_touches m remaster_key q ∧ t ∈ q;
}.


(** A transaction is in an entry at most once: the holders and the waiters are
    disjoint, and no transaction is queued twice. *)
Definition at_most_once (ls : LockState) : Prop :=
  holders_ ls ## waiters_ ls ∧ NoDup (waiter_queue_ ls).*1.

(** What the lock manager keeps of every entry of its table. *)
Definition table_sound (lm : DeterministicLockManager) : Prop :=
  ∀ key ls, lock_table_ lm !! key = Some ls → lock_inv ls ∧ at_most_once ls.

(** A transaction that reads keys A and B and writes key A. *)
Definition read_and_write : Transaction := MakeTransaction 6%N ["A"; "B"] ["A"].

(** ** Sequences of calls on the asynchronous log *)

(** [Peek]: [log_.at(next_)] throws [std::out_of_range] on a missing key. *)
Definition Peek {T} (l : AsyncLog.t T) : outcome T :=
  match AsyncLog.log_ l !! AsyncLog.next_ l with
  | Some item => Returns item
  | None => Throws "out_of_range"
  end.

(** [Insert] of every entry of the list, first entry first. *)
Fixpoint insert_all {T} (entries : list (Z * T)) (l : AsyncLog.t T)
  : outcome (AsyncLog.t T) :=
  match entries with
  | [] => Returns l
  | entry :: rest =>
      outcome_bind (AsyncLog.Insert entry.1 entry.2 l) (insert_all rest)
  end.

(** [n] calls of [Next], with the items they return, first call first. *)
Fixpoint next_n {T} (n : nat) (l : AsyncLog.t T)
  : outcome (list T * AsyncLog.t T) :=
  match n with
  | O => Returns ([], l)
  | S n' =>
      outcome_bind (AsyncLog.Next l) (λ r,
        outcome_bind (next_n n' r.2) (λ rs, Returns (r.1 :: rs.1, rs.2)))
  end.

(** ** The remaster manager when the storage moves on *)

(** The manager [m] over a storage that has changed: the storage is shared
    with the rest of the scheduler, which writes the new master and counter of
    a remastered key before it calls [RemasterOccured]. *)
Definition with_storage (storage : Remaster.Storage)
    (m : Remaster.SimpleRemasterManager) : Remaster.SimpleRemasterManager :=
  {| Remaster.storage_ := storage;
     Remaster.all_txns_ := Remaster.all_txns_ m;
     Remaster.blocked_queue_ := Remaster.blocked_queue_ m |}.

(** Transaction 7 reads key A and declares counter 2 for it, one ahead of
    [storage_AB]; [storage_A2] is the storage once key A has counter 2. *)
Definition ahead : Remaster.SimpleRemasterManager :=
  {| Remaster.storage_ := storage_AB;
     Remaster.all_txns_ :=
       {[ (7%N, 0) := holder_of 7%N ["A"] [("A", mkMeta 0 2)] ]};
     Remaster.blocked_queue_ := ∅ |}.

Definition storage_A2 : Remaster.Storage :=
  {[ "A" := mkMeta 0 2; "B" := mkMeta 0 1 ]}.

(** ** The answers of [TPCCExecution::Execute] *)

(** The abort reasons that [Execute] sets before it has called a procedure. *)
Definition validation_messages : list string :=
  [ "Invalid code";
    "new_order: Invalid number of arguments";
    "new_order: Invalid number of arguments for order line";
    "payment: Invalid number of arguments";
    "order_status: Invalid number of arguments";
    "deliver: Invalid number of arguments";
    "stock_level: Invalid number of arguments";
    "stock_level: Invalid number of items";
    "Unknown procedure name" ].

(** A transaction that names a procedure [Execute] does not know. *)
Definition transfer_txn : Transaction :=
  {| id := 8%N; type := SINGLE_HOME; read_set := [];
     write_set := [("warehouse1", "ytd=100")]; master_metadata := [];
     procedures := [["transfer"; "1"; "2"]];
     remaster := None; status := NOT_STARTED; abort_reason := EmptyString |}.

(** ** module/sequencer.cpp: forwarded transactions and ticks *)

(** What one tick sends: the proposal to the local Paxos and the request
    that carries the batch, with the machines the request is sent to, in the
    order of the sends. *)
Record TickSends : Type := mkTickSends {
  paxos_value : Z;
  same_origin_position : Z;
  batch_data : Sequencer.Batch;
  receivers : list Z;
}.

Section SequencerTick.
Variable config_ : Configuration.
Variables kMaxNumMachines id_bits : Z.
(** [config_->local_partition()] and [config_->num_replicas()] *)
Variable local_partition : Z.
Variable num_replicas : nat.

(** [batch_->Clear()] and the type set again. *)
Definition NewBatch (s : Sequencer.t) : Sequencer.t :=
  {| Sequencer.batch_ := Sequencer.mkBatch 0 SINGLE_HOME [];
     Sequencer.batch_id_counter_ := Sequencer.batch_id_counter_ s;
     Sequencer.outbox := Sequencer.outbox s |}.

(** [Sequencer::HandleCustomSocket] in a build without
    ENABLE_REPLICATION_DELAY; [received] is whether the socket had the
    message of a tick. *)
Definition HandleCustomSocket (received : bool) (s : Sequencer.t)
  : Sequencer.t * option TickSends :=
  if negb received then (s, None)
  else
    match Sequencer.transactions (Sequencer.batch_ s) with
    | [] => (s, None)
    | _ :: _ =>
        let '(s1, batch_id) :=
          Sequencer.NextBatchId config_ kMaxNumMachines id_bits s in
        let sends :=
          {| paxos_value := local_partition;
             same_origin_position :=
               Sequencer.wrap id_bits (Sequencer.batch_id_counter_ s1 - 1);
             batch_data :=
               {| Sequencer.batch_id := batch_id;
                  Sequencer.transaction_type :=
                    Sequencer.transaction_type (Sequencer.batch_ s1);
                  Sequencer.transactions :=
                    Sequencer.transactions (Sequencer.batch_ s1) |};
             receivers :=
               flat_map (λ part,
                           (λ rep, MakeMachineId config_ (Z.of_nat rep) part)
                             <$> seq 0 num_replicas)
                        (seq 0 (num_partitions config_)) |} in
        (NewBatch s1, Some sends)
    end.

(** What reaches the sequencer: a single-home transaction forwarded to it
    ([HandleInternalRequest], case [kForwardTxn]), or a tick. *)
Inductive sequencer_event : Type :=
  | ForwardTxn (txn : Transaction)
  | Tick (received : bool).

Definition sequencer_step (acc : Sequencer.t * list TickSends)
    (ev : sequencer_event) : Sequencer.t * list TickSends :=
  match ev with
  | ForwardTxn txn =>
      (Sequencer.PutSingleHomeTransactionIntoBatch txn acc.1, acc.2)
  | Tick received =>
      let '(s', sends) := HandleCustomSocket received acc.1 in
      (s', acc.2 ++ option_list sends)
  end.

Definition sequencer_run (evs : list sequencer_event) (s : Sequencer.t)
  : Sequencer.t * list TickSends :=
  foldl sequencer_step (s, []) evs.

End SequencerTick.

(** The transactions forwarded by the events, in order. *)
Definition forwarded (evs : list sequencer_event) : list Transaction :=
  omap (λ ev, match ev with ForwardTxn txn => Some txn | Tick _ => None end) evs.

(** ** The server: requests of clients and completed sub-transactions *)

(** [PendingResponse] (module/server.h): whom to answer, and the stream id
    the client matches the answer with. *)
Record PendingResponse : Type := mkPending {
  identity : string;
  stream_id : Z;
}.

(** An answer written to the socket of the clients. *)
Record ClientResponse : Type := mkResponse {
  to_identity : string;
  with_stream_id : Z;
  response_txn : Transaction;
}.

(** [internal::CompletedSubtransaction] *)
Record CompletedSubtransaction : Type := mkSub {
  sub_txn : Transaction;
  partition : nat;
  involved_partitions : list nat;
}.

(** An entry of [completed_txns_] once its first sub-transaction is in: the
    transaction merged so far and the partitions still awaited.  An entry
    whose request is still null exists only inside [ProcessCompletedSubtxn],
    so a missing entry stands for it. *)
Record CompletedTransaction : Type := mkCompleted {
  completed_txn : Transaction;
  awaited_partitions : gset nat;
}.

Record ServerState : Type := mkServerState {
  server : Server.t;
  pending_responses_ : gmap TxnId PendingResponse;
  completed_txns_ : gmap TxnId CompletedTransaction;
  to_clients : list ClientResponse;
  to_forwarder : list Transaction;
}.

Definition set_id (i : TxnId) (txn : Transaction) : Transaction :=
  {| id := i; type := type txn; read_set := read_set txn;
     write_set := write_set txn; master_metadata := master_metadata txn;
     procedures := procedures txn; remaster := remaster txn;
     status := status txn; abort_reason := abort_reason txn |}.

(** [ValidateTransaction] (the free function of the later server);
    [procedure_case() == kRemaster] reads as the remaster field being set. *)
Definition ValidateTransaction (txn : Transaction) : Transaction :=
  let txn := set_status ABORTED txn in
  if decide (length (read_set txn) + length (write_set txn) = 0)%nat then
    set_abort_reason "Txn accesses no key" txn
  else
    match remaster txn with
    | Some _ =>
        if decide (0 < length (read_set txn))%nat then
          set_abort_reason "Remaster txns should not read anything" txn
        else if decide (length (write_set txn) ≠ 1%nat) then
          set_abort_reason "Remaster txns should write to 1 key" txn
        else set_status NOT_STARTED txn
    | None => set_status NOT_STARTED txn
    end.

(** [Server::SendResponseToClient], and [Server::SendAPIResponse] of the
    earlier server, which has the same body. *)
Definition SendResponseToClient (txn_id : TxnId) (res : Transaction)
    (s : ServerState) : ServerState :=
  match pending_responses_ s !! txn_id with
  | None => s
  | Some pr =>
      {| server := server s;
         pending_responses_ := delete txn_id (pending_responses_ s);
         completed_txns_ := completed_txns_ s;
         to_clients :=
           to_clients s ++ [mkResponse (identity pr) (stream_id pr) res];
         to_forwarder := to_forwarder s |}
  end.

Definition SendTxnToClient (txn : Transaction) (s : ServerState) : ServerState :=
  SendResponseToClient (id txn) txn s.

Section ServerRequests.
Variable config_ : Configuration.
Variables kMaxNumMachines id_bits : Z.
(** [MergeTransaction] (common/proto_utils.h) is not among the sources. *)
Variable MergeTransaction : Transaction → Transaction → Transaction.

(** [Server::HandleCustomSocket] on a well-formed message of a client that
    carries a transaction (case [kTxn]); [try_emplace] keeps an entry that is
    already there.  The events recorded in the transaction and its
    coordinating server are not fields of [Transaction] here. *)
Definition HandleTxnRequest (from : PendingResponse) (txn : Transaction)
    (s : ServerState) : ServerState :=
  let '(srv, next_id) :=
    Server.NextTxnId config_ kMaxNumMachines id_bits (server s) in
  let txn_id := Z.to_N next_id in
  let pending :=
    match pending_responses_ s !! txn_id with
    | Some _ => pending_responses_ s
    | None => <[txn_id := from]> (pending_responses_ s)
    end in
  let s1 :=
    {| server := srv; pending_responses_ := pending;
       completed_txns_ := completed_txns_ s; to_clients := to_clients s;
       to_forwarder := to_forwarder s |} in
  let txn := ValidateTransaction (set_id txn_id txn) in
  if decide (status txn = ABORTED) then SendTxnToClient txn s1
  else
    {| server := srv; pending_responses_ := pending;
       completed_txns_ := completed_txns_ s; to_clients := to_clients s;
       to_forwarder := to_forwarder s ++ [txn] |}.

(** [Server::ProcessCompletedSubtxn] of the earlier server
    (module/server.cpp). *)
Definition ProcessCompletedSubtxn (sub : CompletedSubtransaction)
    (s : ServerState) : ServerState :=
  let txn_id := id (sub_txn sub) in
  match pending_responses_ s !! txn_id with
  | None => s
  | Some _ =>
      let sub_txn_origin := partition sub in
      let completed :=
        match completed_txns_ s !! txn_id with
        | None =>
            {| completed_txn := sub_txn sub;
               awaited_partitions :=
                 list_to_set (filter (λ p, p ≠ sub_txn_origin)
                                     (involved_partitions sub)) |}
        | Some c =>
            if decide (sub_txn_origin ∈ awaited_partitions c) then
              {| completed_txn := MergeTransaction (completed_txn c) (sub_txn sub);
                 awaited_partitions := awaited_partitions c ∖ {[sub_txn_origin]} |}
            else c
        end in
      let s1 :=
        {| server := server s; pending_responses_ := pending_responses_ s;
           completed_txns_ := <[txn_id := completed]> (completed_txns_ s);
           to_clients := to_clients s; to_forwarder := to_forwarder s |} in
      if decide (awaited_partitions completed = ∅) then
        let s2 := SendResponseToClient txn_id (completed_txn completed) s1 in
        {| server := server s2; pending_responses_ := pending_responses_ s2;
           completed_txns_ := delete txn_id (completed_txns_ s2);
           to_clients := to_clients s2; to_forwarder := to_forwarder s2 |}
      else s1
  end.

End ServerRequests.

(** A transaction the server accepts: it has a key, and a remaster reads
    nothing and writes one key. *)
Definition acceptable (txn : Transaction) : Prop :=
  carries_keys txn ∧
  (is_Some (remaster txn) → read_set txn = [] ∧ length (write_set txn) = 1%nat).

(** A server that has answered nothing yet, with one client waiting for
    transaction 5. *)
Definition waiting_server : ServerState :=
  {| server := new_server;
     pending_responses_ := {[ 5%N := mkPending "client" 3 ]};
     completed_txns_ := ∅; to_clients := []; to_forwarder := [] |}.

(** A remaster that reads a key. *)
Definition reading_remaster : Transaction :=
  {| id := 0%N; type := UNKNOWN; read_set := [("k", EmptyString)];
     write_set := [("k", EmptyString)]; master_metadata := [];
     procedures := [];
     remaster := Some {| new_master := 1; is_new_master_lock_only := false |};
     status := COMMITTED; abort_reason := EmptyString |}.

(** The sub-transaction of transaction 5 (partitions 0 and 1 involved) that
    partition [p] sends back. *)
Definition sub_of (p : nat) : CompletedSubtransaction :=
  mkSub (MakeTransaction 5%N ["A"] []) p [0; 1]%nat.

(** ** common/transaction_holder.cpp *)

Section Holder.
Variable config_ : Configuration.
(** [config->GetPartitionOfKey] *)
Variable GetPartitionOfKey : Key → nat.

(** [ExtractKeyPartitions] appends to [keys] and adds to
    [partition_participants]; [acc] holds the two. *)
Definition ExtractKeyPartitions (acc : list (Key * LockMode) * gset nat)
    (txn : Transaction) : list (Key * LockMode) * gset nat :=
  let after_reads :=
    foldl (λ (a : list (Key * LockMode) * gset nat) (kv : Key * Value),
             (if KeyIsInLocalPartition config_ kv.1
                 && negb (pb_contains kv.1 (write_set txn))
              then a.1 ++ [(kv.1, READ)] else a.1,
              {[GetPartitionOfKey kv.1]} ∪ a.2))
          acc (read_set txn) in
  foldl (λ (a : list (Key * LockMode) * gset nat) (kv : Key * Value),
           (if KeyIsInLocalPartition config_ kv.1
            then a.1 ++ [(kv.1, WRITE)] else a.1,
            {[GetPartitionOfKey kv.1]} ∪ a.2))
        after_reads (write_set txn).

(** [TransactionHolder(config, txn)]: [SetTransaction] on members that are
    still empty. *)
Definition new_holder (txn : Transaction) : Remaster.TransactionHolder :=
  {| Remaster.GetTransaction := txn;
     Remaster.KeysInPartition := (ExtractKeyPartitions ([], ∅) txn).1 |}.

End Holder.

(** ** module/scheduler_components/remaster_manager.h: the static check *)

(** The static [RemasterManager::CheckCounters] compares the counters of a
    key first and looks at its masters only when the counters are equal.  Its
    [record] is default-constructed and stays so for a key that is not in the
    storage; the type [Record] is declared outside the files at hand, so the
    master of a default record is the parameter [default_master]. *)
Fixpoint static_check_keys (default_master : Z) (storage : Remaster.Storage)
    (txn_master_metadata : pbmap MasterMetadata)
    (keys : list (Key * LockMode)) : outcome Remaster.VerifyMasterResult :=
  match keys with
  | [] => Returns Remaster.VALID
  | (key, _) :: rest =>
      match pb_at key txn_master_metadata with
      | None => Throws "key not found"
      | Some meta =>
          let txn_counter := counter meta in
          let storage_counter := Remaster.storage_counter storage key in
          let record_master :=
            match storage !! key with
            | Some record => master record
            | None => default_master
            end in
          if txn_counter <? storage_counter then Returns Remaster.ABORT
          else if storage_counter <? txn_counter then Returns Remaster.WAITING
          else if decide (master meta = record_master)
               then static_check_keys default_master storage
                                      txn_master_metadata rest
               else Fatal "Masters don't match for same key"
      end
  end.

Definition static_CheckCounters (default_master : Z)
    (txn_holder : Remaster.TransactionHolder) (storage : Remaster.Storage)
  : outcome Remaster.VerifyMasterResult :=
  match master_metadata (Remaster.GetTransaction txn_holder) with
  | [] => Returns Remaster.VALID
  | _ :: _ =>
      static_check_keys default_master storage
        (master_metadata (Remaster.GetTransaction txn_holder))
        (Remaster.KeysInPartition txn_holder)
  end.

(** Keys A and B mastered at region 0 with counter 1.  Transaction 1 reads
    key B and declares counter 2 for it; transaction 2 reads key A with the
    metadata that the storage has. *)
Definition stale_holder : Remaster.TransactionHolder :=
  holder_of 2%N ["A"] [("A", mkMeta 0 1)].

Definition before_remasters : Remaster.SimpleRemasterManager :=
  {| Remaster.storage_ := storage_AB;
     Remaster.all_txns_ :=
       {[ (1%N, 0) := holder_of 1%N ["B"] [("B", mkMeta 0 2)];
          (2%N, 0) := stale_holder ]};
     Remaster.blocked_queue_ := ∅ |}.

(** Both transactions in the queue of region 0. *)
Definition both_queued : Remaster.SimpleRemasterManager :=
  with_queues {[ 0 := [(1%N, 0); (2%N, 0)] ]} before_remasters.

(** The storage once key A has been remastered to region 1, with counter 2,
    and once key B has counter 2 as well. *)
Definition storage_A_remastered : Remaster.Storage :=
  {[ "A" := mkMeta 1 2; "B" := mkMeta 0 1 ]}.

Definition storage_B_remastered : Remaster.Storage :=
  {[ "A" := mkMeta 1 2; "B" := mkMeta 0 2 ]}.
(** * Properties *)

(** ** The asynchronous log *)

Section AsyncLogFacts.
Context {T : Type}.
Implicit Types (l : AsyncLog.t T) (item : T) (position : Z).

Lemma Insert_keeps_next position item l l' :
  AsyncLog.Insert position item l = Returns l' →
  AsyncLog.next_ l' = AsyncLog.next_ l.
Proof.
  unfold AsyncLog.Insert. destruct (position <? AsyncLog.next_ l).
  - by intros [= <-].
  - case_decide; [done|]. by intros [= <-].
Qed.

Lemma Insert_keeps_items position item l l' p x :
  AsyncLog.Insert position item l = Returns l' →
  AsyncLog.log_ l !! p = Some x → AsyncLog.log_ l' !! p = Some x.
Proof.
  unfold AsyncLog.Insert. destruct (position <? AsyncLog.next_ l).
  - by intros [= <-].
  - case_decide as Hfree; [done|]. intros [= <-] Hp. simpl.
    rewrite lookup_insert_ne; [done|].
    intros ->. apply Hfree. by exists x.
Qed.

(** C10.  [Insert] below the cursor changes nothing; at or above the cursor
    it throws on an occupied position, so that a successful [Insert] keeps
    every stored item and the cursor.  [Next] throws when the position at
    the cursor is empty, and otherwise returns the item stored there,
    erases it and advances the cursor by one ([uint32_t] increment: the
    successor, wrapping to 0 after 2^32 - 1). *)
Theorem Insert_Next_contract position item l :
  (position < AsyncLog.next_ l → AsyncLog.Insert position item l = Returns l) ∧
  (AsyncLog.next_ l ≤ position → is_Some (AsyncLog.log_ l !! position) →
     AsyncLog.Insert position item l
     = Throws (AsyncLog.taken_message position)) ∧
  (∀ l', AsyncLog.Insert position item l = Returns l' →
     AsyncLog.next_ l' = AsyncLog.next_ l ∧
     ∀ p x, AsyncLog.log_ l !! p = Some x → AsyncLog.log_ l' !! p = Some x) ∧
  (AsyncLog.log_ l !! AsyncLog.next_ l = None →
     AsyncLog.Next l = Throws "Next item does not exist") ∧
  (∀ x, AsyncLog.log_ l !! AsyncLog.next_ l = Some x →
     ∃ l', AsyncLog.Next l = Returns (x, l') ∧
       AsyncLog.log_ l' = delete (AsyncLog.next_ l) (AsyncLog.log_ l) ∧
       AsyncLog.next_ l' = wrap32 (AsyncLog.next_ l + 1) ∧
       (0 ≤ AsyncLog.next_ l < 2 ^ 32 - 1 →
          AsyncLog.next_ l' = AsyncLog.next_ l + 1)).
Proof.
  repeat split.
  - intros Hlt. unfold AsyncLog.Insert.
    by rewrite (proj2 (Z.ltb_lt _ _) Hlt).
  - intros Hge Hocc. unfold AsyncLog.Insert.
    rewrite (proj2 (Z.ltb_ge _ _) Hge). by rewrite decide_True.
  - by eapply Insert_keeps_next.
  - intros p x. by eapply Insert_keeps_items.
  - intros Hnone. unfold AsyncLog.Next, AsyncLog.HasNext.
    rewrite Hnone. rewrite bool_decide_false; [done|].
    by intros [? ?].
  - intros x Hx. unfold AsyncLog.Next, AsyncLog.HasNext. rewrite Hx.
    rewrite bool_decide_true; [|by eexists].
    eexists. split; [reflexivity|]. split; [reflexivity|].
    split; [reflexivity|].
    simpl. intros Hrange. unfold wrap32. apply Z.mod_small. lia.
Qed.
End AsyncLogFacts.

Lemma Insert_Next_contract_witness :
  let l : AsyncLog.t string := {| AsyncLog.log_ := {[ 1 := "b" ]}; AsyncLog.next_ := 1 |} in
  AsyncLog.Insert 0 "a" l = Returns l ∧
  AsyncLog.Insert 1 "c" l = Throws "Log position 1 has already been taken" ∧
  AsyncLog.Next (AsyncLog.make (T:=string) 0) = Throws "Next item does not exist" ∧
  ∃ l', AsyncLog.Next l = Returns ("b", l') ∧ AsyncLog.next_ l' = 2.
Proof.
  intros l. split; [|split; [|split]].
  - apply (proj1 (Insert_Next_contract 0 "a" l)). simpl. lia.
  - apply (proj1 (proj2 (Insert_Next_contract 1 "c" l))).
    + simpl. lia.
    + by exists "b".
  - apply (proj1 (proj2 (proj2 (proj2
      (Insert_Next_contract 0 "a" (AsyncLog.make 0)))))). reflexivity.
  - destruct (proj2 (proj2 (proj2 (proj2 (Insert_Next_contract 0 "a" l)))) "b")
      as (l' & Hnext & _ & _ & Hstep); [reflexivity|].
    exists l'. split; [exact Hnext|]. apply Hstep. simpl. lia.
Defined.

(** ** Lock-table entries *)

Lemma lock_inv_empty : lock_inv empty_lock.
Proof. split; simpl; try done. Qed.

Lemma list_to_set_snoc (l : list TxnId) (x : TxnId) :
  (list_to_set (l ++ [x]) : gset TxnId) = {[x]} ∪ list_to_set l.
Proof. rewrite list_to_set_app_L. simpl. set_solver. Qed.

Lemma lock_inv_enqueue ls t m :
  lock_inv ls → m ≠ UNLOCKED → mode ls ≠ UNLOCKED →
  lock_inv {| mode := mode ls; holders_ := holders_ ls;
              waiters_ := {[t]} ∪ waiters_ ls;
              waiter_queue_ := waiter_queue_ ls ++ [(t, READ)] |}.
Proof.
  intros [Ht Hw Hu Hl Hwr] _ Hm. split; simpl; try done.
  - apply Forall_app. split; [done | by repeat constructor].
  - by rewrite fmap_app list_to_set_snoc Hw.
Qed.

Lemma AcquireReadLock_inv t ls : lock_inv ls → lock_inv (AcquireReadLock t ls).1.
Proof.
  intros Hinv. unfold AcquireReadLock.
  destruct (mode ls) eqn:Hm.
  - destruct Hinv as [Ht Hw Hu Hl Hwr]. destruct (Hu Hm) as [Hh Hq].
    split; simpl; try done. set_solver.
  - case_decide as Hws.
    + destruct Hinv as [Ht Hw Hu Hl Hwr]. split; simpl; try done. set_solver.
    + pose proof (lock_inv_enqueue ls t READ Hinv) as H.
      rewrite Hm in H. apply H; done.
  - pose proof (lock_inv_enqueue ls t READ Hinv) as H.
    rewrite Hm in H. apply H; done.
Qed.

Lemma AcquireWriteLock_inv t ls : lock_inv ls → lock_inv (AcquireWriteLock t ls).1.
Proof.
  intros Hinv. unfold AcquireWriteLock.
  destruct (mode ls) eqn:Hm.
  - destruct Hinv as [Ht Hw Hu Hl Hwr]. destruct (Hu Hm) as [Hh Hq].
    split; simpl; try done.
    + set_solver.
    + intros _. rewrite Hh. rewrite union_empty_r_L. apply size_singleton.
  - pose proof (lock_inv_enqueue ls t WRITE Hinv) as H.
    rewrite Hm in H. apply H; done.
  - pose proof (lock_inv_enqueue ls t WRITE Hinv) as H.
    rewrite Hm in H. apply H; done.
Qed.

(** With every tag [READ], the promotion loop drains the queue. *)
Lemma promote_reads_all q hs ws :
  Forall (λ p : TxnId * LockMode, p.2 = READ) q →
  promote_reads q hs ws = ([], list_to_set q.*1 ∪ hs, ws ∖ list_to_set q.*1).
Proof.
  revert hs ws. induction q as [|[t m] q IH]; intros hs ws Hq; simpl.
  - simpl. f_equal; [f_equal|]; set_solver.
  - inversion Hq as [|?? Hm Hq']; subst. simpl in Hm. subst m.
    rewrite IH; [|done]. f_equal; [f_equal|]; set_solver.
Qed.

(** [Release] on an entry satisfying the invariant, case by case. *)
Lemma Release_spec t ls :
  lock_inv ls →
  ∃ ls' nh, Release t ls = Some (ls', nh) ∧ lock_inv ls' ∧
    (((t ∉ holders_ ls) ∧ nh = ∅ ∧ mode ls' = mode ls ∧
      holders_ ls' = holders_ ls ∧ waiters_ ls' = waiters_ ls ∖ {[t]})
     ∨ (t ∈ holders_ ls ∧ holders_ ls ∖ {[t]} ≠ ∅ ∧ nh = ∅ ∧
        mode ls' = mode ls ∧
        holders_ ls' = holders_ ls ∖ {[t]} ∧ waiters_ ls' = waiters_ ls)
     ∨ (t ∈ holders_ ls ∧ holders_ ls ∖ {[t]} = ∅ ∧ waiters_ ls = ∅ ∧ nh = ∅ ∧
        ls' = empty_lock)
     ∨ (t ∈ holders_ ls ∧ holders_ ls ∖ {[t]} = ∅ ∧ waiters_ ls ≠ ∅ ∧
        nh = waiters_ ls ∧
        ls' = {| mode := READ; holders_ := waiters_ ls; waiters_ := ∅;
                 waiter_queue_ := [] |})).
Proof.
  intros [Ht Hw Hu Hl Hwr]. unfold Release.
  case_decide as Hin.
  - eexists _, _. split; [done|]. split.
    + split; simpl; try done.
      * apply Forall_forall. intros p [_ Hp]%list_elem_of_filter.
        revert p Hp. by apply Forall_forall.
      * rewrite Hw. apply set_eq. intros x.
        rewrite elem_of_difference !elem_of_list_to_set !list_elem_of_fmap.
        split.
        -- intros [[[y m] [-> Hy]] Hne]. exists (y, m). split; [done|].
           apply list_elem_of_filter. split; [|done]. simpl in *. set_solver.
        -- intros [[y m] [-> Hy]]. apply list_elem_of_filter in Hy as [Hne Hy].
           split; [by exists (y, m)|]. simpl in *. set_solver.
      * intros Hm. destruct (Hu Hm) as [-> ->]. done.
    + left. done.
  - assert (t ∈ holders_ ls) as Hin' by (destruct (decide (t ∈ holders_ ls)); done).
    clear Hin. rename Hin' into Hin. case_decide as Hhs.
    + eexists _, _. split; [done|]. split.
      * split; simpl; try done.
        -- intros Hm. destruct (Hu Hm) as [Hh _]. set_solver.
        -- intros Hm. specialize (Hwr Hm).
           apply size_1_elem_of in Hwr as [x Hx]. exfalso. apply Hhs.
           apply leibniz_equiv in Hx. rewrite Hx in Hin |- *. set_solver.
      * right; left. done.
    + assert (holders_ ls ∖ {[t]} = ∅) as Hhs'
        by (destruct (decide (holders_ ls ∖ {[t]} = ∅)); done).
      clear Hhs. rename Hhs' into Hhs. case_decide as Hws.
      * eexists _, _. split; [done|]. split.
        -- split; simpl; try done. intros _. split; [done|].
           rewrite Hws in Hw. destruct (waiter_queue_ ls) as [|[y m] q]; [done|].
           simpl in Hw. set_solver.
        -- right; right; left. repeat split; try done.
           unfold empty_lock. f_equal; try done.
           rewrite Hws in Hw. destruct (waiter_queue_ ls) as [|[y m] q]; [done|].
           simpl in Hw. set_solver.
      * destruct (waiter_queue_ ls) as [|[front m] q] eqn:Hq.
        { simpl in Hw. done. }
        inversion Ht as [|?? Hm Ht']; subst. simpl in Hm. subst m.
        rewrite promote_reads_all; [|done].
        assert (list_to_set q.*1 ∪ ({[front]} ∪ holders_ ls ∖ {[t]})
                = waiters_ ls) as Hnew.
        { rewrite Hw Hhs. simpl. set_solver. }
        assert (waiters_ ls ∖ {[front]} ∖ list_to_set q.*1 = (∅ : gset TxnId))
          as Hrest.
        { rewrite Hw. simpl. set_solver. }
        rewrite Hnew Hrest.
        eexists _, _. split; [done|]. split.
        -- split; simpl; try done.
        -- right; right; right. done.
Qed.

Lemma lock_call_inv ls op :
  lock_inv ls → ∃ ls', lock_call ls op = Some ls' ∧ lock_inv ls'.
Proof.
  intros Hinv. destruct op as [t|t|t]; simpl.
  - eexists. split; [done|]. by apply AcquireReadLock_inv.
  - eexists. split; [done|]. by apply AcquireWriteLock_inv.
  - destruct (Release_spec t ls Hinv) as (ls' & nh & -> & Hinv' & _).
    by exists ls'.
Qed.

Lemma lock_calls_inv ops ls :
  lock_inv ls → ∃ ls', lock_calls ops ls = Some ls' ∧ lock_inv ls'.
Proof.
  unfold lock_calls. revert ls. induction ops as [|op ops IH]; intros ls Hinv.
  - by exists ls.
  - simpl. destruct (lock_call_inv ls op Hinv) as (ls1 & -> & Hinv1).
    by apply IH.
Qed.

(** Every entry reachable from the fresh one keeps [lock_inv]; no sequence of
    calls reaches the [front()] of an empty queue. *)
Lemma reachable_lock_inv ops :
  ∃ ls, lock_calls ops empty_lock = Some ls ∧ lock_inv ls.
Proof. apply lock_calls_inv, lock_inv_empty. Qed.

(** Since every queued request carries the tag [READ], the entry is in mode
    [WRITE] only while the single transaction that took it unlocked holds it. *)
Lemma reachable_unlocked_write_nonempty ops ls :
  lock_calls ops empty_lock = Some ls →
  (mode ls = UNLOCKED → holders_ ls = ∅ ∧ waiter_queue_ ls = []) ∧
  (mode ls = WRITE → size (holders_ ls) = 1%nat) ∧
  (mode ls ≠ UNLOCKED → holders_ ls ≠ ∅).
Proof.
  intros Hrun. destruct (reachable_lock_inv ops) as (ls' & Hrun' & Hinv).
  rewrite Hrun in Hrun'. injection Hrun' as <-.
  destruct Hinv as [_ _ Hu Hl Hw]. done.
Qed.


(** C1 (read, then write, then read on key A).  On the source the scenario
    does not run as the claim expects: txn1 takes the READ lock at once, txn2
    and txn3 queue in this order, both under the tag READ; ReleaseLocks(txn1)
    then promotes txn2 and txn3 together (the entry goes to mode READ with
    holders 2 and 3) and returns both as ready, and ReleaseLocks(txn2)
    returns nobody. *)
Theorem read_write_read_scenario :
  ∃ lm1 lm2 lm3 lm4 lm5,
    RegisterTxnAndAcquireLocks one_partition txn1 new_lock_manager
      = Some (lm1, true) ∧
    RegisterTxnAndAcquireLocks one_partition txn2 lm1 = Some (lm2, false) ∧
    RegisterTxnAndAcquireLocks one_partition txn3 lm2 = Some (lm3, false) ∧
    holders_ (lock_entry "A" lm3) = {[1%N]} ∧
    waiter_queue_ (lock_entry "A" lm3) = [(2%N, READ); (3%N, READ)] ∧
    ReleaseLocks one_partition txn1 lm3 = Some (lm4, {[2%N; 3%N]}) ∧
    mode (lock_entry "A" lm4) = READ ∧
    holders_ (lock_entry "A" lm4) = {[2%N; 3%N]} ∧
    ReleaseLocks one_partition txn2 lm4 = Some (lm5, ∅).
Proof.
  do 5 eexists.
  repeat (split; [vm_compute; reflexivity|]). vm_compute; reflexivity.
Qed.

(** C3 (entry invariant).  The part on mode READ fails on the source: after
    two write requests and the release of the first, the entry is in mode
    READ and its only holder is transaction 2, which never asked for a READ
    lock. *)
Theorem write_request_holds_under_read_mode :
  let calls := [CallAcquireWrite 1%N; CallAcquireWrite 2%N; CallRelease 1%N] in
  ∃ ls, lock_calls calls empty_lock = Some ls ∧
        mode ls = READ ∧ holders_ ls = {[2%N]} ∧
        CallAcquireRead 2%N ∉ calls.
Proof.
  simpl. eexists. split; [vm_compute; reflexivity|].
  split; [reflexivity|]. split; [reflexivity|].
  rewrite !elem_of_cons. intros [H|[H|[H|H]]]; try discriminate H.
  by apply elem_of_nil in H.
Qed.

(** C7.  A transaction without a key in the local partition is not ready on
    registration: [RegisterTxn] returns false and leaves the manager as it
    is. *)
Theorem RegisterTxn_no_local_key config txn lm :
  (∀ k, k ∈ (read_set txn).*1 ∨ k ∈ (write_set txn).*1 →
        KeyIsInLocalPartition config k = false) →
  RegisterTxn config txn lm = (lm, false).
Proof.
  intros Hnone. unfold RegisterTxn.
  assert (ExtractKeys config txn = []) as ->; [|done].
  unfold ExtractKeys.
  assert (∀ (P : Key * Value → Prop) `{!∀ x, Decision (P x)} (l : pbmap Value),
            (∀ kv, kv ∈ l → ¬ P kv) → filter P l = []) as Hfilter.
  { intros P ? l Hl. destruct (filter P l) as [|x l'] eqn:Hf; [done|].
    assert (x ∈ filter P l) as [HP Hx]%list_elem_of_filter
      by (rewrite Hf; by left).
    by destruct (Hl x Hx). }
  rewrite !Hfilter; [done| |].
  - intros [k v] Hkv. simpl.
    assert (KeyIsInLocalPartition config k = false) as ->; [|by intros []].
    apply Hnone. right. apply list_elem_of_fmap. by exists (k, v).
  - intros [k v] Hkv. simpl.
    assert (KeyIsInLocalPartition config k = false) as ->; [|by intros []].
    apply Hnone. left. apply list_elem_of_fmap. by exists (k, v).
Qed.


Lemma RegisterTxn_no_local_key_witness :
  RegisterTxn other_partition (MakeTransaction 100%N [] ["X"]) new_lock_manager
  = (new_lock_manager, false).
Proof.
  apply (RegisterTxn_no_local_key other_partition
           (MakeTransaction 100%N [] ["X"]) new_lock_manager).
  intros k _. reflexivity.
Defined.

(** ** TPC-C execution *)

(** Once the selected procedure has run, the last statements of [Execute]
    mark the transaction aborted whatever the procedure answered; after a
    success the writes have been applied all the same. *)
Lemma Execute_after_procedure {Storage} ApplyWrites kTotalItems stoi stoll
    new_order payment order_status deliver stock_level
    (txn txn' : Transaction) (storage : Storage) (result : bool) :
  TPCC.dispatch kTotalItems stoi stoll new_order payment order_status deliver
    stock_level txn = Returns (TPCC.Ran result txn') →
  TPCC.Execute Storage ApplyWrites kTotalItems stoi stoll new_order payment
    order_status deliver stock_level txn storage
  = Returns
      (TPCC.aborted "Aborted by a TPC-C txn"
         (if result then set_status COMMITTED txn' else txn'),
       if result then ApplyWrites (set_status COMMITTED txn') storage
       else storage).
Proof.
  intros Hd. unfold TPCC.Execute. rewrite Hd. simpl. by destruct result.
Qed.

(** C2.  A payment whose procedure succeeds: [Execute] applies the write set
    to the storage and then reports the transaction as ABORTED with the
    reason "Aborted by a TPC-C txn", not as COMMITTED. *)
Theorem successful_payment_reported_aborted :
  ∃ txn', Execute_instance payment_txn ∅
            = Returns (txn', {[ "warehouse1" := "ytd=100" ]}) ∧
          status txn' = ABORTED ∧
          abort_reason txn' = "Aborted by a TPC-C txn".
Proof.
  eexists. split; [|split].
  - unfold Execute_instance.
    rewrite (Execute_after_procedure _ _ _ _ _ _ _ _ _ payment_txn payment_txn
               ∅ true); [|reflexivity].
    vm_compute. reflexivity.
  - reflexivity.
  - reflexivity.
Qed.

(** ** Ids of batches and transactions *)

Section Ids.
Variables (kMaxNumMachines id_bits : Z).
Hypothesis bits_nonneg : 0 ≤ id_bits.

Lemma wrap_small z : 0 ≤ z < 2 ^ id_bits → Sequencer.wrap id_bits z = z.
Proof. intros Hz. unfold Sequencer.wrap. by apply Z.mod_small. Qed.

Lemma counter_fits c m n :
  0 ≤ m < kMaxNumMachines → 0 ≤ c →
  (c + Z.of_nat (S n)) * kMaxNumMachines + m < 2 ^ id_bits →
  0 ≤ c + 1 < 2 ^ id_bits.
Proof.
  intros Hm Hc Hmax. split; [lia|].
  assert (c + 1 ≤ (c + Z.of_nat (S n)) * kMaxNumMachines); [|lia].
  transitivity ((c + Z.of_nat (S n)) * 1); [lia|].
  apply Z.mul_le_mono_nonneg_l; lia.
Qed.

Lemma product_fits c m n :
  0 ≤ m < kMaxNumMachines → 0 ≤ c →
  (c + Z.of_nat (S n)) * kMaxNumMachines + m < 2 ^ id_bits →
  0 ≤ (c + 1) * kMaxNumMachines ∧
  (c + 1) * kMaxNumMachines + m < 2 ^ id_bits.
Proof.
  intros Hm Hc Hmax.
  assert ((c + 1) * kMaxNumMachines ≤ (c + Z.of_nat (S n)) * kMaxNumMachines).
  { apply Z.mul_le_mono_nonneg_r; lia. }
  split; [apply Z.mul_nonneg_nonneg; lia | lia].
Qed.

(** Without overflow the i-th id after counter [c] is
    [(c + i + 1) * kMaxNumMachines + machine id]. *)
Lemma batch_ids_lookup config n s i :
  0 ≤ local_machine_id config < kMaxNumMachines →
  0 ≤ Sequencer.batch_id_counter_ s →
  (Sequencer.batch_id_counter_ s + Z.of_nat n) * kMaxNumMachines
    + local_machine_id config < 2 ^ id_bits →
  (i < n)%nat →
  batch_ids config kMaxNumMachines id_bits n s !! i
  = Some ((Sequencer.batch_id_counter_ s + Z.of_nat i + 1) * kMaxNumMachines
          + local_machine_id config).
Proof.
  revert s i. induction n as [|n IH]; intros s i Hm Hc Hmax Hi; [lia|].
  simpl.
  assert (Sequencer.wrap id_bits (Sequencer.batch_id_counter_ s + 1)
          = Sequencer.batch_id_counter_ s + 1) as Hw1.
  { apply wrap_small. apply (counter_fits _ (local_machine_id config) n); lia. }
  assert (0 ≤ (Sequencer.batch_id_counter_ s + 1) * kMaxNumMachines ∧
          (Sequencer.batch_id_counter_ s + 1) * kMaxNumMachines + local_machine_id config
          < 2 ^ id_bits) as [Hlo Hhi].
  { apply (product_fits _ _ n); lia. }
  destruct i as [|i]; simpl.
  - f_equal. rewrite Hw1. rewrite (wrap_small (_ * _)); [|lia].
    rewrite wrap_small; lia.
  - rewrite IH; simpl; rewrite ?Hw1; try lia.
    f_equal. lia.
Qed.

Lemma txn_ids_lookup config n s i :
  0 ≤ local_machine_id config < kMaxNumMachines →
  0 ≤ Server.txn_id_counter_ s →
  (Server.txn_id_counter_ s + Z.of_nat n) * kMaxNumMachines
    + local_machine_id config < 2 ^ id_bits →
  (i < n)%nat →
  txn_ids config kMaxNumMachines id_bits n s !! i
  = Some ((Server.txn_id_counter_ s + Z.of_nat i + 1) * kMaxNumMachines
          + local_machine_id config).
Proof.
  revert s i. induction n as [|n IH]; intros s i Hm Hc Hmax Hi; [lia|].
  simpl.
  assert (Sequencer.wrap id_bits (Server.txn_id_counter_ s + 1)
          = Server.txn_id_counter_ s + 1) as Hw1.
  { apply wrap_small. apply (counter_fits _ (local_machine_id config) n); lia. }
  assert (0 ≤ (Server.txn_id_counter_ s + 1) * kMaxNumMachines ∧
          (Server.txn_id_counter_ s + 1) * kMaxNumMachines + local_machine_id config
          < 2 ^ id_bits) as [Hlo Hhi].
  { apply (product_fits _ _ n); lia. }
  destruct i as [|i]; simpl.
  - f_equal. rewrite Hw1. rewrite (wrap_small (_ * _)); [|lia].
    rewrite wrap_small; lia.
  - rewrite IH; simpl; rewrite ?Hw1; try lia.
    f_equal. lia.
Qed.

Lemma length_batch_ids config n s :
  length (batch_ids config kMaxNumMachines id_bits n s) = n.
Proof.
  revert s. induction n as [|n IH]; intros s; [done|]. simpl. by rewrite IH.
Qed.

Lemma length_txn_ids config n s :
  length (txn_ids config kMaxNumMachines id_bits n s) = n.
Proof.
  revert s. induction n as [|n IH]; intros s; [done|]. simpl. by rewrite IH.
Qed.

(** Ids of the shape [c * kMaxNumMachines + m] with [0 <= m < kMaxNumMachines]
    grow with [c] and tell the machines apart. *)
Lemma id_shape_lt c1 c2 m :
  0 ≤ m < kMaxNumMachines → c1 < c2 →
  c1 * kMaxNumMachines + m < c2 * kMaxNumMachines + m.
Proof. intros Hm Hc. nia. Qed.

Lemma id_shape_ne c1 c2 m1 m2 :
  0 ≤ m1 < kMaxNumMachines → 0 ≤ m2 < kMaxNumMachines → m1 ≠ m2 →
  c1 * kMaxNumMachines + m1 ≠ c2 * kMaxNumMachines + m2.
Proof.
  intros Hm1 Hm2 Hne Heq. apply Hne.
  assert ((c1 * kMaxNumMachines + m1) mod kMaxNumMachines = m1) as H1.
  { rewrite Z.add_comm Z.mod_add; [|lia]. by apply Z.mod_small. }
  assert ((c2 * kMaxNumMachines + m2) mod kMaxNumMachines = m2) as H2.
  { rewrite Z.add_comm Z.mod_add; [|lia]. by apply Z.mod_small. }
  rewrite -H1 -H2. by rewrite Heq.
Qed.

End Ids.

(** C9.  [n1] calls on a machine with id [m1] and [n2] calls on a machine with
    id [m2], both ids below [kMaxNumMachines] and no id overflowing: the i-th
    batch id and the i-th transaction id of a machine are
    [(i + 1) * kMaxNumMachines + m]; the ids of one machine increase strictly
    from call to call; and when [m1] and [m2] differ, no id of the first
    machine is an id of the second. *)
Theorem ids_increase_and_differ kMaxNumMachines id_bits config1 config2 n1 n2 :
  0 ≤ id_bits →
  0 ≤ local_machine_id config1 < kMaxNumMachines →
  0 ≤ local_machine_id config2 < kMaxNumMachines →
  Z.of_nat n1 * kMaxNumMachines + local_machine_id config1 < 2 ^ id_bits →
  Z.of_nat n2 * kMaxNumMachines + local_machine_id config2 < 2 ^ id_bits →
  let b1 := batch_ids config1 kMaxNumMachines id_bits n1 new_sequencer in
  let b2 := batch_ids config2 kMaxNumMachines id_bits n2 new_sequencer in
  let t1 := txn_ids config1 kMaxNumMachines id_bits n1 new_server in
  let t2 := txn_ids config2 kMaxNumMachines id_bits n2 new_server in
  (∀ i, (i < n1)%nat →
     b1 !! i = Some ((Z.of_nat i + 1) * kMaxNumMachines + local_machine_id config1) ∧
     t1 !! i = Some ((Z.of_nat i + 1) * kMaxNumMachines + local_machine_id config1)) ∧
  (∀ i j a b, (i < j)%nat → b1 !! i = Some a → b1 !! j = Some b → a < b) ∧
  (∀ i j a b, (i < j)%nat → t1 !! i = Some a → t1 !! j = Some b → a < b) ∧
  (local_machine_id config1 ≠ local_machine_id config2 →
     (∀ a b, a ∈ b1 → b ∈ b2 → a ≠ b) ∧ (∀ a b, a ∈ t1 → b ∈ t2 → a ≠ b)).
Proof.
  intros Hbits Hm1 Hm2 Hmax1 Hmax2 b1 b2 t1 t2.
  assert (∀ i, (i < n1)%nat →
     b1 !! i = Some ((Z.of_nat i + 1) * kMaxNumMachines + local_machine_id config1))
    as Hb1.
  { intros i Hi. unfold b1. rewrite batch_ids_lookup; simpl; try done. }
  assert (∀ i, (i < n2)%nat →
     b2 !! i = Some ((Z.of_nat i + 1) * kMaxNumMachines + local_machine_id config2))
    as Hb2.
  { intros i Hi. unfold b2. rewrite batch_ids_lookup; simpl; try done. }
  assert (∀ i, (i < n1)%nat →
     t1 !! i = Some ((Z.of_nat i + 1) * kMaxNumMachines + local_machine_id config1))
    as Ht1.
  { intros i Hi. unfold t1. rewrite txn_ids_lookup; simpl; try done. }
  assert (∀ i, (i < n2)%nat →
     t2 !! i = Some ((Z.of_nat i + 1) * kMaxNumMachines + local_machine_id config2))
    as Ht2.
  { intros i Hi. unfold t2. rewrite txn_ids_lookup; simpl; try done. }
  assert (length b1 = n1 ∧ length b2 = n2 ∧ length t1 = n1 ∧ length t2 = n2)
    as (Lb1 & Lb2 & Lt1 & Lt2).
  { unfold b1, b2, t1, t2. by rewrite !length_batch_ids !length_txn_ids. }
  split; [|split; [|split]].
  - intros i Hi. split; [by apply Hb1 | by apply Ht1].
  - intros i j a b Hij Ha Hb.
    pose proof (lookup_lt_Some _ _ _ Hb) as Hj. rewrite Lb1 in Hj.
    rewrite Hb1 in Ha; [|lia]. rewrite Hb1 in Hb; [|lia].
    injection Ha as <-. injection Hb as <-.
    apply id_shape_lt; lia.
  - intros i j a b Hij Ha Hb.
    pose proof (lookup_lt_Some _ _ _ Hb) as Hj. rewrite Lt1 in Hj.
    rewrite Ht1 in Ha; [|lia]. rewrite Ht1 in Hb; [|lia].
    injection Ha as <-. injection Hb as <-.
    apply id_shape_lt; lia.
  - intros Hne. split.
    + intros a b [i Ha]%list_elem_of_lookup [j Hb]%list_elem_of_lookup.
      pose proof (lookup_lt_Some _ _ _ Ha) as Hi. rewrite Lb1 in Hi.
      pose proof (lookup_lt_Some _ _ _ Hb) as Hj. rewrite Lb2 in Hj.
      rewrite Hb1 in Ha; [|lia]. rewrite Hb2 in Hb; [|lia].
      injection Ha as <-. injection Hb as <-.
      by apply id_shape_ne.
    + intros a b [i Ha]%list_elem_of_lookup [j Hb]%list_elem_of_lookup.
      pose proof (lookup_lt_Some _ _ _ Ha) as Hi. rewrite Lt1 in Hi.
      pose proof (lookup_lt_Some _ _ _ Hb) as Hj. rewrite Lt2 in Hj.
      rewrite Ht1 in Ha; [|lia]. rewrite Ht2 in Hb; [|lia].
      injection Ha as <-. injection Hb as <-.
      by apply id_shape_ne.
Qed.

Lemma ids_increase_and_differ_witness :
  batch_ids (machine 3) 1000 32 2 new_sequencer !! 1%nat = Some 2003 ∧
  txn_ids (machine 3) 1000 32 2 new_server !! 1%nat = Some 2003.
Proof.
  apply (ids_increase_and_differ 1000 32 (machine 3) (machine 5) 2 3);
    simpl; lia.
Defined.

(** ** Multi-home batches in the sequencer *)

Lemma pb_contains_at {V} (k : Key) (m : pbmap V) :
  pb_contains k m = true ↔ is_Some (pb_at k m).
Proof.
  unfold pb_contains. rewrite bool_decide_eq_true.
  induction m as [|[k' v] m IH]; simpl.
  - split; [by intros ?%elem_of_nil | by intros [? ?]].
  - rewrite elem_of_cons. case_decide as Hk.
    + split; [by eexists | by left].
    + rewrite -IH. split; [intros [?|?]; [congruence|done] | by right].
Qed.

Lemma pb_at_app {V} (k : Key) (m1 m2 : pbmap V) :
  pb_at k (m1 ++ m2)
  = match pb_at k m1 with Some v => Some v | None => pb_at k m2 end.
Proof.
  induction m1 as [|[k' v] m1 IH]; simpl; [done|]. by case_decide.
Qed.

Lemma pb_at_insert {V} (k : Key) (kv : Key * V) (m : pbmap V) :
  pb_at k (pb_insert kv m)
  = match pb_at k m with
    | Some v => Some v
    | None => if decide (kv.1 = k) then Some kv.2 else None
    end.
Proof.
  unfold pb_insert. destruct (pb_contains kv.1 m) eqn:Hc.
  - apply pb_contains_at in Hc as [v Hv].
    destruct (pb_at k m) eqn:Hk; [done|].
    case_decide as Heq; [|done]. congruence.
  - rewrite pb_at_app. destruct (pb_at k m); [done|].
    destruct kv as [k' v]. simpl. by case_decide.
Qed.

Lemma pb_at_elem {V} (k : Key) (v : V) (m : pbmap V) :
  pb_at k m = Some v → (k, v) ∈ m.
Proof.
  induction m as [|[k' v'] m IH]; simpl; [done|].
  case_decide as Hk.
  - intros [= <-]. subst. by left.
  - intros H. right. by apply IH.
Qed.

Lemma pb_insert_fresh {V} (kv : Key * V) (m : pbmap V) :
  kv.1 ∉ m.*1 → pb_insert kv m = m ++ [kv].
Proof.
  intros Hfresh. unfold pb_insert, pb_contains.
  by rewrite bool_decide_false.
Qed.

Section MultiHome.
Variable config_ : Configuration.
Variables (kMaxNumMachines id_bits : Z) (counterless : bool).

#[local] Abbreviation local metadata := (mastered_locally config_ metadata).

Lemma copy_local_spec metadata set into meta :
  (∀ kv, kv ∈ set → is_Some (pb_at kv.1 metadata)) →
  NoDup (into.*1 ++ set.*1) →
  ∃ meta',
    Sequencer.copy_local config_ metadata set into meta
    = Returns (into ++ filter (local metadata) set, meta') ∧
    ∀ k, pb_at k meta'
         = match pb_at k meta with
           | Some m => Some m
           | None => if decide (k ∈ (filter (local metadata) set).*1)
                     then pb_at k metadata else None
           end.
Proof.
  revert into meta. induction set as [|kv rest IH]; intros into meta Hcov Hnd.
  - exists meta. simpl. rewrite app_nil_r. split; [done|].
    intros k. by destruct (pb_at k meta).
  - simpl. destruct (Hcov kv) as [m Hm]; [by left|]. rewrite Hm.
    assert (∀ kv', kv' ∈ rest → is_Some (pb_at kv'.1 metadata)) as Hcov'.
    { intros kv' Hkv'. apply Hcov. by right. }
    simpl in Hnd.
    case_decide as Hmaster.
    + assert (local metadata kv) as Hloc.
      { unfold mastered_locally. by rewrite Hm /= Hmaster. }
      rewrite filter_cons_True; [|done].
      rewrite pb_insert_fresh.
      2:{ apply NoDup_app in Hnd as (_ & Hdisj & _). intros Hin.
          apply (Hdisj _ Hin). by left. }
      destruct (IH (into ++ [kv]) (pb_insert (kv.1, m) meta) Hcov')
        as (meta' & Hrun & Hmeta).
      { rewrite fmap_app /= -app_assoc /=. done. }
      exists meta'. rewrite Hrun -app_assoc /=. split; [done|].
      intros k. rewrite Hmeta pb_at_insert /=.
      destruct (pb_at k meta) as [x|]; [done|].
      destruct (decide (kv.1 = k)) as [<-|Hne].
      * rewrite decide_True; [done | by left].
      * destruct (decide (k ∈ (filter (local metadata) rest).*1)) as [Hin|Hin].
        -- rewrite decide_True; [done | by right].
        -- rewrite decide_False; [done|].
           intros [?|?]%elem_of_cons; [congruence | done].
    + assert (¬ local metadata kv) as Hloc.
      { unfold mastered_locally. rewrite Hm /=. congruence. }
      rewrite filter_cons_False; [|done].
      apply IH; [done|].
      apply NoDup_app in Hnd as (Hn1 & Hdisj & Hn2).
      apply NoDup_app. split; [done|]. split.
      * intros x Hx Hx'. apply (Hdisj x Hx). by right.
      * by apply NoDup_cons in Hn2 as [_ ?].
Qed.

Lemma make_lock_only_spec txn :
  covered txn →
  ∃ lock_only,
    Sequencer.make_lock_only config_ counterless txn = Returns lock_only ∧
    built_for config_ counterless txn lock_only.
Proof.
  intros [Hr Hw Hnr Hnw]. unfold Sequencer.make_lock_only.
  destruct (copy_local_spec (master_metadata txn) (read_set txn) [] [] Hr)
    as (meta_r & -> & Hmr); [done|].
  destruct (copy_local_spec (master_metadata txn) (write_set txn) [] meta_r Hw)
    as (meta_w & Hrun & Hmw); [done|].
  simpl. rewrite Hrun. simpl.
  assert (∀ key meta,
    pb_at key meta_w = Some meta ↔
    (key ∈ (filter (local (master_metadata txn)) (read_set txn)).*1
     ∨ key ∈ (filter (local (master_metadata txn)) (write_set txn)).*1)
    ∧ pb_at key (master_metadata txn) = Some meta) as Hmeta.
  { intros key meta. rewrite Hmw Hmr. simpl.
    case_decide as Hin.
    - assert (is_Some (pb_at key (master_metadata txn))) as [x Hx].
      { apply list_elem_of_fmap in Hin as (kv & -> & Hkv).
        apply list_elem_of_filter in Hkv as [_ Hkv]. by apply Hr. }
      rewrite Hx.
      split; [intros [= <-]; split; [by left|done] | intros [_ ?]; congruence].
    - case_decide as Hin'.
      + split; [intros ?; split; [by right|done] | by intros [_ ?]].
      + split; [done | intros [[?|?] _]; done]. }
  assert (∀ rm_field,
    lock_only_of config_ txn
      {| id := id txn; type := LOCK_ONLY;
         read_set := filter (local (master_metadata txn)) (read_set txn);
         write_set := filter (local (master_metadata txn)) (write_set txn);
         master_metadata := meta_w; procedures := [];
         remaster := rm_field; status := NOT_STARTED;
         abort_reason := EmptyString |}) as Hlo.
  { intros rm_field. split; simpl; done. }
  destruct counterless eqn:Hflag.
  - destruct (remaster txn) as [rm|] eqn:Hrm.
    + case_decide as Hnew.
      * eexists. split; [done|]. simpl. split.
        -- intros _. exists rm. by split.
        -- intros Hnot. destruct Hnot. split; [done|]. by exists rm.
      * eexists. split; [done|]. simpl. split; [|intros _; apply Hlo].
        intros [_ (rm' & Hrm' & Hlocal)]. congruence.
    + eexists. split; [done|]. simpl. split; [|intros _; apply Hlo].
      intros [_ (rm' & Hrm' & _)]. congruence.
  - eexists. split; [done|]. simpl. split; [|intros _; apply Hlo].
    by intros [? _].
Qed.

Lemma put_lock_only_spec s txn :
  covered txn →
  ∃ lock_only,
    built_for config_ counterless txn lock_only ∧
    Sequencer.put_lock_only config_ counterless s txn
    = Returns (if decide (carries_keys lock_only)
               then Sequencer.PutSingleHomeTransactionIntoBatch lock_only s
               else s).
Proof.
  intros Hcov.
  destruct (make_lock_only_spec txn Hcov) as (lo & Hrun & Hlo).
  exists lo. split; [done|]. unfold Sequencer.put_lock_only. rewrite Hrun /=.
  case_decide as Hc; unfold carries_keys in Hc.
  - destruct (read_set lo), (write_set lo); try done. by destruct Hc.
  - destruct (read_set lo), (write_set lo); try done;
      exfalso; apply Hc; [by right | by left | by left].
Qed.

Lemma put_lock_only_fold txns s :
  Forall covered txns →
  ∃ lock_onlys,
    Forall2 (built_for config_ counterless) txns lock_onlys ∧
    foldl (λ (acc : outcome Sequencer.t) txn,
             outcome_bind acc
               (λ a, Sequencer.put_lock_only config_ counterless a txn))
          (Returns s) txns
    = Returns
        {| Sequencer.batch_ :=
             {| Sequencer.batch_id := Sequencer.batch_id (Sequencer.batch_ s);
                Sequencer.transaction_type :=
                  Sequencer.transaction_type (Sequencer.batch_ s);
                Sequencer.transactions :=
                  Sequencer.transactions (Sequencer.batch_ s)
                  ++ filter carries_keys lock_onlys |};
           Sequencer.batch_id_counter_ := Sequencer.batch_id_counter_ s;
           Sequencer.outbox := Sequencer.outbox s |}.
Proof.
  revert s. induction txns as [|txn txns IH]; intros s Hcov.
  - exists []. split; [constructor|]. simpl. rewrite app_nil_r.
    by destruct s as [[? ? ?] ? ?].
  - apply Forall_cons in Hcov as [Hc Hcov].
    destruct (put_lock_only_spec s txn Hc) as (lo & Hlo & Hput).
    simpl. rewrite Hput.
    destruct (IH (if decide (carries_keys lo)
                  then Sequencer.PutSingleHomeTransactionIntoBatch lo s else s)
                 Hcov) as (los & Hlos & Hrun).
    exists (lo :: los). split; [by constructor|]. rewrite Hrun.
    case_decide as Hcarry.
    + rewrite filter_cons_True; [|done]. simpl. by rewrite -app_assoc.
    + by rewrite filter_cons_False.
Qed.

End MultiHome.

(** C8, as the source has it.  For a batch of multi-home transactions whose
    metadata covers their keys, in either build: every transaction gets a
    lock-only transaction with the parent's id and the type LOCK_ONLY.  For
    a remaster whose new master is the local region, in a build with
    REMASTER_PROTOCOL_COUNTERLESS, it is a copy of the whole parent with the
    flag [is_new_master_lock_only] set; for every other transaction, whatever
    else the batch holds, it has exactly the read-set and write-set entries
    mastered in the local region and the metadata of exactly their keys.  The
    lock-only transactions with a key are appended, in order, to the current
    single-home batch; and the multi-home batch is then sent to the
    interleaver of every partition of the local region. *)
Theorem ProcessMultiHomeBatch_lock_onlys config counterless batch s :
  Sequencer.transaction_type batch = MULTI_HOME →
  Forall covered (Sequencer.transactions batch) →
  ∃ lock_onlys,
    Forall2 (built_for config counterless)
            (Sequencer.transactions batch) lock_onlys ∧
    Sequencer.ProcessMultiHomeBatch config counterless batch s
    = Returns
        {| Sequencer.batch_ :=
             {| Sequencer.batch_id := Sequencer.batch_id (Sequencer.batch_ s);
                Sequencer.transaction_type :=
                  Sequencer.transaction_type (Sequencer.batch_ s);
                Sequencer.transactions :=
                  Sequencer.transactions (Sequencer.batch_ s)
                  ++ filter carries_keys lock_onlys |};
           Sequencer.batch_id_counter_ := Sequencer.batch_id_counter_ s;
           Sequencer.outbox := Sequencer.outbox s ++ replication config batch |}.
Proof.
  intros Htype Hcov.
  destruct (put_lock_only_fold config counterless _ s Hcov)
    as (los & Hlos & Hrun).
  exists los. split; [done|].
  unfold Sequencer.ProcessMultiHomeBatch.
  rewrite decide_False; [|by intros []].
  rewrite Hrun. reflexivity.
Qed.

Lemma covered_multi_home_txn : covered multi_home_txn.
Proof.
  split; simpl.
  - intros kv [->|[->|?%elem_of_nil]%elem_of_cons]%elem_of_cons;
      [by eexists | by eexists | done].
  - by intros kv ?%elem_of_nil.
  - apply NoDup_cons. split; [|apply NoDup_singleton].
    by intros [=]%list_elem_of_singleton.
  - constructor.
Qed.

Lemma covered_remaster_txn : covered remaster_txn.
Proof.
  split; simpl.
  - by intros kv ?%elem_of_nil.
  - intros kv ->%list_elem_of_singleton. by eexists.
  - constructor.
  - apply NoDup_singleton.
Qed.

Lemma ProcessMultiHomeBatch_lock_onlys_witness :
  ∃ lock_onlys,
    Forall2 (built_for region1 true) [remaster_txn; multi_home_txn] lock_onlys ∧
    Sequencer.ProcessMultiHomeBatch region1 true
      (Sequencer.mkBatch 5 MULTI_HOME [remaster_txn; multi_home_txn])
      new_sequencer
    = Returns
        {| Sequencer.batch_ :=
             Sequencer.mkBatch 0 SINGLE_HOME
               ([] ++ filter carries_keys lock_onlys);
           Sequencer.batch_id_counter_ := 0;
           Sequencer.outbox :=
             [] ++ replication region1
                     (Sequencer.mkBatch 5 MULTI_HOME
                        [remaster_txn; multi_home_txn]) |}.
Proof.
  apply (ProcessMultiHomeBatch_lock_onlys region1 true
           (Sequencer.mkBatch 5 MULTI_HOME [remaster_txn; multi_home_txn])
           new_sequencer).
  - reflexivity.
  - constructor; [apply covered_remaster_txn|].
    constructor; [apply covered_multi_home_txn | constructor].
Defined.

(** C8 as stated fails in a build with REMASTER_PROTOCOL_COUNTERLESS: for a
    remaster of key k from region 0 to the local region 1, the lock-only
    transaction put into the single-home batch is a copy of the parent; its
    write set holds k, whose master is not the local region. *)
Lemma remaster_lock_only_is_whole_parent :
  ∃ lock_only s',
    Sequencer.ProcessMultiHomeBatch region1 true
      (Sequencer.mkBatch 5 MULTI_HOME [remaster_txn]) new_sequencer
    = Returns s' ∧
    Sequencer.transactions (Sequencer.batch_ s') = [lock_only] ∧
    write_set lock_only = [("k", EmptyString)] ∧
    filter (mastered_locally region1 (master_metadata remaster_txn))
           (write_set remaster_txn) = [] ∧
    ¬ lock_only_of region1 remaster_txn lock_only.
Proof.
  eexists _, _. split; [vm_compute; reflexivity|].
  split; [reflexivity|]. split; [reflexivity|].
  assert (filter (mastered_locally region1 (master_metadata remaster_txn))
                 (write_set remaster_txn) = []) as Hnone.
  { by vm_compute. }
  split; [exact Hnone|].
  intros [_ _ _ Hws _]. rewrite Hnone in Hws. discriminate Hws.
Qed.

(** ** The remaster manager *)

Lemma check_keys_agree storage meta pre rest :
  Forall (key_agrees storage meta) pre.*1 →
  Remaster.check_keys storage meta (pre ++ rest)
  = Remaster.check_keys storage meta rest.
Proof.
  induction pre as [|[key lk] pre IH]; [done|].
  intros [Hkey Hpre]%Forall_cons. simpl in *.
  destruct Hkey as (mt & Hmt & Hcounter & Hmaster). rewrite Hmt.
  assert (match storage !! key with
          | Some record =>
              if decide (master mt = master record) then Returns ()
              else Fatal "Masters don't match for same key"
          | None => Returns ()
          end = Returns ()) as ->.
  { destruct (storage !! key) as [record|]; [|done].
    rewrite decide_True; [done|]. by apply Hmaster. }
  simpl. rewrite Hcounter !Z.ltb_irrefl. by apply IH.
Qed.

Lemma check_keys_all_agree storage meta keys :
  Forall (key_agrees storage meta) keys.*1 →
  Remaster.check_keys storage meta keys = Returns Remaster.VALID.
Proof.
  intros H. rewrite -(app_nil_r keys). by rewrite check_keys_agree.
Qed.

(** C4, as the source has it.  For a transaction with a key in the partition
    and with metadata, whose home queue is the queue of the master of its
    first metadata entry.  If that queue is not empty the transaction is
    appended to it and WAITING is returned whatever its counters.  If it is
    empty the first key, in the order of the keys in the partition, that does
    not agree with the storage decides, the metadata having an entry for it
    and for the keys before it.  When its declared master is the stored one
    (or the key is absent from the storage, where its counter reads 0): ABORT
    when its counter is smaller than the stored one, WAITING (and the
    transaction becomes the only entry of its home queue) when it is greater.
    When its counter equals the stored one and its declared master is not the
    stored one: a fatal error.  VALID when every key agrees.  Nothing is said
    of a key whose counter and master both differ from the stored ones. *)
Theorem VerifyMaster_first_difference m txn_replica_id holder first others :
  Remaster.all_txns_ m !! txn_replica_id = Some holder →
  Remaster.KeysInPartition holder ≠ [] →
  master_metadata (Remaster.GetTransaction holder) = first :: others →
  let home := master first.2 in
  let meta := master_metadata (Remaster.GetTransaction holder) in
  let storage := Remaster.storage_ m in
  (Remaster.queue_of home m ≠ [] →
     Remaster.VerifyMaster txn_replica_id m
     = Returns (Remaster.set_queue home
                  (Remaster.queue_of home m ++ [txn_replica_id]) m,
                Remaster.WAITING)) ∧
  (Remaster.queue_of home m = [] →
     (Forall (key_agrees storage meta) (Remaster.KeysInPartition holder).*1 →
        Remaster.VerifyMaster txn_replica_id m = Returns (m, Remaster.VALID)) ∧
     (∀ pre key lk post mt,
        Remaster.KeysInPartition holder = pre ++ (key, lk) :: post →
        Forall (key_agrees storage meta) pre.*1 →
        pb_at key meta = Some mt →
        (∀ record, storage !! key = Some record → master mt = master record) →
        (counter mt < Remaster.storage_counter storage key →
           Remaster.VerifyMaster txn_replica_id m = Returns (m, Remaster.ABORT)) ∧
        (Remaster.storage_counter storage key < counter mt →
           Remaster.VerifyMaster txn_replica_id m
           = Returns (Remaster.set_queue home [txn_replica_id] m,
                      Remaster.WAITING))) ∧
     (∀ pre key lk post mt record,
        Remaster.KeysInPartition holder = pre ++ (key, lk) :: post →
        Forall (key_agrees storage meta) pre.*1 →
        pb_at key meta = Some mt →
        storage !! key = Some record →
        counter mt = counter record → master mt ≠ master record →
        Remaster.VerifyMaster txn_replica_id m
        = Fatal "Masters don't match for same key")).
Proof.
  intros Hat Hkeys Hmeta home meta storage.
  assert (∀ q, Remaster.queue_of home m = q →
    Remaster.VerifyMaster txn_replica_id m
    = match q with
      | [] =>
          outcome_bind (Remaster.CheckCounters storage holder) (λ result,
            if decide (result = Remaster.WAITING) then
              Returns (Remaster.set_queue home [txn_replica_id] m,
                       Remaster.WAITING)
            else Returns (m, result))
      | _ :: _ =>
          Returns (Remaster.set_queue home (q ++ [txn_replica_id]) m,
                   Remaster.WAITING)
      end) as Hunfold.
  { intros q Hq. unfold Remaster.VerifyMaster, Remaster.txn_at.
    rewrite Hat /=.
    destruct (Remaster.KeysInPartition holder) as [|k0 ks] eqn:Hk; [done|].
    rewrite Hmeta. destruct first as [k1 m1]. subst home. simpl in *.
    rewrite Hq. by destruct q. }
  split.
  - intros Hq. rewrite (Hunfold _ eq_refl).
    by destruct (Remaster.queue_of home m).
  - intros Hq. rewrite (Hunfold _ Hq). unfold Remaster.CheckCounters.
    fold meta. split; [|split].
    + intros Hall. by rewrite check_keys_all_agree.
    + intros pre key lk post mt -> Hpre Hmt Hmaster.
      rewrite check_keys_agree; [|done]. simpl. rewrite Hmt.
      assert (match storage !! key with
              | Some record =>
                  if decide (master mt = master record) then Returns ()
                  else Fatal "Masters don't match for same key"
              | None => Returns ()
              end = Returns ()) as ->.
      { destruct (storage !! key) as [record|]; [|done].
        rewrite decide_True; [done|]. by apply Hmaster. }
      simpl. split.
      * intros Hlt. by rewrite (proj2 (Z.ltb_lt _ _) Hlt).
      * intros Hgt. rewrite (proj2 (Z.ltb_ge _ _)); [|lia].
        by rewrite (proj2 (Z.ltb_lt _ _) Hgt).
    + intros pre key lk post mt record -> Hpre Hmt Hrec _ Hne.
      rewrite check_keys_agree; [|done]. simpl. rewrite Hmt Hrec.
      by rewrite decide_False.
Qed.

Lemma VerifyMaster_first_difference_witness :
  Remaster.VerifyMaster (2%N, 0) behind = Returns (behind, Remaster.ABORT).
Proof.
  pose proof (VerifyMaster_first_difference behind (2%N, 0)
                (holder_of 2%N ["A"] [("A", mkMeta 0 0)]) ("A", mkMeta 0 0) []
                eq_refl ltac:(discriminate) eq_refl) as [_ Hempty].
  destruct (Hempty eq_refl) as (_ & Hfirst & _).
  apply (Hfirst [] "A" READ [] (mkMeta 0 0) eq_refl).
  - constructor.
  - reflexivity.
  - intros record Hrec. vm_compute in Hrec. by injection Hrec as <-.
  - reflexivity.
Defined.

(** C4 as stated fails when a key ahead of the storage precedes a key behind
    it: the home queue is empty and key B has counter 0 against the stored 1,
    yet [VerifyMaster] answers WAITING, for key A, and queues the
    transaction. *)
Lemma VerifyMaster_waits_with_a_key_behind :
  Remaster.queue_of 0 ahead_then_behind = [] ∧
  (∃ meta, pb_at "B" [("A", mkMeta 0 2); ("B", mkMeta 0 0)] = Some meta ∧
           counter meta < Remaster.storage_counter storage_AB "B") ∧
  Remaster.VerifyMaster (1%N, 0) ahead_then_behind
  = Returns (Remaster.set_queue 0 [(1%N, 0)] ahead_then_behind,
             Remaster.WAITING).
Proof.
  split; [reflexivity|]. split.
  - exists (mkMeta 0 0). split; [reflexivity|]. by vm_compute.
  - by vm_compute.
Qed.

Section RemasterOccured.
Variable m : Remaster.SimpleRemasterManager.
Variable remaster_key : Key.

Lemma check_result_same m' :
  Remaster.storage_ m' = Remaster.storage_ m →
  Remaster.all_txns_ m' = Remaster.all_txns_ m →
  ∀ txn_replica_id, check_result m' txn_replica_id = check_result m txn_replica_id.
Proof. intros Hs Ha i. unfold check_result. by rewrite Hs Ha. Qed.

Lemma check_result_unfold txn_replica_id r :
  check_result m txn_replica_id = Some r →
  ∃ holder, Remaster.txn_at m txn_replica_id = Returns holder ∧
            Remaster.CheckCounters (Remaster.storage_ m) holder = Returns r.
Proof.
  unfold check_result, Remaster.txn_at.
  destruct (Remaster.all_txns_ m !! txn_replica_id) as [holder|]; [|done].
  destruct (Remaster.CheckCounters _ holder) eqn:Hc; try done.
  intros [= <-]. by exists holder.
Qed.

(** The recursion of [TryToUnblock] pops the longest run of transactions
    that move on and stops at the first that waits. *)
Lemma unblock_queue_spec q result :
  (∀ txn_replica_id, txn_replica_id ∈ q → is_Some (check_result m txn_replica_id)) →
  ∃ popped rest,
    Remaster.unblock_queue m q result
    = Returns (rest,
        {| Remaster.unblocked :=
             Remaster.unblocked result
             ++ filter (λ i, check_result m i = Some Remaster.VALID) popped;
           Remaster.should_abort :=
             Remaster.should_abort result
             ++ filter (λ i, check_result m i = Some Remaster.ABORT) popped |}) ∧
    q = popped ++ rest ∧
    Forall (moves_on m) popped ∧
    ∀ txn_replica_id rest', rest = txn_replica_id :: rest' →
      check_result m txn_replica_id = Some Remaster.WAITING.
Proof.
  revert result. induction q as [|i q IH]; intros result Hq.
  - exists [], []. simpl. rewrite !app_nil_r. by destruct result.
  - destruct (Hq i) as [r Hr]; [by left|].
    destruct (check_result_unfold i r Hr) as (holder & Hat & Hcheck).
    simpl. rewrite Hat /= Hcheck /=.
    assert (∀ j, j ∈ q → is_Some (check_result m j)) as Hq'.
    { intros j Hj. apply Hq. by right. }
    destruct r.
    + destruct (IH {| Remaster.unblocked := Remaster.unblocked result ++ [i];
                      Remaster.should_abort := Remaster.should_abort result |}
                   Hq')
        as (popped & rest & -> & -> & Hpopped & Hstop).
      exists (i :: popped), rest. simpl.
      rewrite filter_cons_True; [|done].
      rewrite filter_cons_False; [|congruence].
      rewrite -app_assoc /=. split; [done|]. split; [done|].
      split; [|done]. constructor; [by left | done].
    + exists [], (i :: q). simpl. rewrite !app_nil_r.
      split; [by destruct result|]. split; [done|]. split; [constructor|].
      by intros ? ? [= <- <-].
    + destruct (IH {| Remaster.unblocked := Remaster.unblocked result;
                      Remaster.should_abort := Remaster.should_abort result ++ [i] |}
                   Hq')
        as (popped & rest & -> & -> & Hpopped & Hstop).
      exists (i :: popped), rest. simpl.
      rewrite filter_cons_False; [|congruence].
      rewrite filter_cons_True; [|done].
      rewrite -app_assoc /=. split; [done|]. split; [done|].
      split; [|done]. constructor; [by right | done].
Qed.

Lemma head_has_key_spec q :
  (∀ txn_replica_id, txn_replica_id ∈ q → is_Some (check_result m txn_replica_id)) →
  ∃ b, Remaster.head_has_key m q remaster_key = Returns b ∧
       (b = true ↔ head_touches m remaster_key q).
Proof.
  intros Hq. destruct q as [|i q]; simpl.
  - exists false. split; [done|]. split; [done|]. by intros (? & ? & ? & ? & _).
  - destruct (Hq i) as [r Hr]; [by left|].
    destruct (check_result_unfold i r Hr) as (holder & Hat & _).
    rewrite Hat /=. eexists. split; [done|].
    rewrite bool_decide_eq_true. unfold Remaster.txn_at in Hat.
    destruct (Remaster.all_txns_ m !! i) as [h|] eqn:Hi; [|done].
    injection Hat as ->. split.
    + intros Hk. by exists i, q, holder.
    + intros (i' & q' & holder' & [= <- <-] & Hh & Hk). congruence.
Qed.

End RemasterOccured.

Section RemasterLoop.
Variable m : Remaster.SimpleRemasterManager.
Variable remaster_key : Key.

#[local] Abbreviation VALID_in l :=
  (filter (λ i, check_result m i = Some Remaster.VALID) l).
#[local] Abbreviation ABORT_in l :=
  (filter (λ i, check_result m i = Some Remaster.ABORT) l).

(** One iteration of the loop over the queues, on queue [i]. *)
Lemma remaster_queue_step bq result i q :
  bq !! i = Some q →
  (∀ txn_replica_id, txn_replica_id ∈ q → is_Some (check_result m txn_replica_id)) →
  ∃ popped rest,
    Remaster.remaster_queue remaster_key (with_queues bq m, result) i
    = Returns (with_queues (<[i := rest]> bq) m,
               {| Remaster.unblocked := Remaster.unblocked result ++ VALID_in popped;
                  Remaster.should_abort :=
                    Remaster.should_abort result ++ ABORT_in popped |}) ∧
    q = popped ++ rest ∧
    (head_touches m remaster_key q ∨ popped = []) ∧
    Forall (moves_on m) popped ∧
    (head_touches m remaster_key q →
     ∀ txn_replica_id rest', rest = txn_replica_id :: rest' →
       check_result m txn_replica_id = Some Remaster.WAITING).
Proof.
  intros Hi Hq. unfold Remaster.remaster_queue. simpl.
  assert (Remaster.queue_of i (with_queues bq m) = q) as ->.
  { unfold Remaster.queue_of. simpl. by rewrite Hi. }
  destruct (head_has_key_spec (with_queues bq m) remaster_key q Hq)
    as (b & -> & Hb).
  change (head_touches (with_queues bq m) remaster_key q)
    with (head_touches m remaster_key q) in Hb.
  simpl. destruct b.
  - assert (head_touches m remaster_key q) as Htouch by by apply Hb.
    unfold Remaster.TryToUnblock. simpl. rewrite Hi.
    destruct Htouch as (i0 & q0 & holder & -> & Hholder & Hkey).
    destruct (unblock_queue_spec (with_queues bq m) (i0 :: q0) result Hq)
      as (popped & rest & -> & Hsplit & Hpopped & Hstop).
    exists popped, rest. simpl. split; [done|]. split; [done|].
    split; [|split; [done|]].
    + left. by exists i0, q0, holder.
    + intros _. exact Hstop.
  - exists [], q. simpl. rewrite !app_nil_r. split.
    + f_equal. f_equal; [|by destruct result].
      unfold with_queues. f_equal. by rewrite insert_id.
    + split; [done|]. split; [by right|]. split; [constructor|].
      intros Htouch. apply Hb in Htouch. discriminate Htouch.
Qed.

Lemma queue_outcome_grow result result' q popped rest :
  Remaster.unblocked result ⊆ Remaster.unblocked result' →
  Remaster.should_abort result ⊆ Remaster.should_abort result' →
  queue_outcome m remaster_key result q popped rest →
  queue_outcome m remaster_key result' q popped rest.
Proof.
  intros Hu Ha [H1 H2 H3 H4 H5 H6]. split; try done.
  - intros t Ht Hv. apply Hu. by apply H5.
  - intros t Ht Hv. apply Ha. by apply H6.
Qed.

Lemma loop_step done acc i q :
  checks_return m → i ∉ done →
  Remaster.blocked_queue_ m !! i = Some q →
  loop_inv m remaster_key done acc →
  ∃ acc', Remaster.remaster_queue remaster_key acc i = Returns acc' ∧
          loop_inv m remaster_key (done ++ [i]) acc'.
Proof.
  intros Hret Hi Hq [[bq Hbq] Htodo Hdone Hub Hsa].
  destruct acc as [mj result]. simpl in *. subst mj. simpl in *.
  assert (∀ t, t ∈ q → is_Some (check_result m t)) as Hchecks.
  { intros t Ht. by eapply Hret. }
  destruct (remaster_queue_step bq result i q) as
    (popped & rest & -> & Hsplit & Huntouched & Hpopped & Hstop);
    [by rewrite Htodo | done |].
  eexists. split; [done|]. split; simpl.
  - by eexists.
  - intros j Hj. rewrite not_elem_of_app list_elem_of_singleton in Hj.
    destruct Hj as [Hj Hne]. rewrite lookup_insert_ne; [by apply Htodo|].
    congruence.
  - intros j qj [Hj| ->%list_elem_of_singleton]%elem_of_app Hqj.
    + destruct (Hdone j qj Hj Hqj) as (pj & rj & Hlook & Hout).
      exists pj, rj. split.
      * rewrite lookup_insert_ne; [done|]. by intros ->.
      * eapply queue_outcome_grow; [| |exact Hout]; simpl;
          intros t Ht; apply elem_of_app; by left.
    + rewrite Hq in Hqj. injection Hqj as <-.
      exists popped, rest. split; [by rewrite lookup_insert_eq|].
      split; simpl; try done.
      * intros Hnot. by destruct Huntouched.
      * intros t Ht Hv. apply elem_of_app. right.
        by apply list_elem_of_filter.
      * intros t Ht Hv. apply elem_of_app. right.
        by apply list_elem_of_filter.
  - intros t [Ht|Ht]%elem_of_app; [by apply Hub|].
    apply list_elem_of_filter in Ht as [Hv Ht]. split; [done|].
    exists i, q. split; [done|]. split.
    + destruct Huntouched as [?| ->]; [done|]. by apply elem_of_nil in Ht.
    + rewrite Hsplit. apply elem_of_app. by left.
  - intros t [Ht|Ht]%elem_of_app; [by apply Hsa|].
    apply list_elem_of_filter in Ht as [Hv Ht]. split; [done|].
    exists i, q. split; [done|]. split.
    + destruct Huntouched as [?| ->]; [done|]. by apply elem_of_nil in Ht.
    + rewrite Hsplit. apply elem_of_app. by left.
Qed.

End RemasterLoop.

Lemma loop_all m remaster_key todo done acc :
  checks_return m → NoDup todo →
  (∀ i, i ∈ todo → i ∉ done) →
  (∀ i, i ∈ todo → is_Some (Remaster.blocked_queue_ m !! i)) →
  loop_inv m remaster_key done acc →
  ∃ acc',
    foldl (λ (a : outcome (Remaster.SimpleRemasterManager
                           * Remaster.RemasterOccurredResult)) i,
             outcome_bind a (λ a', Remaster.remaster_queue remaster_key a' i))
          (Returns acc) todo = Returns acc' ∧
    loop_inv m remaster_key (done ++ todo) acc'.
Proof.
  intros Hret. revert done acc.
  induction todo as [|i todo IH]; intros done acc Hnd Hfresh Hdom Hinv.
  - exists acc. by rewrite app_nil_r.
  - apply NoDup_cons in Hnd as [Hi Hnd].
    destruct (Hdom i) as [q Hq]; [by left|].
    destruct (loop_step m remaster_key done acc i q) as (acc1 & Hstep & Hinv1);
      [done | apply Hfresh; by left | done | done |].
    simpl. rewrite Hstep.
    destruct (IH (done ++ [i]) acc1) as (acc' & Hrun & Hinv'); [done | | |done|].
    + intros j Hj [Hin| ->%list_elem_of_singleton]%elem_of_app; [|done].
      apply (Hfresh j); [by right | done].
    + intros j Hj. apply Hdom. by right.
    + exists acc'. split; [done|]. by rewrite -app_assoc in Hinv'.
Qed.

Lemma check_keys_valid storage meta keys :
  Remaster.check_keys storage meta keys = Returns Remaster.VALID →
  ∀ key, key ∈ keys.*1 →
    ∃ mt, pb_at key meta = Some mt ∧
          counter mt = Remaster.storage_counter storage key.
Proof.
  induction keys as [|[k lk] keys IH]; simpl; [by intros _ ? ?%elem_of_nil|].
  destruct (pb_at k meta) as [mt|] eqn:Hmt; [|done].
  destruct (match storage !! k with
            | Some record =>
                if decide (master mt = master record) then Returns ()
                else Fatal "Masters don't match for same key"
            | None => Returns ()
            end); simpl; try done.
  destruct (counter mt <? Remaster.storage_counter storage k) eqn:Hlt; [done|].
  destruct (Remaster.storage_counter storage k <? counter mt) eqn:Hgt; [done|].
  intros Hrest key [->|Hkey]%elem_of_cons.
  - exists mt. split; [done|]. apply Z.ltb_ge in Hlt, Hgt. lia.
  - by apply IH.
Qed.

Section RemasterExact.
Variable m : Remaster.SimpleRemasterManager.
Variable remaster_key : Key.

Lemma bind_Returns {A B} (mx : outcome A) (k : A → outcome B) (b : B) :
  outcome_bind mx k = Returns b ↔ ∃ a, mx = Returns a ∧ k a = Returns b.
Proof.
  destruct mx as [a|w|w]; simpl.
  - split; [intros Hk; by exists a | by intros (a' & [= <-] & Hk)].
  - split; [done | by intros (a' & ? & _)].
  - split; [done | by intros (a' & ? & _)].
Qed.

Lemma fold_stuck {A I} (f : A → I → outcome A) (l : list I) (x : outcome A) :
  (∀ a, x ≠ Returns a) →
  ∀ a, foldl (λ (acc : outcome A) i, outcome_bind acc (λ a', f a' i)) x l
       ≠ Returns a.
Proof.
  revert x. induction l as [|i l IH]; intros x Hx; [done|].
  simpl. apply IH. intros a. destruct x as [a'|w|w]; [|done|done].
  by destruct (Hx a').
Qed.

(** The check of a queued transaction inside the loops, through
    [check_result]. *)
Lemma check_outcome {B} bq t (k : Remaster.VerifyMasterResult → outcome B) b :
  outcome_bind (Remaster.txn_at (with_queues bq m) t)
    (λ holder,
       outcome_bind
         (Remaster.CheckCounters (Remaster.storage_ (with_queues bq m)) holder)
         k)
  = Returns b
  ↔ ∃ r, check_result m t = Some r ∧ k r = Returns b.
Proof.
  unfold Remaster.txn_at, check_result. simpl.
  destruct (Remaster.all_txns_ m !! t) as [holder|]; simpl.
  - destruct (Remaster.CheckCounters (Remaster.storage_ m) holder)
      as [r|w|w]; simpl.
    + split; [intros Hk; by exists r | by intros (r' & [= <-] & Hk)].
    + split; [done | by intros (r' & ? & _)].
    + split; [done | by intros (r' & ? & _)].
  - split; [done | by intros (r' & ? & _)].
Qed.

Lemma unblock_queue_cons M t q result :
  Remaster.unblock_queue M (t :: q) result
  = outcome_bind (Remaster.txn_at M t)
      (λ holder,
         outcome_bind (Remaster.CheckCounters (Remaster.storage_ M) holder)
           (λ counter_result,
              match counter_result with
              | Remaster.WAITING => Returns (t :: q, result)
              | Remaster.VALID =>
                  Remaster.unblock_queue M q
                    {| Remaster.unblocked := Remaster.unblocked result ++ [t];
                       Remaster.should_abort := Remaster.should_abort result |}
              | Remaster.ABORT =>
                  Remaster.unblock_queue M q
                    {| Remaster.unblocked := Remaster.unblocked result;
                       Remaster.should_abort :=
                         Remaster.should_abort result ++ [t] |}
              end)).
Proof. reflexivity. Qed.

(** The recursion of [TryToUnblock] returns exactly when the transaction it
    stops at answers WAITING, and has then popped the longest prefix of
    transactions that leave. *)
Lemma unblock_queue_exact bq q result r :
  Remaster.unblock_queue (with_queues bq m) q result = Returns r ↔
  (∀ t, head (drop (length (leaving m q)) q) = Some t →
        check_result m t = Some Remaster.WAITING) ∧
  r = (drop (length (leaving m q)) q,
       {| Remaster.unblocked :=
            Remaster.unblocked result ++ VALID_of m (leaving m q);
          Remaster.should_abort :=
            Remaster.should_abort result ++ ABORT_of m (leaving m q) |}).
Proof.
  revert result r. induction q as [|t q IH]; intros result r.
  - simpl. rewrite !app_nil_r. destruct result as [u a]. simpl.
    split; [by intros [= <-] | by intros [_ ->]].
  - rewrite unblock_queue_cons check_outcome. cbn [leaving].
    assert (leaves m t
            = match check_result m t with
              | Some Remaster.VALID | Some Remaster.ABORT => true
              | _ => false
              end) as ->.
    { unfold leaves. destruct (check_result m t) as [[| |]|].
      - apply bool_decide_eq_true. by left.
      - apply bool_decide_eq_false. by intros [?|?].
      - apply bool_decide_eq_true. by right.
      - apply bool_decide_eq_false. by intros [?|?]. }
    destruct (check_result m t) as [[| |]|] eqn:Hc.
    + assert (VALID_of m (t :: leaving m q) = t :: VALID_of m (leaving m q))
        as Hv by (unfold VALID_of; by rewrite filter_cons_True).
      assert (ABORT_of m (t :: leaving m q) = ABORT_of m (leaving m q))
        as Ha by (unfold ABORT_of; rewrite filter_cons_False; [done|];
                  by rewrite Hc).
      rewrite Hv Ha. cbn [length drop]. split.
      * intros (r0 & [= <-] & Hrun). apply IH in Hrun as [Hstop ->].
        split; [done|]. simpl. by rewrite -app_assoc.
      * intros [Hstop ->]. exists Remaster.VALID. split; [done|].
        apply IH. split; [done|]. simpl. by rewrite -app_assoc.
    + simpl. rewrite !app_nil_r. split.
      * intros (r0 & [= <-] & [= <-]). split; [by intros t' [= <-]|].
        by destruct result.
      * intros [_ ->]. exists Remaster.WAITING. split; [done|].
        by destruct result.
    + assert (VALID_of m (t :: leaving m q) = VALID_of m (leaving m q))
        as Hv by (unfold VALID_of; rewrite filter_cons_False; [done|];
                  by rewrite Hc).
      assert (ABORT_of m (t :: leaving m q) = t :: ABORT_of m (leaving m q))
        as Ha by (unfold ABORT_of; by rewrite filter_cons_True).
      rewrite Hv Ha. cbn [length drop]. split.
      * intros (r0 & [= <-] & Hrun). apply IH in Hrun as [Hstop ->].
        split; [done|]. simpl. by rewrite -app_assoc.
      * intros [Hstop ->]. exists Remaster.ABORT. split; [done|].
        apply IH. split; [done|]. simpl. by rewrite -app_assoc.
    + simpl. split; [by intros (r0 & ? & _)|].
      intros [Hstop _]. specialize (Hstop t eq_refl). congruence.
Qed.

Lemma head_has_key_exact bq q b :
  Remaster.head_has_key (with_queues bq m) q remaster_key = Returns b ↔
  (∀ t, head q = Some t → is_Some (Remaster.all_txns_ m !! t)) ∧
  b = touched m remaster_key q.
Proof.
  destruct q as [|t q]; simpl.
  - split; [intros [= <-]; by split | by intros [_ ->]].
  - unfold Remaster.txn_at. simpl.
    destruct (Remaster.all_txns_ m !! t) as [holder|] eqn:Hholder; simpl.
    + split; [intros [= <-]; split; [|done] | by intros [_ ->]].
      intros t' [= <-]. by rewrite Hholder.
    + split; [done|]. intros [Hknown _].
      destruct (Hknown t eq_refl) as [holder Hsome]. congruence.
Qed.

(** One iteration of the loop of [RemasterOccured], on queue [i]. *)
Lemma remaster_queue_exact bq result i q acc' :
  bq !! i = Some q →
  Remaster.remaster_queue remaster_key (with_queues bq m, result) i
  = Returns acc'
  ↔ consultable m remaster_key q ∧
    acc' = (with_queues (<[i := remaining m remaster_key q]> bq) m,
            {| Remaster.unblocked :=
                 Remaster.unblocked result
                 ++ VALID_of m (popped m remaster_key q);
               Remaster.should_abort :=
                 Remaster.should_abort result
                 ++ ABORT_of m (popped m remaster_key q) |}).
Proof.
  intros Hq. unfold Remaster.remaster_queue. cbn [fst].
  assert (Remaster.queue_of i (with_queues bq m) = q) as ->.
  { unfold Remaster.queue_of. simpl. by rewrite Hq. }
  rewrite bind_Returns. unfold consultable, remaining, popped.
  destruct (touched m remaster_key q) eqn:Htouched.
  - assert (∀ r,
              Remaster.TryToUnblock i (with_queues bq m, result) = Returns r ↔
              ∃ r0, Remaster.unblock_queue (with_queues bq m) q result
                    = Returns r0 ∧
                    r = (with_queues (<[i := r0.1]> bq) m, r0.2)) as Htry.
    { intros r. unfold Remaster.TryToUnblock. simpl. rewrite Hq.
      destruct q as [|t q']; [done|]. rewrite bind_Returns.
      split; intros (r0 & Hrun & Hr); exists r0; (split; [done|]).
      - by injection Hr as <-.
      - by rewrite Hr. }
    split.
    + intros (b & [Hknown ->]%head_has_key_exact & Hrun).
      rewrite Htouched in Hrun. apply Htry in Hrun as (r0 & Hrun & ->).
      apply unblock_queue_exact in Hrun as [Hstop ->].
      split; [|done]. split; [done|]. by intros _.
    + intros [[Hknown Hstop] ->]. exists true.
      split; [by apply head_has_key_exact|]. apply Htry.
      exists (drop (length (leaving m q)) q,
              {| Remaster.unblocked :=
                   Remaster.unblocked result ++ VALID_of m (leaving m q);
                 Remaster.should_abort :=
                   Remaster.should_abort result ++ ABORT_of m (leaving m q) |}).
      split; [|reflexivity]. apply unblock_queue_exact.
      split; [by apply Hstop | done].
  - assert ((with_queues (<[i := drop (length ([] : list Remaster.TxnReplicaId)) q]> bq) m,
             {| Remaster.unblocked :=
                  Remaster.unblocked result ++ VALID_of m [];
                Remaster.should_abort :=
                  Remaster.should_abort result ++ ABORT_of m [] |})
            = (with_queues bq m, result)) as ->.
    { simpl. rewrite insert_id; [|done]. unfold VALID_of, ABORT_of. simpl.
      rewrite !app_nil_r. by destruct result. }
    split.
    + intros (b & [Hknown ->]%head_has_key_exact & Hrun).
      rewrite Htouched in Hrun. injection Hrun as <-.
      split; [|done]. by split.
    + intros [[Hknown _] ->]. exists false.
      split; [by apply head_has_key_exact | done].
Qed.

(** The loop of [RemasterOccured] over queues that are in the map. *)
Lemma remaster_fold_exact iqs M bq result acc' :
  M = with_queues bq m →
  NoDup iqs.*1 → (∀ i q, (i, q) ∈ iqs → bq !! i = Some q) →
  foldl (λ (acc : outcome (Remaster.SimpleRemasterManager
                           * Remaster.RemasterOccurredResult)) i,
           outcome_bind acc (λ a, Remaster.remaster_queue remaster_key a i))
        (Returns (M, result)) iqs.*1
  = Returns acc'
  ↔ Forall (λ iq, consultable m remaster_key iq.2) iqs ∧
    acc' = (with_queues (requeued m remaster_key iqs bq) m,
            {| Remaster.unblocked :=
                 Remaster.unblocked result
                 ++ flat_map (λ iq, VALID_of m (popped m remaster_key iq.2)) iqs;
               Remaster.should_abort :=
                 Remaster.should_abort result
                 ++ flat_map (λ iq, ABORT_of m (popped m remaster_key iq.2))
                             iqs |}).
Proof.
  intros ->. revert bq result.
  induction iqs as [|[i q] iqs IH]; intros bq result Hnd Hin.
  - simpl. rewrite !app_nil_r. destruct result as [u a]. simpl.
    split; [intros [= <-]; by split | by intros [_ ->]].
  - rewrite fmap_cons in Hnd. apply NoDup_cons in Hnd as [Hi Hnd].
    assert (bq !! i = Some q) as Hq by (apply Hin; by left).
    rewrite fmap_cons. cbn [foldl outcome_bind fst].
    destruct (Remaster.remaster_queue remaster_key (with_queues bq m, result) i)
      as [acc1|w|w] eqn:Hstep.
    + apply (remaster_queue_exact bq result i q acc1 Hq) in Hstep
        as [Hcons ->].
      rewrite IH; [|done|].
      2:{ intros j q' Hj. rewrite lookup_insert_ne; [by apply Hin; right|].
          intros ->. apply Hi. apply list_elem_of_fmap. by exists (j, q'). }
      rewrite Forall_cons. cbn [flat_map requeued foldl fst snd].
      cbn [Remaster.unblocked Remaster.should_abort].
      rewrite -!app_assoc. split.
      * intros [Hall ->]. split; [by split | reflexivity].
      * intros [[_ Hall] ->]. split; [done | reflexivity].
    + split; [intros Hrun; by apply fold_stuck in Hrun|].
      intros [[Hcons _]%Forall_cons _].
      assert (Remaster.remaster_queue remaster_key (with_queues bq m, result) i
              = Returns
                  (with_queues (<[i := remaining m remaster_key q]> bq) m,
                   {| Remaster.unblocked :=
                        Remaster.unblocked result
                        ++ VALID_of m (popped m remaster_key q);
                      Remaster.should_abort :=
                        Remaster.should_abort result
                        ++ ABORT_of m (popped m remaster_key q) |})) as Hret.
      { by apply (remaster_queue_exact bq result i q). }
      congruence.
    + split; [intros Hrun; by apply fold_stuck in Hrun|].
      intros [[Hcons _]%Forall_cons _].
      assert (Remaster.remaster_queue remaster_key (with_queues bq m, result) i
              = Returns
                  (with_queues (<[i := remaining m remaster_key q]> bq) m,
                   {| Remaster.unblocked :=
                        Remaster.unblocked result
                        ++ VALID_of m (popped m remaster_key q);
                      Remaster.should_abort :=
                        Remaster.should_abort result
                        ++ ABORT_of m (popped m remaster_key q) |})) as Hret.
      { by apply (remaster_queue_exact bq result i q). }
      congruence.
Qed.

Lemma requeued_lookup iqs bq :
  NoDup iqs.*1 →
  (∀ i q, (i, q) ∈ iqs →
          requeued m remaster_key iqs bq !! i
          = Some (remaining m remaster_key q)) ∧
  (∀ j, j ∉ iqs.*1 → requeued m remaster_key iqs bq !! j = bq !! j).
Proof.
  revert bq. induction iqs as [|[i q] iqs IH]; intros bq Hnd.
  - split; [by intros i q ?%elem_of_nil | done].
  - rewrite fmap_cons in Hnd. apply NoDup_cons in Hnd as [Hi Hnd].
    destruct (IH (<[i := remaining m remaster_key q]> bq) Hnd) as [Hin Hout].
    unfold requeued in *. cbn [foldl fst snd]. split.
    + intros j q' [[= -> ->]|Hj]%elem_of_cons.
      * rewrite Hout; [|done]. by rewrite lookup_insert_eq.
      * by apply Hin.
    + intros j Hj. rewrite fmap_cons in Hj.
      apply not_elem_of_cons in Hj as [Hne Hj]. simpl in Hne.
      rewrite Hout; [|done]. by rewrite lookup_insert_ne.
Qed.

Lemma requeued_all bq :
  requeued m remaster_key (map_to_list bq) bq
  = remaining m remaster_key <$> bq.
Proof.
  destruct (requeued_lookup (map_to_list bq) bq (NoDup_fst_map_to_list bq))
    as [Hin Hout].
  apply map_eq. intros j. rewrite lookup_fmap.
  destruct (bq !! j) as [q|] eqn:Hj; simpl.
  - apply Hin. by apply elem_of_map_to_list.
  - rewrite Hout; [done|].
    intros ([j' q] & -> & Hjq%elem_of_map_to_list)%list_elem_of_fmap.
    simpl in Hj. congruence.
Qed.

End RemasterExact.

(** [RemasterOccured] for key [remaster_key].  The call returns exactly
    when, in every queue, the head is a known transaction and, if the head
    has the key among its keys in the partition, the transaction at which the
    popping stops can be checked.  Whenever it returns: the storage and the
    transactions are as before; a queue whose head does not have the key is
    as before; a queue whose head has it has lost its longest prefix of
    transactions whose check answers VALID or ABORT, and nothing else;
    [unblocked] holds, queue after queue in the order in which the queues
    were visited, the popped transactions whose check answers VALID, in the
    order of their queue, and [should_abort] likewise those whose check
    answers ABORT, and the two lists hold nothing else.  When the counter of
    the key in the storage is [remaster_counter], no unblocked transaction
    with the key among its keys declares a counter above [remaster_counter]
    for it. *)
Theorem RemasterOccured_exact m remaster_key remaster_counter :
  ((∀ i q, Remaster.blocked_queue_ m !! i = Some q →
           consultable m remaster_key q) ↔
   ∃ m' result,
     Remaster.RemasterOccured remaster_key remaster_counter m
     = Returns (m', result)) ∧
  ∀ m' result,
    Remaster.RemasterOccured remaster_key remaster_counter m
    = Returns (m', result) →
    m' = with_queues (remaining m remaster_key <$> Remaster.blocked_queue_ m) m ∧
    (∃ visited,
       visited ≡ₚ map_to_list (Remaster.blocked_queue_ m) ∧
       Remaster.unblocked result
       = flat_map (λ iq, VALID_of m (popped m remaster_key iq.2)) visited ∧
       Remaster.should_abort result
       = flat_map (λ iq, ABORT_of m (popped m remaster_key iq.2)) visited) ∧
    (Remaster.storage_counter (Remaster.storage_ m) remaster_key
     = remaster_counter →
     ∀ t holder meta,
       t ∈ Remaster.unblocked result →
       Remaster.all_txns_ m !! t = Some holder →
       remaster_key ∈ (Remaster.KeysInPartition holder).*1 →
       pb_at remaster_key (master_metadata (Remaster.GetTransaction holder))
       = Some meta →
       ¬ remaster_counter < counter meta).
Proof.
  assert (∀ acc',
    Remaster.RemasterOccured remaster_key remaster_counter m = Returns acc' ↔
    Forall (λ iq, consultable m remaster_key iq.2)
           (map_to_list (Remaster.blocked_queue_ m)) ∧
    acc' = (with_queues
              (remaining m remaster_key <$> Remaster.blocked_queue_ m) m,
            {| Remaster.unblocked :=
                 flat_map (λ iq, VALID_of m (popped m remaster_key iq.2))
                          (map_to_list (Remaster.blocked_queue_ m));
               Remaster.should_abort :=
                 flat_map (λ iq, ABORT_of m (popped m remaster_key iq.2))
                          (map_to_list (Remaster.blocked_queue_ m)) |}))
    as Hexact.
  { intros acc'. unfold Remaster.RemasterOccured.
    rewrite (remaster_fold_exact m remaster_key
               (map_to_list (Remaster.blocked_queue_ m)) m
               (Remaster.blocked_queue_ m)).
    - by rewrite requeued_all.
    - by destruct m.
    - apply NoDup_fst_map_to_list.
    - intros i q Hiq. by apply elem_of_map_to_list. }
  split.
  - split.
    + intros Hall. eexists _, _. apply Hexact. split; [|reflexivity].
      apply Forall_forall. intros [i q] Hiq. apply (Hall i).
      by apply elem_of_map_to_list.
    + intros (m' & result & [Hall _]%Hexact) i q Hiq.
      rewrite Forall_forall in Hall.
      apply (Hall (i, q)). by apply elem_of_map_to_list.
  - intros m' result [_ [= -> ->]]%Hexact. split; [done|]. split.
    + by exists (map_to_list (Remaster.blocked_queue_ m)).
    + intros Hcounter t holder meta Ht Hholder Hkey Hmeta Hgt.
      apply list_elem_of_In, in_flat_map in Ht as ([i q] & _ & Ht).
      apply list_elem_of_In in Ht. unfold VALID_of in Ht.
      apply list_elem_of_filter in Ht as [Hvalid _].
      unfold check_result in Hvalid. rewrite Hholder in Hvalid.
      destruct (Remaster.CheckCounters (Remaster.storage_ m) holder)
        as [r| |] eqn:Hcheck; try done.
      injection Hvalid as ->.
      destruct (check_keys_valid _ _ _ Hcheck remaster_key Hkey)
        as (mt & Hmt & Heq).
      rewrite Hmeta in Hmt. injection Hmt as <-. lia.
Qed.

Lemma RemasterOccured_exact_witness :
  ∃ m' result,
    Remaster.RemasterOccured "A" 2 after_remaster = Returns (m', result) ∧
    m' = with_queues
           (remaining after_remaster "A" <$> Remaster.blocked_queue_ after_remaster)
           after_remaster ∧
    Remaster.unblocked result = [(1%N, 0)] ∧
    Remaster.should_abort result = [(2%N, 0)] ∧
    ∀ t holder meta,
      t ∈ Remaster.unblocked result →
      Remaster.all_txns_ after_remaster !! t = Some holder →
      "A" ∈ (Remaster.KeysInPartition holder).*1 →
      pb_at "A" (master_metadata (Remaster.GetTransaction holder)) = Some meta →
      ¬ 2 < counter meta.
Proof.
  assert (Remaster.RemasterOccured "A" 2 after_remaster
          = Returns (with_queues {[ 0 := [] ]} after_remaster,
                     {| Remaster.unblocked := [(1%N, 0)];
                        Remaster.should_abort := [(2%N, 0)] |})) as Heval.
  { by vm_compute. }
  destruct (proj2 (RemasterOccured_exact after_remaster "A" 2) _ _ Heval)
    as (Hm' & _ & Hbound).
  eexists _, _. split; [exact Heval|]. split; [exact Hm'|].
  split; [reflexivity|]. split; [reflexivity|].
  by apply Hbound.
Defined.

(** C5 fails on the source.  Keys A and B are mastered at region 0 with
    counter 1.  Transaction 1 (key B, counter 2) waits in the queue of region
    0, and transaction 2 (key A, with the metadata of the storage) is put
    behind it unchecked.  Key A is remastered to region 1 and gets counter 2:
    [RemasterOccured] for A leaves the queue alone, its head not having A.
    Then the counter of key B goes from 1 to 2.  In the call of
    [RemasterOccured] for B with counter 2 the head, transaction 1, is VALID;
    transaction 2, the head after the pop, declares counter 1 for A, less
    than the stored 2.  The static [CheckCounters] of remaster_manager.h
    answers ABORT for it, and the claim sends it to [should_abort]; the
    [CheckCounters] of the manager compares the masters before the counters
    and ends the process, so nothing is returned. *)
Theorem RemasterOccured_stale_head_dies :
  Remaster.VerifyMaster (1%N, 0) before_remasters
  = Returns (with_queues {[ 0 := [(1%N, 0)] ]} before_remasters,
             Remaster.WAITING) ∧
  Remaster.VerifyMaster (2%N, 0)
    (with_queues {[ 0 := [(1%N, 0)] ]} before_remasters)
  = Returns (both_queued, Remaster.WAITING) ∧
  Remaster.RemasterOccured "A" 2 (with_storage storage_A_remastered both_queued)
  = Returns (with_storage storage_A_remastered both_queued,
             {| Remaster.unblocked := []; Remaster.should_abort := [] |}) ∧
  Remaster.storage_counter storage_A_remastered "B" = 1 ∧
  Remaster.storage_counter storage_B_remastered "B" = 2 ∧
  check_result (with_storage storage_B_remastered both_queued) (1%N, 0)
  = Some Remaster.VALID ∧
  pb_at "A" (master_metadata (Remaster.GetTransaction stale_holder))
  = Some (mkMeta 0 1) ∧
  Remaster.storage_counter storage_B_remastered "A" = 2 ∧
  (∀ default_master,
     static_CheckCounters default_master stale_holder storage_B_remastered
     = Returns Remaster.ABORT) ∧
  Remaster.RemasterOccured "B" 2 (with_storage storage_B_remastered both_queued)
  = Fatal "Masters don't match for same key".
Proof.
  repeat split; try (intros default_master); by vm_compute.
Qed.

(** ** The count of outstanding locks *)

Lemma lock_entry_inv lm key : table_inv lm → lock_inv (lock_entry key lm).
Proof.
  intros Hinv. unfold lock_entry.
  destruct (lock_table_ lm !! key) as [ls|] eqn:Hls; simpl.
  - by eapply Hinv.
  - apply lock_inv_empty.
Qed.

Lemma lock_inv_unlocked ls :
  lock_inv ls → mode ls = UNLOCKED → ls = empty_lock.
Proof.
  intros [Ht Hw Hu Hl Hwr] Hm. destruct (Hu Hm) as [Hh Hq].
  destruct ls as [md hs ws q]. simpl in *. subst. done.
Qed.

(** Counting the keys that satisfy a predicate, when the predicate changes
    on one key at most. *)
Lemma count_same (P Q : Key → Prop) `{!∀ k, Decision (P k), !∀ k, Decision (Q k)}
    (keys : list Key) :
  (∀ k, k ∈ keys → P k ↔ Q k) →
  length (filter P keys) = length (filter Q keys).
Proof.
  induction keys as [|k keys IH]; intros Hsame; [done|].
  assert (length (filter P keys) = length (filter Q keys)) as IH'.
  { apply IH. intros k' Hk'. apply Hsame. by right. }
  destruct (decide (P k)) as [HP|HP].
  - rewrite (filter_cons_True P); [|done].
    rewrite (filter_cons_True Q); [|apply Hsame; [by left | done]].
    simpl. by rewrite IH'.
  - rewrite (filter_cons_False P); [|done].
    rewrite (filter_cons_False Q); [done|].
    intros HQ. apply HP. apply Hsame; [by left | done].
Qed.

Lemma count_gain (P Q : Key → Prop) `{!∀ k, Decision (P k), !∀ k, Decision (Q k)}
    (keys : list Key) (key : Key) :
  NoDup keys → key ∈ keys → ¬ P key → Q key →
  (∀ k, k ≠ key → P k ↔ Q k) →
  length (filter Q keys) = S (length (filter P keys)).
Proof.
  induction keys as [|k keys IH]; intros Hnd Hin HP HQ Hsame.
  - by apply elem_of_nil in Hin.
  - apply NoDup_cons in Hnd as [Hk Hnd].
    destruct (decide (k = key)) as [->|Hne].
    + rewrite (filter_cons_True Q); [|done].
      rewrite (filter_cons_False P); [|done].
      simpl. f_equal. symmetry. apply count_same.
      intros k' Hk'. apply Hsame. intros ->. done.
    + apply elem_of_cons in Hin as [?|Hin]; [congruence|].
      specialize (IH Hnd Hin HP HQ Hsame).
      destruct (decide (P k)) as [HPk|HPk].
      * rewrite (filter_cons_True P); [|done].
        rewrite (filter_cons_True Q); [|by apply Hsame].
        simpl. by rewrite IH.
      * rewrite (filter_cons_False P); [|done].
        rewrite (filter_cons_False Q); [done|].
        intros HQk. apply HPk. by apply Hsame.
Qed.

Lemma wake_holder_unfold nlw ready_txns holder :
  wake_holder (nlw, ready_txns) holder
  = if decide (default 0 (nlw !! holder) - 1 = 0)
    then (delete holder nlw, {[holder]} ∪ ready_txns)
    else (<[holder := default 0 (nlw !! holder) - 1]> nlw, ready_txns).
Proof. reflexivity. Qed.

(** The inner loop of [ReleaseLocks], seen from one transaction. *)
Lemma wake_holder_fold txn_id (holders : list TxnId) nlw ready_txns :
  NoDup holders →
  let '(nlw', ready_txns') := foldl wake_holder (nlw, ready_txns) holders in
  let n := default 0 (nlw !! txn_id) in
  let n' := default 0 (nlw' !! txn_id) in
  (txn_id ∈ holders →
     n' = n - 1 ∧ (txn_id ∈ ready_txns' ↔ txn_id ∈ ready_txns ∨ n - 1 = 0)) ∧
  (txn_id ∉ holders →
     n' = n ∧ (txn_id ∈ ready_txns' ↔ txn_id ∈ ready_txns)).
Proof.
  revert nlw ready_txns.
  induction holders as [|h holders IH]; intros nlw ready_txns Hnd.
  - simpl. split; [by intros ?%elem_of_nil | done].
  - apply NoDup_cons in Hnd as [Hh Hnd]. cbn [foldl].
    rewrite wake_holder_unfold.
    destruct (decide (default 0 (nlw !! h) - 1 = 0)) as [Hz|Hz].
    + specialize (IH (delete h nlw) ({[h]} ∪ ready_txns) Hnd).
      destruct (foldl wake_holder _ holders) as [nlw' ready'].
      destruct IH as [IHin IHout]. split.
      * intros [->|Hin]%elem_of_cons.
        -- destruct (IHout Hh) as [-> Hready].
           rewrite lookup_delete_eq /=. split; [lia|]. rewrite Hready.
           split; [by right | intros _].
           apply elem_of_union. left. by apply elem_of_singleton.
        -- destruct (IHin Hin) as [-> Hready].
           assert (txn_id ≠ h) as Hne by (intros ->; done).
           assert (delete h nlw !! txn_id = nlw !! txn_id) as Hlook
             by by rewrite lookup_delete_ne.
           rewrite Hlook in Hready |- *. split; [done|].
           rewrite Hready elem_of_union elem_of_singleton.
           split; [intros [[?|?]|?]; [done | by left | by right]
                  | intros [?|?]; [left; by right | by right]].
      * intros [Hne Hout]%not_elem_of_cons.
        destruct (IHout Hout) as [-> Hready].
        rewrite lookup_delete_ne; [|done]. split; [done|].
        rewrite Hready elem_of_union elem_of_singleton.
        split; [intros [?|?]; done | intros ?; by right].
    + specialize (IH (<[h := default 0 (nlw !! h) - 1]> nlw) ready_txns Hnd).
      destruct (foldl wake_holder _ holders) as [nlw' ready'].
      destruct IH as [IHin IHout]. split.
      * intros [->|Hin]%elem_of_cons.
        -- destruct (IHout Hh) as [-> Hready].
           rewrite lookup_insert_eq /=. split; [done|]. rewrite Hready.
           split; [by left | intros [?|?]; done].
        -- destruct (IHin Hin) as [-> Hready].
           assert (txn_id ≠ h) as Hne by (intros ->; done).
           assert (<[h := default 0 (nlw !! h) - 1]> nlw !! txn_id
                   = nlw !! txn_id) as Hlook
             by by rewrite lookup_insert_ne.
           by rewrite Hlook in Hready |- *.
      * intros [Hne Hout]%not_elem_of_cons.
        destruct (IHout Hout) as [-> Hready].
        rewrite lookup_insert_ne; [|done]. done.
Qed.

Lemma lock_entry_insert lm key ls nlw key' :
  lock_entry key' {| lock_table_ := <[key := ls]> (lock_table_ lm);
                     num_locks_waited_ := nlw |}
  = if decide (key = key') then ls else lock_entry key' lm.
Proof.
  unfold lock_entry. simpl. case_decide as Hk.
  - subst. by rewrite lookup_insert_eq.
  - by rewrite lookup_insert_ne.
Qed.

Lemma table_inv_insert lm key ls nlw :
  table_inv lm → lock_inv ls →
  table_inv {| lock_table_ := <[key := ls]> (lock_table_ lm);
               num_locks_waited_ := nlw |}.
Proof.
  intros Hinv Hls k ls'. simpl. rewrite lookup_insert. case_decide.
  - by intros [= <-].
  - apply Hinv.
Qed.

Lemma table_inv_counts lm nlw :
  table_inv lm →
  table_inv {| lock_table_ := lock_table_ lm; num_locks_waited_ := nlw |}.
Proof. intros Hinv k ls. apply Hinv. Qed.

Lemma same_standing_refl txn_id lm : same_standing txn_id lm lm.
Proof. by repeat split. Qed.

Lemma same_standing_trans txn_id lm1 lm2 lm3 :
  same_standing txn_id lm1 lm2 → same_standing txn_id lm2 lm3 →
  same_standing txn_id lm1 lm3.
Proof.
  intros (H1 & W1 & C1) (H2 & W2 & C2). split; [|split].
  - intros k. by rewrite H2 H1.
  - intros k. by rewrite W2 W1.
  - by rewrite C2 C1.
Qed.

Lemma same_standing_held txn_id keys lm lm' :
  same_standing txn_id lm lm' →
  held_keys txn_id keys lm' = held_keys txn_id keys lm.
Proof.
  intros (Hh & _ & _). unfold held_keys. apply count_same.
  intros k _. apply Hh.
Qed.

Lemma same_standing_inv txn_id keys on base lm lm' :
  table_inv lm' → same_standing txn_id lm lm' →
  waited_inv txn_id keys on base lm → waited_inv txn_id keys on base lm'.
Proof.
  intros Htable Hsame [_ Hplaced Hcount].
  pose proof (same_standing_held txn_id keys lm lm' Hsame) as Hheld.
  destruct Hsame as (Hh & Hw & Hc). split; [done| |].
  - intros k. rewrite !Hh !Hw. apply Hplaced.
  - by rewrite Hc Hheld.
Qed.

Lemma ExtractKeys_modes config txn pair :
  pair ∈ ExtractKeys config txn → pair.2 ≠ UNLOCKED.
Proof.
  unfold ExtractKeys.
  intros [Hin|Hin]%elem_of_app;
    apply list_elem_of_fmap in Hin as (kv & -> & _); done.
Qed.

Lemma ExtractKeys_NoDup config txn :
  NoDup (read_set txn).*1 → NoDup (write_set txn).*1 →
  NoDup (ExtractKeys config txn).*1.
Proof.
  intros Hr Hw. unfold ExtractKeys. rewrite fmap_app -!list_fmap_compose.
  assert (∀ (P : Key * Value → Prop) `{!∀ x, Decision (P x)} (l : pbmap Value),
            NoDup l.*1 → NoDup (filter P l).*1) as Hfilter.
  { intros P ? l. induction l as [|x l IH]; [done|].
    rewrite fmap_cons. intros [Hx Hl]%NoDup_cons.
    destruct (decide (P x)).
    - rewrite filter_cons_True; [|done]. rewrite fmap_cons.
      apply NoDup_cons. split; [|by apply IH].
      intros (y & Hy & [_ Hin]%list_elem_of_filter)%list_elem_of_fmap.
      apply Hx. apply list_elem_of_fmap. by exists y.
    - rewrite filter_cons_False; [|done]. by apply IH. }
  apply NoDup_app. split; [by apply (Hfilter _ _ _ Hr)|]. split.
  - intros k (kv & -> & [Hloc Hkv]%list_elem_of_filter)%list_elem_of_fmap.
    intros (kv' & Heq & [_ Hkv']%list_elem_of_filter)%list_elem_of_fmap.
    simpl in *. apply andb_prop_elim in Hloc as [_ Hnot].
    apply negb_prop_elim in Hnot. apply Hnot.
    unfold pb_contains. apply bool_decide_pack.
    rewrite Heq. apply list_elem_of_fmap. by exists kv'.
  - by apply (Hfilter _ _ _ Hw).
Qed.

(** [Acquire*Lock] for a transaction that is not in the entry: it holds the
    lock when the answer is true and waits for it otherwise. *)
Lemma Acquire_own (acquire : TxnId → LockState → LockState * bool) txn_id ls :
  acquire = AcquireReadLock ∨ acquire = AcquireWriteLock →
  txn_id ∉ holders_ ls → txn_id ∉ waiters_ ls →
  (acquire txn_id ls).2 = true ∧
    txn_id ∈ holders_ (acquire txn_id ls).1 ∧
    txn_id ∉ waiters_ (acquire txn_id ls).1
  ∨ (acquire txn_id ls).2 = false ∧
    txn_id ∉ holders_ (acquire txn_id ls).1 ∧
    txn_id ∈ waiters_ (acquire txn_id ls).1.
Proof.
  intros [-> | ->] Hh Hw.
  - unfold AcquireReadLock. destruct (mode ls); simpl.
    + left. split; [done|]. split; [set_solver | done].
    + case_decide; simpl.
      * left. split; [done|]. split; [set_solver | done].
      * right. split; [done|]. split; [done | set_solver].
    + right. split; [done|]. split; [done | set_solver].
  - unfold AcquireWriteLock. destruct (mode ls); simpl.
    + left. split; [done|]. split; [set_solver | done].
    + right. split; [done|]. split; [done | set_solver].
    + right. split; [done|]. split; [done | set_solver].
Qed.

(** [Acquire*Lock] by another transaction leaves [txn_id] where it is. *)
Lemma Acquire_other (acquire : TxnId → LockState → LockState * bool)
    txn_id other ls :
  acquire = AcquireReadLock ∨ acquire = AcquireWriteLock →
  other ≠ txn_id →
  (txn_id ∈ holders_ (acquire other ls).1 ↔ txn_id ∈ holders_ ls) ∧
  (txn_id ∈ waiters_ (acquire other ls).1 ↔ txn_id ∈ waiters_ ls).
Proof.
  intros [-> | ->] Hne.
  - unfold AcquireReadLock. destruct (mode ls); simpl; [set_solver| |set_solver].
    case_decide; simpl; set_solver.
  - unfold AcquireWriteLock. destruct (mode ls); simpl; set_solver.
Qed.

Lemma Acquire_inv (acquire : TxnId → LockState → LockState * bool) txn_id ls :
  acquire = AcquireReadLock ∨ acquire = AcquireWriteLock →
  lock_inv ls → lock_inv (acquire txn_id ls).1.
Proof.
  intros [-> | ->]; [apply AcquireReadLock_inv | apply AcquireWriteLock_inv].
Qed.

(** [Release] by another transaction: either [txn_id] is among the new
    holders, and it waited before and holds now, or it stays where it is. *)
Lemma Release_other txn_id other ls :
  other ≠ txn_id → lock_inv ls →
  ∃ ls' new_holders,
    Release other ls = Some (ls', new_holders) ∧ lock_inv ls' ∧
    ((txn_id ∈ new_holders ∧
      txn_id ∉ holders_ ls ∧ txn_id ∈ waiters_ ls ∧
      txn_id ∈ holders_ ls' ∧ txn_id ∉ waiters_ ls')
     ∨ (txn_id ∉ new_holders ∧
        (txn_id ∈ holders_ ls' ↔ txn_id ∈ holders_ ls) ∧
        (txn_id ∈ waiters_ ls' ↔ txn_id ∈ waiters_ ls))).
Proof.
  intros Hne Hinv.
  destruct (Release_spec other ls Hinv) as (ls' & nh & Hrun & Hinv' & Hcases).
  exists ls', nh. split; [done|]. split; [done|].
  destruct Hcases as [(Hin & -> & _ & Hh & Hw)
                     |[(Hin & Hrest & -> & _ & Hh & Hw)
                     |[(Hin & Hrest & Hws & -> & ->)
                     |(Hin & Hrest & Hws & -> & ->)]]].
  - right. rewrite Hh Hw. set_solver.
  - right. rewrite Hh Hw. set_solver.
  - right. simpl. set_solver.
  - simpl. destruct (decide (txn_id ∈ waiters_ ls)) as [Hw|Hw].
    + left. set_solver.
    + right. set_solver.
Qed.

Section Waited.
Variable config_ : Configuration.
Variable txn_id : TxnId.
Variable keys : list Key.
Hypothesis keys_nodup : NoDup keys.

(** *** Calls of other transactions that acquire or register *)

Lemma acquire_key_other other lm pair :
  other ≠ txn_id → pair.2 ≠ UNLOCKED → table_inv lm →
  ∃ lm', acquire_key other lm pair = Some lm' ∧
         table_inv lm' ∧ same_standing txn_id lm lm'.
Proof.
  intros Hne Hmode Htable. destruct pair as [key md]. simpl in Hmode.
  pose proof (lock_entry_inv lm key Htable) as Hentry.
  assert (∃ acquire,
            (acquire = AcquireReadLock ∨ acquire = AcquireWriteLock) ∧
            match md return option (TxnId → LockState → LockState * bool) with
            | READ => Some AcquireReadLock
            | WRITE => Some AcquireWriteLock
            | UNLOCKED => None
            end = Some acquire) as (acquire & Hacq & Heq).
  { destruct md; [done | by eexists; split; [left|] | by eexists; split; [right|]]. }
  unfold acquire_key. rewrite Heq. simpl.
  destruct (IsQueued other (lock_entry key lm)).
  - eexists. split; [done|]. split; [by apply table_inv_insert|].
    split; [|split]; [| |done]; intros k; rewrite lock_entry_insert;
      case_decide; by subst.
  - destruct (acquire other (lock_entry key lm)) as [ls' b] eqn:Hrun.
    pose proof (Acquire_other acquire txn_id other (lock_entry key lm) Hacq Hne)
      as [Hh Hw].
    pose proof (Acquire_inv acquire other (lock_entry key lm) Hacq Hentry)
      as Hinv'.
    rewrite Hrun in Hh, Hw, Hinv'. simpl in *.
    eexists. split; [done|]. split; [by apply table_inv_insert|].
    split; [|split].
    + intros k. rewrite lock_entry_insert. case_decide; by subst.
    + intros k. rewrite lock_entry_insert. case_decide; by subst.
    + unfold locks_waited. simpl. destruct b; [|done].
      by rewrite lookup_insert_ne.
Qed.

Lemma acquire_fold_other other pairs lm :
  other ≠ txn_id → Forall (λ pair, pair.2 ≠ UNLOCKED) pairs → table_inv lm →
  ∃ lm',
    foldl (λ (acc : option DeterministicLockManager) pair,
             acc ≫= λ lm0, acquire_key other lm0 pair) (Some lm) pairs
    = Some lm' ∧
    table_inv lm' ∧ same_standing txn_id lm lm'.
Proof.
  intros Hne. revert lm.
  induction pairs as [|pair pairs IH]; intros lm Hmodes Htable.
  - exists lm. split; [done|]. split; [done|]. apply same_standing_refl.
  - apply Forall_cons in Hmodes as [Hmode Hmodes].
    destruct (acquire_key_other other lm pair Hne Hmode Htable)
      as (lm1 & Hstep & Htable1 & Hsame1).
    destruct (IH lm1 Hmodes Htable1) as (lm' & Hrun & Htable' & Hsame').
    exists lm'. simpl. rewrite Hstep /=. split; [done|]. split; [done|].
    by eapply same_standing_trans.
Qed.

Lemma counts_other other lm nlw :
  other ≠ txn_id →
  (∀ i, i ≠ other → nlw !! i = num_locks_waited_ lm !! i) →
  same_standing txn_id lm
    {| lock_table_ := lock_table_ lm; num_locks_waited_ := nlw |}.
Proof.
  intros Hne Hnlw. split; [done|]. split; [done|].
  unfold locks_waited. simpl. rewrite Hnlw; [done|]. congruence.
Qed.

Lemma AcquireLocks_other txn lm :
  id txn ≠ txn_id → table_inv lm →
  ∃ lm' b, AcquireLocks config_ txn lm = Some (lm', b) ∧
           table_inv lm' ∧ same_standing txn_id lm lm'.
Proof.
  intros Hne Htable. unfold AcquireLocks.
  destruct (ExtractKeys config_ txn) as [|p ps] eqn:Hkeys.
  - exists lm, false. split; [done|]. split; [done|]. apply same_standing_refl.
  - destruct (acquire_fold_other (id txn) (p :: ps) lm Hne) as
      (lm1 & Hrun & Htable1 & Hsame1); [|done|].
    { apply Forall_forall. intros pair Hpair.
      apply (ExtractKeys_modes config_ txn). by rewrite Hkeys. }
    rewrite Hrun /=. case_decide.
    + eexists _, true. split; [done|]. split; [by apply table_inv_counts|].
      eapply same_standing_trans; [done|].
      apply (counts_other (id txn)); [done|]. intros i Hi.
      by rewrite lookup_delete_ne.
    + by exists lm1, false.
Qed.

Lemma RegisterTxn_other txn lm :
  id txn ≠ txn_id → table_inv lm →
  table_inv (RegisterTxn config_ txn lm).1 ∧
  same_standing txn_id lm (RegisterTxn config_ txn lm).1.
Proof.
  intros Hne Htable. unfold RegisterTxn.
  destruct (ExtractKeys config_ txn) as [|p ps]; simpl.
  - split; [done|]. apply same_standing_refl.
  - case_decide; simpl; (split; [by apply table_inv_counts|]);
      apply (counts_other (id txn)); try done; intros i Hi.
    + by rewrite lookup_delete_ne.
    + by rewrite lookup_insert_ne.
Qed.

(** *** [ReleaseLocks] of another transaction *)

(** The entry written back by one iteration of [ReleaseLocks], evicted or
    not, reads as the entry [Release] returned. *)
Lemma released_entry lm key ls' nlw key' :
  table_inv lm → lock_inv ls' →
  let table := <[key := ls']> (lock_table_ lm) in
  let lm' :=
    {| lock_table_ :=
         if decide (mode ls' = UNLOCKED ∧ LOCK_TABLE_SIZE_LIMIT < Z.of_nat (size table))
         then delete key table else table;
       num_locks_waited_ := nlw |} in
  table_inv lm' ∧
  lock_entry key' lm' = if decide (key = key') then ls' else lock_entry key' lm.
Proof.
  intros Htable Hls' table lm'. subst lm'. case_decide as Hevict.
  - destruct Hevict as [Hmode _]. split.
    + intros k ls. simpl. rewrite lookup_delete. case_decide; [done|].
      subst table. rewrite lookup_insert_ne; [|done]. apply Htable.
    + unfold lock_entry. simpl. rewrite lookup_delete. case_decide as Hk.
      * simpl. symmetry. by apply lock_inv_unlocked.
      * subst table. by rewrite lookup_insert_ne.
  - split; [by apply table_inv_insert | apply lock_entry_insert].
Qed.

Lemma release_key_other other on base lm ready_txns pair :
  other ≠ txn_id → (∀ k, on k → k ∈ keys) →
  waited_inv txn_id keys on base lm →
  ∃ lm' ready_txns',
    release_key config_ other (lm, ready_txns) pair = Some (lm', ready_txns') ∧
    waited_inv txn_id keys on base lm' ∧
    (held_keys txn_id keys lm ≤ held_keys txn_id keys lm')%nat ∧
    (txn_id ∈ ready_txns' ↔
     txn_id ∈ ready_txns ∨
     ((held_keys txn_id keys lm < held_keys txn_id keys lm')%nat ∧
      base = Z.of_nat (held_keys txn_id keys lm'))).
Proof.
  intros Hne Hon Hinv. destruct pair as [key md]. unfold release_key. simpl.
  destruct (KeyIsInLocalPartition config_ key); simpl.
  2:{ exists lm, ready_txns. split; [done|]. split; [done|]. split; [done|].
      split; [by left | intros [?|[? _]]; [done|lia]]. }
  destruct Hinv as [Htable Hplaced Hcount].
  pose proof (lock_entry_inv lm key Htable) as Hentry.
  destruct (Release_other txn_id other (lock_entry key lm) Hne Hentry)
    as (ls' & nh & -> & Hls' & Hcases). simpl.
  pose proof (wake_holder_fold txn_id (elements nh) (num_locks_waited_ lm)
                ready_txns (NoDup_elements nh)) as Hwake.
  destruct (foldl wake_holder (num_locks_waited_ lm, ready_txns) (elements nh))
    as [nlw' ready'] eqn:Hfold.
  simpl in Hwake. destruct Hwake as [Hwoke Hslept].
  eexists _, ready'. split; [done|].
  match goal with |- waited_inv _ _ _ _ ?lm0 ∧ _ => set (lm' := lm0) end.
  assert (table_inv lm' ∧
          ∀ key', lock_entry key' lm'
                  = if decide (key = key') then ls' else lock_entry key' lm)
    as [Htable' Hentry'].
  { split; [by apply (released_entry lm key ls' nlw' key)|].
    intros key'. by apply (released_entry lm key ls' nlw' key'). }
  assert (locks_waited txn_id lm' = default 0 (nlw' !! txn_id)) as Hcount'
    by done.
  fold (locks_waited txn_id lm) in Hwoke, Hslept.
  destruct Hcases as [(Hnew & Hnh & Hnw & Hh' & Hw') | (Hnew & Hh & Hw)].
  - destruct (Hwoke (proj2 (elem_of_elements _ _) Hnew)) as [Hn Hready].
    assert (key ∈ keys) as Hkey.
    { apply Hon. apply (Hplaced key). by right. }
    assert (held_keys txn_id keys lm' = S (held_keys txn_id keys lm)) as Hheld.
    { unfold held_keys. apply (count_gain _ _ keys key); try done.
      - rewrite Hentry'. by rewrite decide_True.
      - intros k Hk. rewrite Hentry'. by rewrite decide_False. }
    split; [split|].
    + done.
    + intros k. rewrite Hentry'. case_decide as Hk; [|apply Hplaced].
      subst k. split; [done|]. split; [|by left].
      intros _. apply (Hplaced key). by right.
    + rewrite Hcount' Hn Hcount Hheld. lia.
    + split; [lia|]. rewrite Hready Hcount Hheld.
      split; intros [?|?]; [by left | right; lia | by left | right; lia].
  - assert (¬ txn_id ∈ elements nh) as Hout by by rewrite elem_of_elements.
    destruct (Hslept Hout) as [Hn Hready].
    assert (same_standing txn_id lm lm') as Hsame.
    { split; [|split].
      - intros k. rewrite Hentry'. case_decide; by subst.
      - intros k. rewrite Hentry'. case_decide; by subst.
      - by rewrite Hcount' Hn. }
    rewrite (same_standing_held txn_id keys lm lm' Hsame).
    split; [by apply (same_standing_inv txn_id keys on base lm lm')|].
    split; [done|]. rewrite Hready. split; [by left | intros [?|[? _]]; [done|lia]].
Qed.

Lemma held_keys_le lm : (held_keys txn_id keys lm ≤ length keys)%nat.
Proof. unfold held_keys. apply length_filter. Qed.

Lemma release_fold_other other on base pairs lm ready_txns :
  other ≠ txn_id → (∀ k, on k → k ∈ keys) →
  base = 0 ∨ base = Z.of_nat (length keys) →
  waited_inv txn_id keys on base lm →
  ∃ lm' ready_txns',
    foldl (λ (acc : option (DeterministicLockManager * gset TxnId)) pair,
             acc ≫= λ a, release_key config_ other a pair)
          (Some (lm, ready_txns)) pairs
    = Some (lm', ready_txns') ∧
    waited_inv txn_id keys on base lm' ∧
    (held_keys txn_id keys lm ≤ held_keys txn_id keys lm')%nat ∧
    (txn_id ∈ ready_txns' ↔
     txn_id ∈ ready_txns ∨
     ((held_keys txn_id keys lm < held_keys txn_id keys lm')%nat ∧
      base = Z.of_nat (held_keys txn_id keys lm'))).
Proof.
  intros Hne Hon Hbase. revert lm ready_txns.
  induction pairs as [|pair pairs IH]; intros lm ready_txns Hinv.
  - exists lm, ready_txns. split; [done|]. split; [done|]. split; [done|].
    split; [by left | intros [?|[? _]]; [done|lia]].
  - destruct (release_key_other other on base lm ready_txns pair Hne Hon Hinv)
      as (lm1 & ready1 & Hstep & Hinv1 & Hle1 & Hready1).
    destruct (IH lm1 ready1 Hinv1) as (lm' & ready' & Hrun & Hinv' & Hle' & Hready').
    exists lm', ready'. cbn [foldl].
    assert ((Some (lm, ready_txns) ≫= λ a, release_key config_ other a pair)
            = Some (lm1, ready1)) as -> by exact Hstep.
    split; [done|]. split; [done|].
    split; [lia|]. rewrite Hready' Hready1.
    pose proof (held_keys_le lm') as Hmax.
    split.
    + intros [[?|[? ?]]|[? ?]]; [by left | right; lia | right; lia].
    + intros [?|[? ?]]; [by left; left|].
      destruct (decide (held_keys txn_id keys lm1 < held_keys txn_id keys lm')%nat).
      * by right.
      * left. right. lia.
Qed.

Lemma ReleaseLocks_other txn on base lm :
  id txn ≠ txn_id → (∀ k, on k → k ∈ keys) →
  base = 0 ∨ base = Z.of_nat (length keys) →
  waited_inv txn_id keys on base lm →
  ∃ lm' ready_txns,
    ReleaseLocks config_ txn lm = Some (lm', ready_txns) ∧
    waited_inv txn_id keys on base lm' ∧
    (held_keys txn_id keys lm ≤ held_keys txn_id keys lm')%nat ∧
    (txn_id ∈ ready_txns ↔
     (held_keys txn_id keys lm < held_keys txn_id keys lm')%nat ∧
     base = Z.of_nat (held_keys txn_id keys lm')).
Proof.
  intros Hne Hon Hbase Hinv. unfold ReleaseLocks.
  destruct (release_fold_other (id txn) on base (ExtractKeys config_ txn) lm ∅
              Hne Hon Hbase Hinv)
    as (lm1 & ready & -> & Hinv1 & Hle & Hready).
  simpl. eexists _, ready. split; [done|].
  assert (same_standing txn_id lm1
            {| lock_table_ := lock_table_ lm1;
               num_locks_waited_ := delete (id txn) (num_locks_waited_ lm1) |})
    as Hsame.
  { apply (counts_other (id txn)); [done|]. intros i Hi.
    by rewrite lookup_delete_ne. }
  rewrite (same_standing_held _ _ _ _ Hsame).
  split; [|split; [done|]].
  - eapply same_standing_inv; [|exact Hsame|done].
    apply table_inv_counts. by destruct Hinv1.
  - rewrite Hready. split; [intros [?%not_elem_of_empty|?]; done | by right].
Qed.

(** *** The calls of the transaction itself *)

Lemma acquire_key_own done base lm pair :
  pair.2 ≠ UNLOCKED → pair.1 ∈ keys → pair.1 ∉ done →
  waited_inv txn_id keys (λ k, k ∈ done) base lm →
  ∃ lm', acquire_key txn_id lm pair = Some lm' ∧
         waited_inv txn_id keys (λ k, k ∈ done ++ [pair.1]) base lm'.
Proof.
  intros Hmode Hkey Hfresh [Htable Hplaced Hcount].
  destruct pair as [key md]. simpl in *.
  pose proof (lock_entry_inv lm key Htable) as Hentry.
  assert (txn_id ∉ holders_ (lock_entry key lm) ∧
          txn_id ∉ waiters_ (lock_entry key lm)) as [Hnh Hnw].
  { split; intros Hin; apply Hfresh; apply (Hplaced key); [by left | by right]. }
  assert (∃ acquire,
            (acquire = AcquireReadLock ∨ acquire = AcquireWriteLock) ∧
            match md return option (TxnId → LockState → LockState * bool) with
            | READ => Some AcquireReadLock
            | WRITE => Some AcquireWriteLock
            | UNLOCKED => None
            end = Some acquire) as (acquire & Hacq & Heq).
  { destruct md; [done | by eexists; split; [left|] | by eexists; split; [right|]]. }
  unfold acquire_key. rewrite Heq. simpl.
  assert (IsQueued txn_id (lock_entry key lm) = false) as ->.
  { unfold IsQueued. by rewrite !bool_decide_false. }
  pose proof (Acquire_own acquire txn_id (lock_entry key lm) Hacq Hnh Hnw) as Hown.
  pose proof (Acquire_inv acquire txn_id (lock_entry key lm) Hacq Hentry) as Hinv'.
  destruct (acquire txn_id (lock_entry key lm)) as [ls' b]. simpl in *.
  eexists. split; [done|].
  match goal with |- waited_inv _ _ _ _ ?lm0 => set (lm' := lm0) end.
  assert (∀ key', lock_entry key' lm'
                  = if decide (key = key') then ls' else lock_entry key' lm)
    as Hentry' by (intros key'; apply lock_entry_insert).
  assert (placed_on txn_id (λ k, k ∈ done ++ [key]) lm') as Hplaced'.
  { intros k. rewrite Hentry'. case_decide as Hk.
    - subst k. split; [|split].
      + destruct Hown as [(_ & _ & ?)|(_ & ? & _)]; done.
      + intros _. apply elem_of_app. right. by apply list_elem_of_singleton.
      + intros _. destruct Hown as [(_ & ? & _)|(_ & _ & ?)]; [by left | by right].
    - destruct (Hplaced k) as (H1 & H2 & H3). split; [done|]. split.
      + intros Hin. apply elem_of_app. left. by apply H2.
      + intros [Hin|Hin%list_elem_of_singleton]%elem_of_app; [by apply H3|].
        congruence. }
  destruct Hown as [(-> & Hh & Hw)|(-> & Hh & Hw)].
  - assert (held_keys txn_id keys lm' = S (held_keys txn_id keys lm)) as Hheld.
    { unfold held_keys. apply (count_gain _ _ keys key); try done.
      - rewrite Hentry'. by rewrite decide_True.
      - intros k Hk. rewrite Hentry'. by rewrite decide_False. }
    assert (locks_waited txn_id lm' = locks_waited txn_id lm - 1) as Hcount'.
    { unfold locks_waited at 1. subst lm'. simpl. by rewrite lookup_insert_eq. }
    split; [by apply table_inv_insert | done |].
    rewrite Hcount' Hcount Hheld. lia.
  - assert (held_keys txn_id keys lm' = held_keys txn_id keys lm) as Hheld.
    { unfold held_keys. apply count_same. intros k _. rewrite Hentry'.
      case_decide as Hk; [|done]. subst k. split; intros ?; done. }
    split; [by apply table_inv_insert | done |].
    by rewrite Hheld -Hcount.
Qed.

Lemma acquire_fold_own done base pairs lm :
  NoDup (done ++ pairs.*1) →
  Forall (λ pair, pair.2 ≠ UNLOCKED ∧ pair.1 ∈ keys) pairs →
  waited_inv txn_id keys (λ k, k ∈ done) base lm →
  ∃ lm',
    foldl (λ (acc : option DeterministicLockManager) pair,
             acc ≫= λ lm0, acquire_key txn_id lm0 pair) (Some lm) pairs
    = Some lm' ∧
    waited_inv txn_id keys (λ k, k ∈ done ++ pairs.*1) base lm'.
Proof.
  revert done lm. induction pairs as [|pair pairs IH]; intros done lm Hnd Hall Hinv.
  - exists lm. simpl. by rewrite app_nil_r.
  - apply Forall_cons in Hall as [[Hmode Hkey] Hall].
    rewrite fmap_cons in Hnd.
    assert (pair.1 ∉ done) as Hfresh.
    { apply NoDup_app in Hnd as (_ & Hdisj & _). intros Hin.
      apply (Hdisj _ Hin). by left. }
    destruct (acquire_key_own done base lm pair Hmode Hkey Hfresh Hinv)
      as (lm1 & Hstep & Hinv1).
    destruct (IH (done ++ [pair.1]) lm1) as (lm' & Hrun & Hinv'); [|done|done|].
    { by rewrite -app_assoc. }
    exists lm'. cbn [foldl].
    assert ((Some lm ≫= λ lm0, acquire_key txn_id lm0 pair) = Some lm1) as ->
      by exact Hstep.
    split; [done|]. by rewrite -app_assoc /= in Hinv'.
Qed.

Lemma AcquireLocks_own txn base lm :
  id txn = txn_id → (ExtractKeys config_ txn).*1 = keys → keys ≠ [] →
  waited_inv txn_id keys (λ k, k ∈ []) base lm →
  ∃ lm' b,
    AcquireLocks config_ txn lm = Some (lm', b) ∧
    waited_inv txn_id keys (λ k, k ∈ keys) base lm' ∧
    (b = true ↔ base = Z.of_nat (held_keys txn_id keys lm')).
Proof.
  intros Hid Hkeys Hne Hinv. unfold AcquireLocks. rewrite Hid.
  destruct (ExtractKeys config_ txn) as [|p ps] eqn:Hex.
  { simpl in Hkeys. congruence. }
  destruct (acquire_fold_own [] base (p :: ps) lm) as (lm1 & -> & Hinv1).
  - simpl. rewrite -fmap_cons Hkeys. exact keys_nodup.
  - apply Forall_forall. intros pair Hpair. split.
    + apply (ExtractKeys_modes config_ txn). by rewrite Hex.
    + rewrite -Hkeys. apply list_elem_of_fmap. by exists pair.
  - done.
  - simpl in Hinv1. rewrite -fmap_cons Hkeys in Hinv1. simpl.
    destruct Hinv1 as [Htable Hplaced Hcount].
    case_decide as Hzero.
    + eexists _, true. split; [done|].
      assert (same_standing txn_id lm1
                {| lock_table_ := lock_table_ lm1;
                   num_locks_waited_ := delete txn_id (num_locks_waited_ lm1) |})
        as Hsame.
      { split; [done|]. split; [done|]. unfold locks_waited at 1. simpl.
        by rewrite lookup_delete_eq /= Hzero. }
      rewrite (same_standing_held _ _ _ _ Hsame). split.
      * eapply same_standing_inv; [|exact Hsame|done]. by apply table_inv_counts.
      * split; [intros _; lia | done].
    + exists lm1, false. split; [done|]. split; [done|].
      split; [done | intros ?; lia].
Qed.

Lemma RegisterTxn_own txn on base lm :
  id txn = txn_id → (ExtractKeys config_ txn).*1 = keys → keys ≠ [] →
  waited_inv txn_id keys on base lm →
  waited_inv txn_id keys on (base + Z.of_nat (length keys))
             (RegisterTxn config_ txn lm).1 ∧
  held_keys txn_id keys (RegisterTxn config_ txn lm).1
  = held_keys txn_id keys lm ∧
  ((RegisterTxn config_ txn lm).2 = true ↔
   base + Z.of_nat (length keys) = Z.of_nat (held_keys txn_id keys lm)).
Proof.
  intros Hid Hkeys Hne [Htable Hplaced Hcount]. unfold RegisterTxn. rewrite Hid.
  assert (length (ExtractKeys config_ txn) = length keys) as Hlen.
  { by rewrite -Hkeys length_fmap. }
  destruct (ExtractKeys config_ txn) as [|p ps] eqn:Hex.
  { simpl in Hkeys. congruence. }
  rewrite Hlen.
  assert (∀ nlw, held_keys txn_id keys
                   {| lock_table_ := lock_table_ lm; num_locks_waited_ := nlw |}
                 = held_keys txn_id keys lm) as Hheld by done.
  case_decide as Hzero; simpl; rewrite Hheld.
  - split; [|split; [done|]].
    + split; [by apply table_inv_counts | done |].
      unfold locks_waited at 1. simpl. rewrite lookup_delete_eq /= Hheld. lia.
    + split; [intros _; lia | done].
  - split; [|split; [done|]].
    + split; [by apply table_inv_counts | done |].
      unfold locks_waited at 1. simpl. rewrite lookup_insert_eq /= Hheld. lia.
    + split; [done | intros ?; lia].
Qed.

(** *** Calls of other transactions, one and many *)

Lemma returned_ready_cons a answers :
  returned_ready txn_id (a :: answers) ↔
  returned_ready txn_id [a] ∨ returned_ready txn_id answers.
Proof.
  unfold returned_ready. split.
  - intros (s & [<-|Hin]%elem_of_cons & Hs).
    + left. exists s. split; [by left | done].
    + right. by exists s.
  - intros [(s & Hin & Hs)|(s & Hin & Hs)].
    + apply list_elem_of_singleton in Hin as <-. exists s. split; [by left|done].
    + exists s. split; [by right | done].
Qed.

Lemma other_call op on base lm :
  id (op_txn op) ≠ txn_id → (∀ k, on k → k ∈ keys) →
  base = 0 ∨ base = Z.of_nat (length keys) →
  waited_inv txn_id keys on base lm →
  ∃ lm' a,
    lm_call config_ lm op = Some (lm', a) ∧
    waited_inv txn_id keys on base lm' ∧
    (held_keys txn_id keys lm ≤ held_keys txn_id keys lm')%nat ∧
    (returned_ready txn_id [a] ↔
     (held_keys txn_id keys lm < held_keys txn_id keys lm')%nat ∧
     base = Z.of_nat (held_keys txn_id keys lm')).
Proof.
  intros Hne Hon Hbase Hinv. destruct op as [txn|txn|txn]; simpl in *.
  - destruct (RegisterTxn_other txn lm Hne) as [Htable Hsame].
    { by destruct Hinv. }
    destruct (RegisterTxn config_ txn lm) as [lm' b]. simpl in *.
    exists lm', (Answered b). split; [done|].
    rewrite (same_standing_held _ _ _ _ Hsame).
    split; [by eapply same_standing_inv|]. split; [done|].
    split; [|intros [? _]; lia].
    intros (s & Hin%list_elem_of_singleton & _). discriminate Hin.
  - destruct (AcquireLocks_other txn lm Hne) as (lm' & b & -> & Htable & Hsame).
    { by destruct Hinv. }
    exists lm', (Answered b). split; [done|].
    rewrite (same_standing_held _ _ _ _ Hsame).
    split; [by eapply same_standing_inv|]. split; [done|].
    split; [|intros [? _]; lia].
    intros (s & Hin%list_elem_of_singleton & _). discriminate Hin.
  - destruct (ReleaseLocks_other txn on base lm Hne Hon Hbase Hinv)
      as (lm' & ready & -> & Hinv' & Hle & Hready).
    exists lm', (Ready ready). split; [done|]. split; [done|]. split; [done|].
    rewrite -Hready. split.
    + intros (s & Hin%list_elem_of_singleton & Hs). by injection Hin as <-.
    + intros Hs. exists ready. split; [by left | done].
Qed.

Lemma other_calls ops on base lm :
  Forall (λ op, id (op_txn op) ≠ txn_id) ops → (∀ k, on k → k ∈ keys) →
  base = 0 ∨ base = Z.of_nat (length keys) →
  waited_inv txn_id keys on base lm →
  ∃ lm' answers,
    lm_calls config_ ops lm = Some (lm', answers) ∧
    waited_inv txn_id keys on base lm' ∧
    (held_keys txn_id keys lm ≤ held_keys txn_id keys lm')%nat ∧
    (returned_ready txn_id answers ↔
     (held_keys txn_id keys lm < held_keys txn_id keys lm')%nat ∧
     base = Z.of_nat (held_keys txn_id keys lm')).
Proof.
  intros Hops Hon Hbase. revert lm.
  induction ops as [|op ops IH]; intros lm Hinv.
  - exists lm, []. split; [done|]. split; [done|]. split; [done|].
    split; [|intros [? _]; lia].
    by intros (s & ?%elem_of_nil & _).
  - apply Forall_cons in Hops as [Hop Hops].
    destruct (other_call op on base lm Hop Hon Hbase Hinv)
      as (lm1 & a & Hcall & Hinv1 & Hle1 & Hready1).
    destruct (IH Hops lm1 Hinv1) as (lm' & answers & Hrun & Hinv' & Hle' & Hready').
    exists lm', (a :: answers). simpl. rewrite Hcall /= Hrun /=.
    split; [done|]. split; [done|]. split; [lia|].
    rewrite returned_ready_cons Hready1 Hready'.
    pose proof (held_keys_le lm') as Hmax.
    split.
    + intros [[? ?]|[? ?]]; lia.
    + intros [? ?].
      destruct (decide (held_keys txn_id keys lm1 < held_keys txn_id keys lm')%nat).
      * by right.
      * left. lia.
Qed.

End Waited.

Lemma lm_calls_app config ops1 ops2 lm lm1 answers1 :
  lm_calls config ops1 lm = Some (lm1, answers1) →
  lm_calls config (ops1 ++ ops2) lm
  = '(lm2, answers2) ← lm_calls config ops2 lm1; Some (lm2, answers1 ++ answers2).
Proof.
  revert lm answers1. induction ops1 as [|op ops1 IH]; intros lm answers1.
  - intros [= <- <-]. simpl. by destruct (lm_calls config ops2 lm) as [[? ?]|].
  - simpl. destruct (lm_call config lm op) as [[lm0 a]|]; [|done]. simpl.
    destruct (lm_calls config ops1 lm0) as [[lm' answers']|] eqn:Hrun; [|done].
    simpl. intros [= <- <-]. rewrite (IH _ _ Hrun).
    by destruct (lm_calls config ops2 lm') as [[? ?]|].
Qed.

Lemma waited_inv_new txn_id keys :
  waited_inv txn_id keys (λ k, k ∈ []) 0 new_lock_manager.
Proof.
  assert (∀ key, lock_entry key new_lock_manager = empty_lock) as Hentry by done.
  split.
  - intros key ls Hls. by rewrite lookup_empty in Hls.
  - intros key. rewrite Hentry. simpl. split; [done|]. split.
    + intros [?|?]; set_solver.
    + by intros ?%elem_of_nil.
  - assert (held_keys txn_id keys new_lock_manager = 0%nat) as ->; [|done].
    unfold held_keys. induction keys as [|k ks IH]; [done|].
    rewrite filter_cons_False; [exact IH|]. rewrite Hentry. simpl.
    apply not_elem_of_empty.
Qed.

(** X1.  The count of outstanding locks of a transaction with a key in the
    partition, registered once and asked to acquire its locks once, in either
    order, among calls of other transactions: every call returns, and the
    count reads zero at the end exactly when the transaction is ready, that
    is when the later of its two calls answered true or a later
    [ReleaseLocks] returned it. *)
Theorem count_zero_iff_ready config txn before between after first second :
  ExtractKeys config txn ≠ [] →
  NoDup (read_set txn).*1 → NoDup (write_set txn).*1 →
  first = CallRegisterTxn txn ∧ second = CallAcquireLocks txn ∨
  first = CallAcquireLocks txn ∧ second = CallRegisterTxn txn →
  Forall (λ op, id (op_txn op) ≠ id txn) (before ++ between ++ after) →
  ∃ lm answers1 a1 answers2 a2 answers3,
    lm_calls config (before ++ first :: between ++ second :: after)
             new_lock_manager
    = Some (lm, answers1 ++ a1 :: answers2 ++ a2 :: answers3) ∧
    length answers1 = length before ∧ length answers2 = length between ∧
    (locks_waited (id txn) lm = 0 ↔
     a2 = Answered true ∨ returned_ready (id txn) answers3).
Proof.
  intros Hkeys Hnr Hnw Horder Hothers.
  apply Forall_app in Hothers as [Hbefore Hothers].
  apply Forall_app in Hothers as [Hbetween Hafter].
  set (keys := (ExtractKeys config txn).*1).
  assert (NoDup keys) as Hnd by by apply ExtractKeys_NoDup.
  assert (keys ≠ []) as Hne.
  { unfold keys. by destruct (ExtractKeys config txn). }
  assert (∀ ops lm lm' answers,
            lm_calls config ops lm = Some (lm', answers) →
            length answers = length ops) as Hlen.
  { induction ops as [|op ops IH]; intros lm0 lm' answers; simpl.
    - by intros [= <- <-].
    - destruct (lm_call config lm0 op) as [[lm1 a]|]; [|done]. simpl.
      destruct (lm_calls config ops lm1) as [[lm2 answers']|] eqn:Hrun; [|done].
      simpl. intros [= <- <-]. simpl. f_equal. by eapply IH. }
  assert (∀ lm0 lm1 lm2 lm3 lm4 lm5 answers1 a1 answers2 a2 answers3,
    lm_calls config before lm0 = Some (lm1, answers1) →
    lm_call config lm1 first = Some (lm2, a1) →
    lm_calls config between lm2 = Some (lm3, answers2) →
    lm_call config lm3 second = Some (lm4, a2) →
    lm_calls config after lm4 = Some (lm5, answers3) →
    lm_calls config (before ++ first :: between ++ second :: after) lm0
    = Some (lm5, answers1 ++ a1 :: answers2 ++ a2 :: answers3)) as Hglue.
  { intros lm0 lm1 lm2 lm3 lm4 lm5 answers1 a1 answers2 a2 answers3
           H1 H2 H3 H4 H5.
    rewrite (lm_calls_app _ _ _ _ _ _ H1). simpl. rewrite H2 /=.
    rewrite (lm_calls_app _ _ _ _ _ _ H3). simpl. rewrite H4 /= H5 /=. done. }
  destruct (other_calls config (id txn) keys Hnd before (λ k, k ∈ []) 0
              new_lock_manager Hbefore)
    as (lm1 & answers1 & Hrun1 & Hinv1 & _ & _);
    [by intros k ?%elem_of_nil | by left | apply waited_inv_new |].
  assert (∀ k, k ∈ keys → k ∈ keys) as Hon by done.
  destruct Horder as [[-> ->]|[-> ->]].
  - (* registered first *)
    destruct (RegisterTxn_own config (id txn) keys txn _ 0 lm1 eq_refl eq_refl
                Hne Hinv1) as (Hinv2 & _ & _).
    destruct (RegisterTxn config txn lm1) as [lm2 b1] eqn:Hreg. simpl in Hinv2.
    destruct (other_calls config (id txn) keys Hnd between (λ k, k ∈ [])
                (0 + Z.of_nat (length keys)) lm2 Hbetween)
      as (lm3 & answers2 & Hrun2 & Hinv3 & _ & _);
      [by intros k ?%elem_of_nil | by right | done |].
    destruct (AcquireLocks_own config (id txn) keys Hnd txn
                (0 + Z.of_nat (length keys)) lm3 eq_refl eq_refl Hne Hinv3)
      as (lm4 & b2 & Hacq & Hinv4 & Hb2).
    destruct (other_calls config (id txn) keys Hnd after (λ k, k ∈ keys)
                (0 + Z.of_nat (length keys)) lm4 Hafter Hon)
      as (lm5 & answers3 & Hrun3 & Hinv5 & Hle & Hready); [by right | done |].
    exists lm5, answers1, (Answered b1), answers2, (Answered b2), answers3.
    split; [|split; [by eapply Hlen|split; [by eapply Hlen|]]].
    + eapply Hglue; try done; simpl; by rewrite ?Hreg ?Hacq.
    + destruct Hinv5 as [_ _ ->]. rewrite Hready.
      pose proof (held_keys_le (id txn) keys lm5) as Hmax.
      split.
      * intros Hzero.
        destruct (decide (held_keys (id txn) keys lm4
                          < held_keys (id txn) keys lm5)%nat).
        -- right. lia.
        -- left. f_equal. apply Hb2. lia.
      * intros [[= ->]|[? ?]]; [|lia].
        assert (0 + Z.of_nat (length keys)
                = Z.of_nat (held_keys (id txn) keys lm4)) by by apply Hb2.
        lia.
  - (* asked to acquire first *)
    destruct (AcquireLocks_own config (id txn) keys Hnd txn 0 lm1 eq_refl
                eq_refl Hne Hinv1)
      as (lm2 & b1 & Hacq & Hinv2 & _).
    destruct (other_calls config (id txn) keys Hnd between (λ k, k ∈ keys)
                0 lm2 Hbetween Hon)
      as (lm3 & answers2 & Hrun2 & Hinv3 & _ & _); [by left | done |].
    destruct (RegisterTxn_own config (id txn) keys txn _ 0 lm3 eq_refl eq_refl
                Hne Hinv3) as (Hinv4 & Hheld4 & Hb2).
    destruct (RegisterTxn config txn lm3) as [lm4 b2] eqn:Hreg.
    simpl in Hinv4, Hheld4, Hb2.
    destruct (other_calls config (id txn) keys Hnd after (λ k, k ∈ keys)
                (0 + Z.of_nat (length keys)) lm4 Hafter Hon)
      as (lm5 & answers3 & Hrun3 & Hinv5 & Hle & Hready); [by right | done |].
    exists lm5, answers1, (Answered b1), answers2, (Answered b2), answers3.
    split; [|split; [by eapply Hlen|split; [by eapply Hlen|]]].
    + eapply Hglue; try done; simpl; by rewrite ?Hreg ?Hacq.
    + destruct Hinv5 as [_ _ ->]. rewrite Hready.
      pose proof (held_keys_le (id txn) keys lm5) as Hmax.
      split.
      * intros Hzero.
        destruct (decide (held_keys (id txn) keys lm4
                          < held_keys (id txn) keys lm5)%nat).
        -- right. lia.
        -- left. f_equal. apply Hb2. lia.
      * intros [[= ->]|[? ?]]; [|lia].
        assert (0 + Z.of_nat (length keys)
                = Z.of_nat (held_keys (id txn) keys lm3)) by by apply Hb2.
        lia.
Qed.

Lemma count_zero_iff_ready_witness :
  ∃ lm answers1 a1 answers2 a2 answers3,
    lm_calls one_partition
      ([CallRegisterTxn txn1; CallAcquireLocks txn1]
       ++ CallRegisterTxn txn2 :: []
       ++ CallAcquireLocks txn2 :: [CallReleaseLocks txn1])
      new_lock_manager
    = Some (lm, answers1 ++ a1 :: answers2 ++ a2 :: answers3) ∧
    length answers1 = 2%nat ∧ length answers2 = 0%nat ∧
    (locks_waited 2%N lm = 0 ↔
     a2 = Answered true ∨ returned_ready 2%N answers3).
Proof.
  apply (count_zero_iff_ready one_partition txn2
           [CallRegisterTxn txn1; CallAcquireLocks txn1] []
           [CallReleaseLocks txn1] (CallRegisterTxn txn2) (CallAcquireLocks txn2)).
  - intros H. vm_compute in H. discriminate H.
  - constructor.
  - apply NoDup_singleton.
  - by left.
  - repeat constructor; intros H; vm_compute in H; discriminate H.
Defined.

(** ** What the lock manager keeps of its table *)

Lemma at_most_once_empty : at_most_once empty_lock.
Proof. split; simpl; [set_solver | constructor]. Qed.

Lemma Acquire_once (acquire : TxnId → LockState → LockState * bool) txn_id ls :
  acquire = AcquireReadLock ∨ acquire = AcquireWriteLock →
  lock_inv ls → at_most_once ls →
  txn_id ∉ holders_ ls → txn_id ∉ waiters_ ls →
  at_most_once (acquire txn_id ls).1.
Proof.
  intros Hacq [_ Hw _ _ _] [Hdisj Hnd] Hnh Hnw.
  assert (at_most_once
            {| mode := mode ls; holders_ := holders_ ls;
               waiters_ := {[txn_id]} ∪ waiters_ ls;
               waiter_queue_ := waiter_queue_ ls ++ [(txn_id, READ)] |}) as Hqueue.
  { split; simpl; [set_solver|]. rewrite fmap_app. apply NoDup_app.
    split; [done|]. split; [|apply NoDup_singleton].
    intros x Hx ->%list_elem_of_singleton. apply Hnw. rewrite Hw.
    by apply elem_of_list_to_set. }
  assert (∀ md, at_most_once
            {| mode := md; holders_ := {[txn_id]} ∪ holders_ ls;
               waiters_ := waiters_ ls; waiter_queue_ := waiter_queue_ ls |})
    as Hhold.
  { intros md. split; simpl; [set_solver | done]. }
  destruct Hacq as [-> | ->].
  - unfold AcquireReadLock. destruct (mode ls) eqn:Hm; simpl.
    + apply Hhold.
    + case_decide; simpl; [apply Hhold|]. exact Hqueue.
    + exact Hqueue.
  - unfold AcquireWriteLock. destruct (mode ls) eqn:Hm; simpl.
    + apply Hhold.
    + exact Hqueue.
    + exact Hqueue.
Qed.

Lemma Release_once txn_id ls ls' new_holders :
  lock_inv ls → at_most_once ls →
  Release txn_id ls = Some (ls', new_holders) →
  at_most_once ls' ∧ txn_id ∉ holders_ ls' ∧ txn_id ∉ waiters_ ls' ∧
  txn_id ∉ new_holders.
Proof.
  intros Hinv [Hdisj Hnd] Hrun.
  destruct (Release_spec txn_id ls Hinv) as (ls0 & nh & Hrun' & Hinv' & Hcases).
  rewrite Hrun in Hrun'. injection Hrun' as <- <-.
  destruct Hcases as [(Hin & -> & _ & Hh & Hw)
                     |[(Hin & Hrest & -> & _ & Hh & Hw)
                     |[(Hin & Hrest & Hws & -> & ->)
                     |(Hin & Hrest & Hws & -> & ->)]]].
  - split; [|set_solver]. split; [set_solver|].
    unfold Release in Hrun. rewrite decide_True in Hrun; [|done].
    injection Hrun as <-. simpl.
    clear -Hnd. induction (waiter_queue_ ls) as [|p q IH]; [constructor|].
    rewrite fmap_cons in Hnd. apply NoDup_cons in Hnd as [Hp Hq].
    destruct (decide (p.1 ≠ txn_id)).
    + rewrite filter_cons_True; [|done]. rewrite fmap_cons.
      apply NoDup_cons. split; [|by apply IH].
      intros (y & Hy & [_ Hin]%list_elem_of_filter)%list_elem_of_fmap.
      apply Hp. apply list_elem_of_fmap. by exists y.
    + rewrite filter_cons_False; [|done]. by apply IH.
  - split; [|set_solver]. split; [set_solver|].
    unfold Release in Hrun. rewrite decide_False in Hrun; [|by intros ?].
    rewrite decide_True in Hrun; [|done]. by injection Hrun as <-.
  - split; [apply at_most_once_empty | set_solver].
  - split; [split; simpl; [set_solver | constructor]|]. simpl. set_solver.
Qed.

Lemma table_sound_inv lm : table_sound lm → table_inv lm.
Proof. intros H key ls Hls. by apply (H key ls). Qed.

Lemma sound_entry lm key :
  table_sound lm →
  lock_inv (lock_entry key lm) ∧ at_most_once (lock_entry key lm).
Proof.
  intros H. unfold lock_entry.
  destruct (lock_table_ lm !! key) as [ls|] eqn:Hls; simpl.
  - by apply (H key).
  - split; [apply lock_inv_empty | apply at_most_once_empty].
Qed.

Lemma table_sound_insert lm key ls nlw :
  table_sound lm → lock_inv ls → at_most_once ls →
  table_sound {| lock_table_ := <[key := ls]> (lock_table_ lm);
                 num_locks_waited_ := nlw |}.
Proof.
  intros H Hinv Honce key' ls'. simpl.
  destruct (decide (key = key')) as [->|Hne].
  - rewrite lookup_insert_eq. by intros [= <-].
  - rewrite lookup_insert_ne; [|done]. apply H.
Qed.

Lemma table_sound_counts lm nlw :
  table_sound lm →
  table_sound {| lock_table_ := lock_table_ lm; num_locks_waited_ := nlw |}.
Proof. done. Qed.

Lemma released_sound lm key ls' nlw :
  table_sound lm → lock_inv ls' → at_most_once ls' →
  table_sound
    {| lock_table_ :=
         if decide (mode ls' = UNLOCKED ∧
                    LOCK_TABLE_SIZE_LIMIT
                    < Z.of_nat (size (<[key := ls']> (lock_table_ lm))))
         then delete key (<[key := ls']> (lock_table_ lm))
         else <[key := ls']> (lock_table_ lm);
       num_locks_waited_ := nlw |}.
Proof.
  intros Hlm Hinv Honce. case_decide.
  - intros k ls. simpl. rewrite lookup_delete. case_decide; [done|].
    rewrite lookup_insert_ne; [|done]. apply Hlm.
  - by apply table_sound_insert.
Qed.

Lemma acquire_key_sound txn_id lm pair :
  pair.2 ≠ UNLOCKED → table_sound lm →
  ∃ lm', acquire_key txn_id lm pair = Some lm' ∧ table_sound lm'.
Proof.
  intros Hmode Hlm. destruct pair as [key md]. simpl in Hmode.
  destruct (sound_entry lm key Hlm) as [Hinv Honce].
  assert (∃ acquire,
            (acquire = AcquireReadLock ∨ acquire = AcquireWriteLock) ∧
            match md return option (TxnId → LockState → LockState * bool) with
            | READ => Some AcquireReadLock
            | WRITE => Some AcquireWriteLock
            | UNLOCKED => None
            end = Some acquire) as (acquire & Hacq & Heq).
  { destruct md; [done | by eexists; split; [left|] | by eexists; split; [right|]]. }
  unfold acquire_key. rewrite Heq. simpl.
  destruct (IsQueued txn_id (lock_entry key lm)) eqn:Hqueued.
  - eexists. split; [done|]. by apply table_sound_insert.
  - apply orb_false_iff in Hqueued as [Hh%bool_decide_eq_false Hw%bool_decide_eq_false].
    pose proof (Acquire_inv acquire txn_id _ Hacq Hinv) as Hinv'.
    pose proof (Acquire_once acquire txn_id _ Hacq Hinv Honce Hh Hw) as Honce'.
    destruct (acquire txn_id (lock_entry key lm)) as [ls' b].
    eexists. split; [done|]. by apply table_sound_insert.
Qed.

Lemma AcquireLocks_sound config txn lm :
  table_sound lm →
  ∃ lm' b, AcquireLocks config txn lm = Some (lm', b) ∧ table_sound lm'.
Proof.
  intros Hlm. unfold AcquireLocks.
  destruct (ExtractKeys config txn) as [|p ps] eqn:Hkeys; [by exists lm, false|].
  assert (Forall (λ pair, pair.2 ≠ UNLOCKED) (p :: ps)) as Hmodes.
  { apply Forall_forall. intros pair Hpair.
    apply (ExtractKeys_modes config txn). by rewrite Hkeys. }
  assert (∃ lm1,
            foldl (λ (acc : option DeterministicLockManager) pair,
                     acc ≫= λ lm0, acquire_key (id txn) lm0 pair)
                  (Some lm) (p :: ps) = Some lm1 ∧ table_sound lm1)
    as (lm1 & Hrun & Hlm1).
  { clear Hkeys. revert lm Hlm.
    induction (p :: ps) as [|pair pairs IH]; intros lm Hlm; [by exists lm|].
    apply Forall_cons in Hmodes as [Hmode Hmodes].
    destruct (acquire_key_sound (id txn) lm pair Hmode Hlm) as (lm1 & Hstep & Hlm1).
    destruct (IH Hmodes lm1 Hlm1) as (lm' & Hrun & Hlm').
    exists lm'. simpl. by rewrite Hstep /=. }
  rewrite Hrun /=. case_decide; [by eexists _, true | by exists lm1, false].
Qed.

Lemma RegisterTxn_sound config txn lm :
  table_sound lm → table_sound (RegisterTxn config txn lm).1.
Proof.
  intros Hlm. unfold RegisterTxn.
  destruct (ExtractKeys config txn) as [|p ps]; [done|].
  by case_decide.
Qed.

(** One iteration of [ReleaseLocks]: the releasing transaction leaves the entry
    of the key, comes back to no other entry, and is not woken. *)
Lemma release_key_sound config txn_id lm ready_txns pair :
  table_sound lm →
  ∃ lm' ready_txns',
    release_key config txn_id (lm, ready_txns) pair = Some (lm', ready_txns') ∧
    table_sound lm' ∧
    (txn_id ∈ ready_txns' ↔ txn_id ∈ ready_txns) ∧
    (KeyIsInLocalPartition config pair.1 = true →
     txn_id ∉ holders_ (lock_entry pair.1 lm') ∧
     txn_id ∉ waiters_ (lock_entry pair.1 lm')) ∧
    (∀ key, txn_id ∉ holders_ (lock_entry key lm) ∧
            txn_id ∉ waiters_ (lock_entry key lm) →
            txn_id ∉ holders_ (lock_entry key lm') ∧
            txn_id ∉ waiters_ (lock_entry key lm')).
Proof.
  intros Hlm. destruct pair as [key md]. unfold release_key. simpl.
  destruct (KeyIsInLocalPartition config key); simpl.
  2:{ by exists lm, ready_txns. }
  destruct (sound_entry lm key Hlm) as [Hinv Honce].
  destruct (Release_spec txn_id _ Hinv) as (ls' & nh & Hrun & Hinv' & _).
  destruct (Release_once txn_id _ ls' nh Hinv Honce Hrun)
    as (Honce' & Hh & Hw & Hnh).
  rewrite Hrun /=.
  pose proof (wake_holder_fold txn_id (elements nh) (num_locks_waited_ lm)
                ready_txns (NoDup_elements nh)) as Hwake.
  destruct (foldl wake_holder (num_locks_waited_ lm, ready_txns) (elements nh))
    as [nlw' ready'] eqn:Hfold.
  simpl in Hwake. destruct Hwake as [_ Hslept].
  destruct Hslept as [_ Hready]; [by rewrite elem_of_elements|].
  eexists _, ready'. split; [done|].
  split; [by apply released_sound|]. split; [done|].
  assert (∀ key', lock_entry key'
            {| lock_table_ :=
                 if decide (mode ls' = UNLOCKED ∧
                            LOCK_TABLE_SIZE_LIMIT
                            < Z.of_nat (size (<[key := ls']> (lock_table_ lm))))
                 then delete key (<[key := ls']> (lock_table_ lm))
                 else <[key := ls']> (lock_table_ lm);
               num_locks_waited_ := nlw' |}
          = if decide (key = key') then ls' else lock_entry key' lm) as Hentry.
  { intros key'.
    by apply (released_entry lm key ls' nlw' key' (table_sound_inv lm Hlm)). }
  split.
  - intros _. rewrite Hentry. by rewrite decide_True.
  - intros key'. rewrite Hentry. clear Hentry.
    case_decide; [by intros _ | done].
Qed.

Lemma ExtractKeys_local config txn pair :
  pair ∈ ExtractKeys config txn → KeyIsInLocalPartition config pair.1 = true.
Proof.
  unfold ExtractKeys. rewrite elem_of_app !list_elem_of_fmap.
  intros [(kv & -> & [Hkv _]%list_elem_of_filter)
         |(kv & -> & [Hkv _]%list_elem_of_filter)]; simpl.
  - apply andb_prop_elim in Hkv as [Hlocal _]. by apply Is_true_eq_true.
  - by apply Is_true_eq_true.
Qed.

Lemma ReleaseLocks_sound config txn lm :
  table_sound lm →
  ∃ lm' ready_txns,
    ReleaseLocks config txn lm = Some (lm', ready_txns) ∧
    table_sound lm' ∧
    id txn ∉ ready_txns ∧
    locks_waited (id txn) lm' = 0 ∧
    (∀ key, key ∈ (ExtractKeys config txn).*1 ∨
            (id txn ∉ holders_ (lock_entry key lm) ∧
             id txn ∉ waiters_ (lock_entry key lm)) →
            id txn ∉ holders_ (lock_entry key lm') ∧
            id txn ∉ waiters_ (lock_entry key lm')).
Proof.
  intros Hlm. unfold ReleaseLocks.
  assert (∀ pairs lm0 ready0,
            table_sound lm0 →
            Forall (λ pair, KeyIsInLocalPartition config pair.1 = true) pairs →
            ∃ lm1 ready1,
              foldl (λ (acc : option (DeterministicLockManager * gset TxnId)) pair,
                       acc ≫= λ a, release_key config (id txn) a pair)
                    (Some (lm0, ready0)) pairs = Some (lm1, ready1) ∧
              table_sound lm1 ∧
              (id txn ∈ ready1 ↔ id txn ∈ ready0) ∧
              (∀ key, key ∈ pairs.*1 ∨
                      (id txn ∉ holders_ (lock_entry key lm0) ∧
                       id txn ∉ waiters_ (lock_entry key lm0)) →
                      id txn ∉ holders_ (lock_entry key lm1) ∧
                      id txn ∉ waiters_ (lock_entry key lm1))) as Hfold.
  { induction pairs as [|pair pairs IH]; intros lm0 ready0 Hlm0 Hlocal.
    - exists lm0, ready0. split; [done|]. split; [done|]. split; [done|].
      intros key [Hkey|Hkey]; [|done]. by apply elem_of_nil in Hkey.
    - apply Forall_cons in Hlocal as [Hpair Hlocal].
      destruct (release_key_sound config (id txn) lm0 ready0 pair Hlm0)
        as (lm1 & ready1 & Hstep & Hlm1 & Hready1 & Hgone & Hkeep).
      destruct (IH lm1 ready1 Hlm1 Hlocal)
        as (lm2 & ready2 & Hrun & Hlm2 & Hready2 & Hkeep2).
      exists lm2, ready2. cbn [foldl].
      assert ((Some (lm0, ready0) ≫= λ a, release_key config (id txn) a pair)
              = Some (lm1, ready1)) as -> by exact Hstep.
      split; [done|].
      split; [done|]. split; [by rewrite Hready2|].
      intros key Hkey. apply Hkeep2. rewrite fmap_cons in Hkey.
      destruct Hkey as [[->|Hkey]%elem_of_cons|Hkey].
      + right. by apply Hgone.
      + by left.
      + right. by apply Hkeep. }
  destruct (Hfold (ExtractKeys config txn) lm ∅ Hlm)
    as (lm1 & ready1 & Hrun & Hlm1 & Hready & Hgone).
  { apply Forall_forall. intros pair. apply ExtractKeys_local. }
  rewrite Hrun /=. eexists _, ready1. split; [done|].
  split; [by apply table_sound_counts|]. split; [|split].
  - rewrite Hready. apply not_elem_of_empty.
  - unfold locks_waited. simpl. by rewrite lookup_delete_eq.
  - exact Hgone.
Qed.

Lemma lm_call_sound config lm op :
  table_sound lm →
  ∃ lm' a, lm_call config lm op = Some (lm', a) ∧ table_sound lm'.
Proof.
  intros Hlm. destruct op as [txn|txn|txn]; simpl.
  - pose proof (RegisterTxn_sound config txn lm Hlm) as Hlm'.
    destruct (RegisterTxn config txn lm) as [lm' b]. by eexists _, _.
  - destruct (AcquireLocks_sound config txn lm Hlm) as (lm' & b & -> & Hlm').
    by eexists _, _.
  - destruct (ReleaseLocks_sound config txn lm Hlm)
      as (lm' & ready_txns & -> & Hlm' & _).
    by eexists _, _.
Qed.

Lemma lm_calls_sound config ops lm :
  table_sound lm →
  ∃ lm' answers,
    lm_calls config ops lm = Some (lm', answers) ∧
    length answers = length ops ∧ table_sound lm'.
Proof.
  revert lm. induction ops as [|op ops IH]; intros lm Hlm; [by exists lm, []|].
  destruct (lm_call_sound config lm op Hlm) as (lm1 & a & Hstep & Hlm1).
  destruct (IH lm1 Hlm1) as (lm' & answers & Hrun & Hlen & Hlm').
  exists lm', (a :: answers). simpl. rewrite Hstep /= Hrun /=.
  split; [done|]. split; [by rewrite Hlen | done].
Qed.

Lemma table_sound_new : table_sound new_lock_manager.
Proof. intros key ls Hls. by rewrite lookup_empty in Hls. Qed.

(** X2.  Calls of [RegisterTxn], [AcquireLocks] and [ReleaseLocks] in any number and
    order, for any transactions, on a new lock manager: every call returns
    (neither the [front()] of an empty waiter queue nor the [LOG(FATAL)] of
    [AcquireLocks] is reached), and afterwards every entry of the lock table
    satisfies the invariant of an entry, its holders and waiters are disjoint,
    and no transaction is queued twice. *)
Theorem lock_table_sound_after_calls config ops :
  ∃ lm answers,
    lm_calls config ops new_lock_manager = Some (lm, answers) ∧
    length answers = length ops ∧
    ∀ key, lock_inv (lock_entry key lm) ∧
           holders_ (lock_entry key lm) ## waiters_ (lock_entry key lm) ∧
           NoDup (waiter_queue_ (lock_entry key lm)).*1.
Proof.
  destruct (lm_calls_sound config ops new_lock_manager table_sound_new)
    as (lm & answers & Hrun & Hlen & Hlm).
  exists lm, answers. split; [done|]. split; [done|].
  intros key. by apply sound_entry.
Qed.

(** X3.  [ReleaseLocks] after any calls on a new lock manager: it returns, the
    transaction is not among the transactions it returns as ready, its count
    of outstanding locks reads zero, and it neither holds nor waits for the
    lock of any of its keys in the partition. *)
Theorem ReleaseLocks_removes_the_transaction config ops txn :
  ∃ lm answers ready_txns,
    lm_calls config (ops ++ [CallReleaseLocks txn]) new_lock_manager
    = Some (lm, answers ++ [Ready ready_txns]) ∧
    length answers = length ops ∧
    id txn ∉ ready_txns ∧
    locks_waited (id txn) lm = 0 ∧
    ∀ key, key ∈ (ExtractKeys config txn).*1 →
           id txn ∉ holders_ (lock_entry key lm) ∧
           id txn ∉ waiters_ (lock_entry key lm).
Proof.
  destruct (lm_calls_sound config ops new_lock_manager table_sound_new)
    as (lm1 & answers & Hrun & Hlen & Hlm1).
  destruct (ReleaseLocks_sound config txn lm1 Hlm1)
    as (lm & ready_txns & Hrel & _ & Hready & Hcount & Hgone).
  exists lm, answers, ready_txns.
  rewrite (lm_calls_app config ops _ _ lm1 answers Hrun). simpl.
  rewrite Hrel /=. split; [done|]. split; [done|]. split; [done|].
  split; [done|]. intros key Hkey. apply Hgone. by left.
Qed.

Lemma count_all (P : Key → Prop) `{!∀ k, Decision (P k)} (keys : list Key) :
  length (filter P keys) = length keys ↔ ∀ k, k ∈ keys → P k.
Proof.
  induction keys as [|key keys IH].
  - split; [by intros _ k ?%elem_of_nil | done].
  - pose proof (length_filter P keys) as Hle.
    destruct (decide (P key)) as [Hkey|Hkey].
    + rewrite filter_cons_True; [|done]. simpl. split.
      * intros Hlen k [->|Hk]%elem_of_cons; [done|]. apply IH; [lia|done].
      * intros Hall. f_equal. apply IH. intros k Hk. apply Hall. by right.
    + rewrite filter_cons_False; [|done]. simpl. split; [lia|].
      intros Hall. destruct Hkey. apply Hall. by left.
Qed.

Lemma count_none (P : Key → Prop) `{!∀ k, Decision (P k)} (keys : list Key) :
  length (filter P keys) = 0%nat ↔ ∀ k, k ∈ keys → ¬ P k.
Proof.
  induction keys as [|key keys IH].
  - split; [by intros _ k ?%elem_of_nil | done].
  - destruct (decide (P key)) as [Hkey|Hkey].
    + rewrite filter_cons_True; [|done]. simpl. split; [done|].
      intros Hall. destruct (Hall key); [by left | done].
    + rewrite filter_cons_False; [|done]. rewrite IH. split.
      * intros Hall k [->|Hk]%elem_of_cons; [done | by apply Hall].
      * intros Hall k Hk. apply Hall. by right.
Qed.

Lemma length_lm_calls config ops lm lm' answers :
  lm_calls config ops lm = Some (lm', answers) → length answers = length ops.
Proof.
  revert lm lm' answers.
  induction ops as [|op ops IH]; intros lm0 lm' answers; simpl.
  - by intros [= <- <-].
  - destruct (lm_call config lm0 op) as [[lm1 a]|]; [|done]. simpl.
    destruct (lm_calls config ops lm1) as [[lm2 answers']|] eqn:Hrun; [|done].
    simpl. intros [= <- <-]. simpl. f_equal. by eapply IH.
Qed.

(** X4.  A transaction with a key in the partition, registered and then asked to
    acquire its locks, among calls of other transactions: every call returns,
    and at the end the transaction holds the lock of every one of its keys
    exactly when it is ready, that is when its [AcquireLocks] answered true or
    a later [ReleaseLocks] returned it. *)
Theorem ready_iff_all_locks_held config txn before between after :
  ExtractKeys config txn ≠ [] →
  NoDup (read_set txn).*1 → NoDup (write_set txn).*1 →
  Forall (λ op, id (op_txn op) ≠ id txn) (before ++ between ++ after) →
  ∃ lm answers1 a1 answers2 a2 answers3,
    lm_calls config
      (before ++ CallRegisterTxn txn :: between ++ CallAcquireLocks txn :: after)
      new_lock_manager
    = Some (lm, answers1 ++ a1 :: answers2 ++ a2 :: answers3) ∧
    length answers1 = length before ∧ length answers2 = length between ∧
    ((∀ key, key ∈ (ExtractKeys config txn).*1 →
             id txn ∈ holders_ (lock_entry key lm)) ↔
     a2 = Answered true ∨ returned_ready (id txn) answers3).
Proof.
  intros Hkeys Hnr Hnw Hothers.
  apply Forall_app in Hothers as [Hbefore Hothers].
  apply Forall_app in Hothers as [Hbetween Hafter].
  set (keys := (ExtractKeys config txn).*1).
  assert (NoDup keys) as Hnd by by apply ExtractKeys_NoDup.
  assert (keys ≠ []) as Hne.
  { unfold keys. by destruct (ExtractKeys config txn). }
  destruct (other_calls config (id txn) keys Hnd before (λ k, k ∈ []) 0
              new_lock_manager Hbefore)
    as (lm1 & answers1 & Hrun1 & Hinv1 & _ & _);
    [by intros k ?%elem_of_nil | by left | apply waited_inv_new |].
  assert (∀ k, k ∈ keys → k ∈ keys) as Hon by done.
  destruct (RegisterTxn_own config (id txn) keys txn _ 0 lm1 eq_refl eq_refl
              Hne Hinv1) as (Hinv2 & _ & _).
  destruct (RegisterTxn config txn lm1) as [lm2 b1] eqn:Hreg. simpl in Hinv2.
  destruct (other_calls config (id txn) keys Hnd between (λ k, k ∈ [])
              (0 + Z.of_nat (length keys)) lm2 Hbetween)
    as (lm3 & answers2 & Hrun2 & Hinv3 & _ & _);
    [by intros k ?%elem_of_nil | by right | done |].
  destruct (AcquireLocks_own config (id txn) keys Hnd txn
              (0 + Z.of_nat (length keys)) lm3 eq_refl eq_refl Hne Hinv3)
    as (lm4 & b2 & Hacq & Hinv4 & Hb2).
  destruct (other_calls config (id txn) keys Hnd after (λ k, k ∈ keys)
              (0 + Z.of_nat (length keys)) lm4 Hafter Hon)
    as (lm5 & answers3 & Hrun3 & Hinv5 & Hle & Hready); [by right | done |].
  exists lm5, answers1, (Answered b1), answers2, (Answered b2), answers3.
  split; [|split; [by eapply length_lm_calls
                  |split; [by eapply length_lm_calls|]]].
  - rewrite (lm_calls_app _ _ _ _ _ _ Hrun1). simpl. rewrite Hreg /=.
    rewrite (lm_calls_app _ _ _ _ _ _ Hrun2). simpl. by rewrite Hacq /= Hrun3 /=.
  - rewrite -(count_all (λ key, id txn ∈ holders_ (lock_entry key lm5)) keys).
    fold (held_keys (id txn) keys lm5). rewrite Hready.
    pose proof (held_keys_le (id txn) keys lm5) as Hmax.
    split.
    + intros Hall.
      destruct (decide (held_keys (id txn) keys lm4
                        < held_keys (id txn) keys lm5)%nat).
      * right. lia.
      * left. f_equal. apply Hb2. lia.
    + intros [[= ->]|[? ?]]; [|lia].
      assert (0 + Z.of_nat (length keys)
              = Z.of_nat (held_keys (id txn) keys lm4)) by by apply Hb2.
      lia.
Qed.

Lemma ready_iff_all_locks_held_witness :
  ∃ lm answers1 a1 answers2 a2 answers3,
    lm_calls one_partition
      ([CallRegisterTxn txn1; CallAcquireLocks txn1]
       ++ CallRegisterTxn txn2 :: [CallRegisterTxn txn3; CallAcquireLocks txn3]
       ++ CallAcquireLocks txn2 :: [CallReleaseLocks txn1; CallReleaseLocks txn3])
      new_lock_manager
    = Some (lm, answers1 ++ a1 :: answers2 ++ a2 :: answers3) ∧
    length answers1 = 2%nat ∧ length answers2 = 2%nat ∧
    ((∀ key, key ∈ (ExtractKeys one_partition txn2).*1 →
             2%N ∈ holders_ (lock_entry key lm)) ↔
     a2 = Answered true ∨ returned_ready 2%N answers3).
Proof.
  apply (ready_iff_all_locks_held one_partition txn2
           [CallRegisterTxn txn1; CallAcquireLocks txn1]
           [CallRegisterTxn txn3; CallAcquireLocks txn3]
           [CallReleaseLocks txn1; CallReleaseLocks txn3]).
  - intros H. vm_compute in H. discriminate H.
  - constructor.
  - apply NoDup_singleton.
  - repeat constructor; intros H; vm_compute in H; discriminate H.
Defined.

(** X5.  [AcquireLocks] of a transaction with a key in the partition that no
    [RegisterTxn] came before, among calls of other transactions: it returns,
    the transaction then holds or waits for the lock of every one of its keys,
    and the answer is true exactly when it holds none of them. *)
Theorem AcquireLocks_before_RegisterTxn config txn before :
  ExtractKeys config txn ≠ [] →
  NoDup (read_set txn).*1 → NoDup (write_set txn).*1 →
  Forall (λ op, id (op_txn op) ≠ id txn) before →
  ∃ lm answers b,
    lm_calls config (before ++ [CallAcquireLocks txn]) new_lock_manager
    = Some (lm, answers ++ [Answered b]) ∧
    length answers = length before ∧
    (∀ key, key ∈ (ExtractKeys config txn).*1 →
            id txn ∈ holders_ (lock_entry key lm) ∨
            id txn ∈ waiters_ (lock_entry key lm)) ∧
    (b = true ↔
     ∀ key, key ∈ (ExtractKeys config txn).*1 →
            id txn ∉ holders_ (lock_entry key lm)).
Proof.
  intros Hkeys Hnr Hnw Hbefore.
  set (keys := (ExtractKeys config txn).*1).
  assert (NoDup keys) as Hnd by by apply ExtractKeys_NoDup.
  assert (keys ≠ []) as Hne.
  { unfold keys. by destruct (ExtractKeys config txn). }
  destruct (other_calls config (id txn) keys Hnd before (λ k, k ∈ []) 0
              new_lock_manager Hbefore)
    as (lm1 & answers1 & Hrun1 & Hinv1 & _ & _);
    [by intros k ?%elem_of_nil | by left | apply waited_inv_new |].
  destruct (AcquireLocks_own config (id txn) keys Hnd txn 0 lm1 eq_refl
              eq_refl Hne Hinv1)
    as (lm2 & b & Hacq & Hinv2 & Hb).
  exists lm2, answers1, b.
  split; [|split; [by eapply length_lm_calls|split]].
  - rewrite (lm_calls_app _ _ _ _ _ _ Hrun1). simpl. by rewrite Hacq /=.
  - intros key Hkey. by apply (wi_placed _ _ _ _ _ Hinv2 key).
  - rewrite Hb.
    rewrite -(count_none (λ key, id txn ∈ holders_ (lock_entry key lm2)) keys).
    fold (held_keys (id txn) keys lm2). lia.
Qed.

Lemma AcquireLocks_before_RegisterTxn_witness :
  ∃ lm answers b,
    lm_calls one_partition
      ([CallRegisterTxn txn2; CallAcquireLocks txn2] ++ [CallAcquireLocks txn3])
      new_lock_manager
    = Some (lm, answers ++ [Answered b]) ∧
    length answers = 2%nat ∧
    (∀ key, key ∈ (ExtractKeys one_partition txn3).*1 →
            3%N ∈ holders_ (lock_entry key lm) ∨
            3%N ∈ waiters_ (lock_entry key lm)) ∧
    (b = true ↔
     ∀ key, key ∈ (ExtractKeys one_partition txn3).*1 →
            3%N ∉ holders_ (lock_entry key lm)).
Proof.
  apply (AcquireLocks_before_RegisterTxn one_partition txn3
           [CallRegisterTxn txn2; CallAcquireLocks txn2]).
  - intros H. vm_compute in H. discriminate H.
  - apply NoDup_singleton.
  - constructor.
  - repeat constructor; intros H; vm_compute in H; discriminate H.
Defined.

(** X6.  [ExtractKeys] of a transaction whose sets have no key twice (they are
    protobuf maps): no key comes twice, and a key comes with a mode exactly
    when it is in the partition and either it is written and the mode is
    WRITE, or it is read, not written, and the mode is READ. *)
Theorem ExtractKeys_each_key_once config txn :
  NoDup (read_set txn).*1 → NoDup (write_set txn).*1 →
  NoDup (ExtractKeys config txn).*1 ∧
  ∀ key md,
    (key, md) ∈ ExtractKeys config txn ↔
    KeyIsInLocalPartition config key = true ∧
    (md = WRITE ∧ key ∈ (write_set txn).*1 ∨
     md = READ ∧ key ∈ (read_set txn).*1 ∧ key ∉ (write_set txn).*1).
Proof.
  intros Hr Hw. split; [by apply ExtractKeys_NoDup|].
  intros key md. unfold ExtractKeys. rewrite elem_of_app. split.
  - intros [(kv & [= -> ->] & [Hkv Hin]%list_elem_of_filter)%list_elem_of_fmap
           |(kv & [= -> ->] & [Hkv Hin]%list_elem_of_filter)%list_elem_of_fmap].
    + apply andb_prop_elim in Hkv as [Hlocal Hnot].
      split; [by apply Is_true_eq_true|]. right. split; [done|].
      split; [apply list_elem_of_fmap; by exists kv|].
      apply negb_prop_elim in Hnot. intros Hin'. apply Hnot.
      by apply bool_decide_pack.
    + split; [by apply Is_true_eq_true|]. left. split; [done|].
      apply list_elem_of_fmap. by exists kv.
  - intros [Hlocal [[-> (kv & -> & Hin)%list_elem_of_fmap]
                   |(-> & (kv & -> & Hin)%list_elem_of_fmap & Hnot)]].
    + right. apply list_elem_of_fmap. exists kv. split; [done|].
      apply list_elem_of_filter. split; [|done]. by apply Is_true_eq_left.
    + left. apply list_elem_of_fmap. exists kv. split; [done|].
      apply list_elem_of_filter.
      split; [|done]. apply andb_prop_intro. split.
      * by apply Is_true_eq_left.
      * apply negb_prop_intro. intros Hin'. apply Hnot.
        by apply bool_decide_unpack in Hin'.
Qed.

Lemma ExtractKeys_each_key_once_witness :
  NoDup (ExtractKeys one_partition read_and_write).*1 ∧
  ∀ key md,
    (key, md) ∈ ExtractKeys one_partition read_and_write ↔
    KeyIsInLocalPartition one_partition key = true ∧
    (md = WRITE ∧ key ∈ (write_set read_and_write).*1 ∨
     md = READ ∧ key ∈ (read_set read_and_write).*1 ∧
     key ∉ (write_set read_and_write).*1).
Proof.
  apply (ExtractKeys_each_key_once one_partition read_and_write).
  - apply NoDup_cons. split; [|apply NoDup_singleton].
    intros H%list_elem_of_singleton. discriminate H.
  - apply NoDup_singleton.
Defined.

(** ** The asynchronous log: sequences of calls *)

Lemma insert_all_spec {T} (entries : list (Z * T)) (l : AsyncLog.t T) :
  NoDup entries.*1 →
  (∀ p, p ∈ entries.*1 →
        AsyncLog.next_ l ≤ p ∧ AsyncLog.log_ l !! p = None) →
  ∃ l', insert_all entries l = Returns l' ∧
        AsyncLog.next_ l' = AsyncLog.next_ l ∧
        ∀ p x, AsyncLog.log_ l' !! p = Some x ↔
               (p, x) ∈ entries ∨ AsyncLog.log_ l !! p = Some x.
Proof.
  revert l. induction entries as [|[p0 x0] entries IH]; intros l Hnd Hfree.
  - exists l. split; [done|]. split; [done|]. intros p x.
    split; [by right | intros [?%elem_of_nil|?]; done].
  - rewrite fmap_cons in Hnd. apply NoDup_cons in Hnd as [Hp0 Hnd].
    destruct (Hfree p0) as [Hge Hnone]; [by left|].
    simpl. unfold AsyncLog.Insert.
    rewrite (proj2 (Z.ltb_ge _ _) Hge). rewrite decide_False.
    2:{ rewrite Hnone. by intros [? ?]. }
    simpl.
    destruct (IH {| AsyncLog.log_ := <[p0 := x0]> (AsyncLog.log_ l);
                    AsyncLog.next_ := AsyncLog.next_ l |} Hnd)
      as (l' & Hrun & Hnext & Hlog).
    { intros p Hp. simpl. destruct (Hfree p) as [Hge' Hnone']; [by right|].
      split; [done|]. rewrite lookup_insert_ne; [done|]. by intros ->. }
    exists l'. split; [done|]. split; [done|]. intros p x. rewrite Hlog. simpl.
    rewrite elem_of_cons. destruct (decide (p0 = p)) as [->|Hne].
    + rewrite lookup_insert_eq Hnone. split.
      * intros [?|[= ->]]; [by left; right | by left; left].
      * intros [[[= ->]|?]|?]; [by right | by left | done].
    + rewrite lookup_insert_ne; [|done]. split.
      * intros [?|?]; [by left; right | by right].
      * intros [[[= ? ?]|?]|?]; [done | by left | by right].
Qed.

Lemma next_n_spec {T} (items : list T) (start : Z) (l : AsyncLog.t T) :
  0 ≤ start → start + Z.of_nat (length items) ≤ 2 ^ 32 →
  AsyncLog.next_ l = wrap32 start →
  (∀ p x, AsyncLog.log_ l !! p = Some x ↔
          ∃ i : nat, p = start + Z.of_nat i ∧ items !! i = Some x) →
  ∃ l', next_n (length items) l = Returns (items, l') ∧
        AsyncLog.log_ l' = ∅ ∧
        AsyncLog.next_ l' = wrap32 (start + Z.of_nat (length items)).
Proof.
  revert start l.
  induction items as [|x items IH]; intros start l Hstart Hend Hnext Hlog.
  - exists l. split; [done|]. split.
    + apply map_empty. intros p. apply eq_None_not_Some. intros [x Hx].
      apply Hlog in Hx as (i & _ & Hi). by rewrite lookup_nil in Hi.
    + simpl. by rewrite Z.add_0_r.
  - simpl in Hend.
    assert (wrap32 start = start) as Hsmall.
    { unfold wrap32. apply Z.mod_small. lia. }
    rewrite Hsmall in Hnext.
    assert (AsyncLog.log_ l !! start = Some x) as Hhead.
    { apply Hlog. exists 0%nat. split; [lia | done]. }
    destruct (IH (start + 1)
                 {| AsyncLog.log_ := delete start (AsyncLog.log_ l);
                    AsyncLog.next_ := wrap32 (start + 1) |})
      as (l' & Hrun & Hempty & Hnext'); [lia | lia | done | |].
    { intros p y. simpl. rewrite lookup_delete_Some Hlog. split.
      - intros (Hne & i & -> & Hi). destruct i as [|i]; [lia|].
        exists i. split; [lia | done].
      - intros (i & -> & Hi). split; [lia|]. exists (S i). split; [lia | done]. }
    exists l'. simpl. unfold AsyncLog.Next, AsyncLog.HasNext.
    rewrite Hnext Hhead. rewrite bool_decide_true; [|by eexists].
    simpl. rewrite Hrun. simpl. split; [done|]. split; [done|].
    rewrite Hnext'. f_equal. lia.
Qed.

(** X7.  A log that starts at [start], and the items of a list inserted at the
    positions [start], [start + 1], ... in any order (the positions stay
    below 2^32): every [Insert] returns, and as many calls of [Next] as there
    are items return the items in the order of their positions, whatever the
    order of the insertions; the log is then empty, with its cursor behind the
    last position, and [HasNext] answers false. *)
Theorem AsyncLog_delivers_in_order {T} (start : Z) (items : list T)
    (entries : list (Z * T)) :
  0 ≤ start < 2 ^ 32 → start + Z.of_nat (length items) ≤ 2 ^ 32 →
  entries ≡ₚ zip (seqZ start (Z.of_nat (length items))) items →
  ∃ l l',
    insert_all entries (AsyncLog.make start) = Returns l ∧
    next_n (length items) l = Returns (items, l') ∧
    AsyncLog.log_ l' = ∅ ∧
    AsyncLog.next_ l' = wrap32 (start + Z.of_nat (length items)) ∧
    AsyncLog.HasNext l' = false.
Proof.
  intros Hstart Hend Hperm.
  assert (entries.*1 ≡ₚ seqZ start (Z.of_nat (length items))) as Hpos.
  { rewrite Hperm. rewrite fst_zip; [done|]. rewrite length_seqZ. lia. }
  assert (∀ p x, (p, x) ∈ entries ↔
                 ∃ i : nat, p = start + Z.of_nat i ∧ items !! i = Some x)
    as Hentries.
  { intros p x. rewrite Hperm list_elem_of_lookup. split.
    - intros (i & Hi). apply lookup_zip_with_Some in Hi
        as (p' & x' & [= <- <-] & Hp & Hx).
      apply lookup_seqZ in Hp as [-> _]. by exists i.
    - intros (i & -> & Hi). exists i. apply lookup_zip_with_Some.
      eexists _, _. split; [done|]. split; [|done].
      apply lookup_seqZ_lt. apply lookup_lt_Some in Hi. lia. }
  destruct (insert_all_spec entries (AsyncLog.make start))
    as (l & Hins & Hnext & Hlog).
  { rewrite Hpos. apply NoDup_seqZ. }
  { intros p Hp. rewrite Hpos in Hp. apply elem_of_seqZ in Hp. simpl.
    split; [lia | apply lookup_empty]. }
  destruct (next_n_spec items start l) as (l' & Hrun & Hempty & Hnext');
    [lia | done | | |].
  { rewrite Hnext. simpl. unfold wrap32. symmetry. apply Z.mod_small. lia. }
  { intros p x. rewrite Hlog -Hentries. simpl. rewrite lookup_empty.
    split; [by intros [?|?] | by left]. }
  exists l, l'. split; [done|]. split; [done|]. split; [done|].
  split; [done|]. unfold AsyncLog.HasNext. rewrite Hempty lookup_empty.
  apply bool_decide_eq_false. by intros [? ?].
Qed.

Lemma AsyncLog_delivers_in_order_witness :
  ∃ l l',
    insert_all [(7, "c"); (5, "a"); (6, "b")] (AsyncLog.make 5) = Returns l ∧
    next_n 3 l = Returns (["a"; "b"; "c"], l') ∧
    AsyncLog.log_ l' = ∅ ∧ AsyncLog.next_ l' = wrap32 (5 + 3) ∧
    AsyncLog.HasNext l' = false.
Proof.
  apply (AsyncLog_delivers_in_order 5 ["a"; "b"; "c"]
           [(7, "c"); (5, "a"); (6, "b")]).
  - lia.
  - simpl. lia.
  - simpl. apply Permutation_cons_app with (l1 := [(5, "a"); (6, "b")]) (l2 := []).
    by rewrite app_nil_r.
Defined.

(** X8.  [Peek] and [Next]: when the position at the cursor is filled both return
    the item stored there, and, unless the cursor was at 2^32 - 1, an [Insert]
    at the position just delivered is ignored afterwards; when it is empty
    both throw. *)
Theorem Peek_agrees_with_Next {T} (l : AsyncLog.t T) :
  (AsyncLog.HasNext l = true →
   ∃ item l',
     Peek l = Returns item ∧ AsyncLog.Next l = Returns (item, l') ∧
     (0 ≤ AsyncLog.next_ l < 2 ^ 32 - 1 →
      ∀ again, AsyncLog.Insert (AsyncLog.next_ l) again l' = Returns l')) ∧
  (AsyncLog.HasNext l = false →
   Peek l = Throws "out_of_range" ∧
   AsyncLog.Next l = Throws "Next item does not exist").
Proof.
  unfold Peek, AsyncLog.Next. split; intros Hnext; rewrite Hnext.
  - apply bool_decide_eq_true in Hnext as [item Hitem]. rewrite Hitem.
    eexists _, _. split; [done|]. split; [done|].
    intros Hrange again. unfold AsyncLog.Insert. simpl.
    assert (wrap32 (AsyncLog.next_ l + 1) = AsyncLog.next_ l + 1) as ->.
    { unfold wrap32. apply Z.mod_small. lia. }
    by rewrite (proj2 (Z.ltb_lt _ _)); [|lia].
  - apply bool_decide_eq_false in Hnext.
    destruct (AsyncLog.log_ l !! AsyncLog.next_ l) as [item|] eqn:Hitem; [|done].
    destruct Hnext. by exists item.
Qed.

Lemma Peek_agrees_with_Next_witness :
  let l : AsyncLog.t string :=
    {| AsyncLog.log_ := {[ 1 := "b" ]}; AsyncLog.next_ := 1 |} in
  ∃ item l',
    Peek l = Returns item ∧ AsyncLog.Next l = Returns (item, l') ∧
    (0 ≤ 1 < 2 ^ 32 - 1 → ∀ again, AsyncLog.Insert 1 again l' = Returns l').
Proof.
  intros l. apply (proj1 (Peek_agrees_with_Next l)). reflexivity.
Defined.

(** ** The remaster manager: what [VerifyMaster] changes, and the release of a
    waiting transaction *)

(** X9.  [VerifyMaster] whenever it returns: the storage and the transactions are
    as before; with an answer other than WAITING the queues are as before
    too, and either the transaction has no key in the partition, or no
    metadata, or its home queue was empty and the answer is that of
    [CheckCounters]; with the answer WAITING the transaction has been appended
    to its home queue, the queue of the master of its first metadata entry,
    and every other queue is as before. *)
Theorem VerifyMaster_queues_iff_waiting m txn_replica_id m' result :
  Remaster.VerifyMaster txn_replica_id m = Returns (m', result) →
  ∃ holder,
    Remaster.all_txns_ m !! txn_replica_id = Some holder ∧
    Remaster.storage_ m' = Remaster.storage_ m ∧
    Remaster.all_txns_ m' = Remaster.all_txns_ m ∧
    (result ≠ Remaster.WAITING →
     m' = m ∧
     (Remaster.KeysInPartition holder = [] ∨
      master_metadata (Remaster.GetTransaction holder) = [] ∨
      ∃ first others,
        master_metadata (Remaster.GetTransaction holder) = first :: others ∧
        Remaster.queue_of (master first.2) m = [] ∧
        Remaster.CheckCounters (Remaster.storage_ m) holder = Returns result)) ∧
    (result = Remaster.WAITING →
     ∃ first others,
       Remaster.KeysInPartition holder ≠ [] ∧
       master_metadata (Remaster.GetTransaction holder) = first :: others ∧
       Remaster.queue_of (master first.2) m'
       = Remaster.queue_of (master first.2) m ++ [txn_replica_id] ∧
       ∀ i, i ≠ master first.2 →
            Remaster.queue_of i m' = Remaster.queue_of i m).
Proof.
  unfold Remaster.VerifyMaster, Remaster.txn_at.
  destruct (Remaster.all_txns_ m !! txn_replica_id) as [holder|] eqn:Hat;
    [|done].
  simpl. intros Hrun. exists holder. split; [done|].
  assert (∀ home q,
            Remaster.queue_of home (Remaster.set_queue home q m) = q ∧
            ∀ i, i ≠ home →
                 Remaster.queue_of i (Remaster.set_queue home q m)
                 = Remaster.queue_of i m) as Hset.
  { intros home q. unfold Remaster.queue_of, Remaster.set_queue. simpl.
    split; [by rewrite lookup_insert_eq|].
    intros i Hi. by rewrite lookup_insert_ne. }
  destruct (Remaster.KeysInPartition holder) as [|k0 ks] eqn:Hkeys.
  { injection Hrun as <- <-. split; [done|]. split; [done|].
    split; [|done]. intros _. split; [done | by left]. }
  destruct (master_metadata (Remaster.GetTransaction holder))
    as [|[k1 first] others] eqn:Hmeta.
  { injection Hrun as <- <-. split; [done|]. split; [done|].
    split; [|done]. intros _. split; [done | by right; left]. }
  destruct (Remaster.queue_of (master first) m) as [|t0 q] eqn:Hq.
  - destruct (Remaster.CheckCounters (Remaster.storage_ m) holder)
      as [r| |] eqn:Hcheck; [|done|done].
    simpl in Hrun. case_decide as Hr.
    + injection Hrun as <- <-. split; [done|]. split; [done|].
      split; [done|]. intros _. exists (k1, first), others. simpl.
      split; [done|]. split; [done|]. rewrite Hq. apply Hset.
    + injection Hrun as <- <-. split; [done|]. split; [done|].
      split; [|done]. intros _. split; [done|]. right. right.
      by exists (k1, first), others.
  - injection Hrun as <- <-. split; [done|]. split; [done|].
    split; [done|]. intros _. exists (k1, first), others. simpl.
    split; [done|]. split; [done|]. rewrite Hq. apply Hset.
Qed.

Lemma VerifyMaster_queues_iff_waiting_witness :
  ∃ holder,
    Remaster.all_txns_ ahead !! (7%N, 0) = Some holder ∧
    Remaster.storage_ (Remaster.set_queue 0 [(7%N, 0)] ahead)
    = Remaster.storage_ ahead ∧
    Remaster.all_txns_ (Remaster.set_queue 0 [(7%N, 0)] ahead)
    = Remaster.all_txns_ ahead ∧
    (Remaster.WAITING ≠ Remaster.WAITING →
     Remaster.set_queue 0 [(7%N, 0)] ahead = ahead ∧
     (Remaster.KeysInPartition holder = [] ∨
      master_metadata (Remaster.GetTransaction holder) = [] ∨
      ∃ first others,
        master_metadata (Remaster.GetTransaction holder) = first :: others ∧
        Remaster.queue_of (master first.2) ahead = [] ∧
        Remaster.CheckCounters (Remaster.storage_ ahead) holder
        = Returns Remaster.WAITING)) ∧
    (Remaster.WAITING = Remaster.WAITING →
     ∃ first others,
       Remaster.KeysInPartition holder ≠ [] ∧
       master_metadata (Remaster.GetTransaction holder) = first :: others ∧
       Remaster.queue_of (master first.2)
                         (Remaster.set_queue 0 [(7%N, 0)] ahead)
       = Remaster.queue_of (master first.2) ahead ++ [(7%N, 0)] ∧
       ∀ i, i ≠ master first.2 →
            Remaster.queue_of i (Remaster.set_queue 0 [(7%N, 0)] ahead)
            = Remaster.queue_of i ahead).
Proof.
  apply (VerifyMaster_queues_iff_waiting ahead (7%N, 0)
           (Remaster.set_queue 0 [(7%N, 0)] ahead) Remaster.WAITING).
  vm_compute. reflexivity.
Defined.

(** X10.  A transaction that [VerifyMaster] made wait at the head of its home
    queue, and a later [RemasterOccured] for one of its keys, called once the
    storage agrees with the transaction on every one of its keys (the other
    queued transactions can all be checked): [VerifyMaster] answers WAITING
    and makes the transaction the only entry of its home queue;
    [RemasterOccured] returns, the transaction is in [unblocked] and not in
    [should_abort], and its home queue is empty afterwards. *)
Theorem waiting_txn_released_by_remaster m t holder first others storage'
    remaster_key :
  Remaster.all_txns_ m !! t = Some holder →
  master_metadata (Remaster.GetTransaction holder) = first :: others →
  Remaster.queue_of (master first.2) m = [] →
  Remaster.CheckCounters (Remaster.storage_ m) holder
  = Returns Remaster.WAITING →
  remaster_key ∈ (Remaster.KeysInPartition holder).*1 →
  Forall (key_agrees storage' (master_metadata (Remaster.GetTransaction holder)))
         (Remaster.KeysInPartition holder).*1 →
  checks_return
    (with_storage storage' (Remaster.set_queue (master first.2) [t] m)) →
  Remaster.VerifyMaster t m
  = Returns (Remaster.set_queue (master first.2) [t] m, Remaster.WAITING) ∧
  ∃ m2 result,
    Remaster.RemasterOccured remaster_key
      (Remaster.storage_counter storage' remaster_key)
      (with_storage storage' (Remaster.set_queue (master first.2) [t] m))
    = Returns (m2, result) ∧
    t ∈ Remaster.unblocked result ∧
    t ∉ Remaster.should_abort result ∧
    Remaster.queue_of (master first.2) m2 = [].
Proof.
  intros Hat Hmeta Hq Hcheck Hkey Hagree Hret. split.
  - unfold Remaster.VerifyMaster, Remaster.txn_at. rewrite Hat /=.
    destruct (Remaster.KeysInPartition holder) as [|k0 ks] eqn:Hkeys.
    { by apply elem_of_nil in Hkey. }
    rewrite Hmeta. destruct first as [k1 meta1]. simpl in *.
    rewrite Hq Hcheck. reflexivity.
  - set (M := with_storage storage'
                (Remaster.set_queue (master first.2) [t] m)) in *.
    assert (check_result M t = Some Remaster.VALID) as Hvalid.
    { unfold check_result. simpl. rewrite Hat. unfold Remaster.CheckCounters.
      simpl. by rewrite check_keys_all_agree. }
    assert (Remaster.blocked_queue_ M !! master first.2 = Some [t]) as Hhome.
    { simpl. by rewrite lookup_insert_eq. }
    assert (head_touches M remaster_key [t]) as Htouch.
    { by exists t, [], holder. }
    unfold Remaster.RemasterOccured.
    destruct (loop_all M remaster_key
                (map_to_list (Remaster.blocked_queue_ M)).*1 []
                (M, {| Remaster.unblocked := []; Remaster.should_abort := [] |}))
      as ([m2 result] & Hrun & [_ _ Hdone Hub Hsa]); try done.
    + apply NoDup_fst_map_to_list.
    + intros i _ ?%elem_of_nil. done.
    + intros i [[i' q] [-> Hiq]]%list_elem_of_fmap.
      apply elem_of_map_to_list in Hiq. by exists q.
    + split; simpl.
      * exists (Remaster.blocked_queue_ M). done.
      * done.
      * by intros i q ?%elem_of_nil.
      * by intros t' ?%elem_of_nil.
      * by intros t' ?%elem_of_nil.
    + exists m2, result. split; [done|]. simpl in Hdone, Hub, Hsa.
      destruct (Hdone (master first.2) [t]) as (popped & rest & Hrest & Hout);
        [|done|].
      { apply list_elem_of_fmap. exists (master first.2, [t]).
        split; [done|]. by apply elem_of_map_to_list. }
      destruct Hout as [Hsplit _ _ Hstop Hunblocked _].
      destruct popped as [|t' popped].
      { simpl in Hsplit. symmetry in Hsplit.
        pose proof (Hstop Htouch t [] Hsplit) as Hwait.
        rewrite Hvalid in Hwait. discriminate Hwait. }
      injection Hsplit as <- Hnil. symmetry in Hnil.
      apply app_eq_nil in Hnil as [-> ->].
      split; [|split].
      * apply Hunblocked; [by left | done].
      * intros Hin. destruct (Hsa t Hin) as [Habort _].
        rewrite Hvalid in Habort. discriminate Habort.
      * unfold Remaster.queue_of. by rewrite Hrest.
Qed.

Lemma waiting_txn_released_by_remaster_witness :
  Remaster.VerifyMaster (7%N, 0) ahead
  = Returns (Remaster.set_queue 0 [(7%N, 0)] ahead, Remaster.WAITING) ∧
  ∃ m2 result,
    Remaster.RemasterOccured "A" (Remaster.storage_counter storage_A2 "A")
      (with_storage storage_A2 (Remaster.set_queue 0 [(7%N, 0)] ahead))
    = Returns (m2, result) ∧
    (7%N, 0) ∈ Remaster.unblocked result ∧
    (7%N, 0) ∉ Remaster.should_abort result ∧
    Remaster.queue_of 0 m2 = [].
Proof.
  apply (waiting_txn_released_by_remaster ahead (7%N, 0)
           (holder_of 7%N ["A"] [("A", mkMeta 0 2)]) ("A", mkMeta 0 2) []
           storage_A2 "A").
  - reflexivity.
  - reflexivity.
  - reflexivity.
  - vm_compute. reflexivity.
  - simpl. apply list_elem_of_singleton. reflexivity.
  - simpl. constructor; [|constructor].
    exists (mkMeta 0 2). split; [reflexivity|]. split; [reflexivity|].
    intros record Hrec. vm_compute in Hrec. by injection Hrec as <-.
  - intros i q t Hq Ht. simpl in Hq.
    apply lookup_insert_Some in Hq as [[<- <-]|[_ Hq]]; [|done].
    apply list_elem_of_singleton in Ht as ->. by eexists; vm_compute.
Defined.

(** ** [TPCCExecution::Execute]: every way out *)

Lemma dispatch_Returned kTotalItems stoi stoll
    new_order payment order_status deliver stock_level (txn t : Transaction) :
  TPCC.dispatch kTotalItems stoi stoll new_order payment order_status deliver
    stock_level txn = Returns (TPCC.Returned t) →
  ∃ reason, reason ∈ validation_messages ∧ t = TPCC.aborted reason txn.
Proof.
  unfold TPCC.dispatch, outcome_bind.
  repeat case_match; try discriminate; intros [= <-];
    (eexists; split; [|reflexivity]); unfold validation_messages;
    repeat (first [by left | right]).
Qed.

(** X11.  [Execute] whenever it returns: the transaction is reported ABORTED, never
    COMMITTED.  Either no procedure was called: the reason is one of the nine
    messages of the validation, the transaction is otherwise as it came and
    the storage is untouched.  Or a procedure was called: the reason is
    "Aborted by a TPC-C txn" whatever the procedure answered, and the write
    set was applied to the storage exactly when it answered true. *)
Theorem Execute_never_reports_committed {Storage} ApplyWrites kTotalItems
    stoi stoll new_order payment order_status deliver stock_level
    (txn txn' : Transaction) (storage storage' : Storage) :
  TPCC.Execute Storage ApplyWrites kTotalItems stoi stoll new_order payment
    order_status deliver stock_level txn storage = Returns (txn', storage') →
  status txn' = ABORTED ∧
  ((abort_reason txn' ∈ validation_messages ∧
    txn' = TPCC.aborted (abort_reason txn') txn ∧ storage' = storage)
   ∨ (∃ result txn1,
        TPCC.dispatch kTotalItems stoi stoll new_order payment order_status
          deliver stock_level txn = Returns (TPCC.Ran result txn1) ∧
        txn' = TPCC.aborted "Aborted by a TPC-C txn"
                 (if result then set_status COMMITTED txn1 else txn1) ∧
        storage' = if result then ApplyWrites (set_status COMMITTED txn1) storage
                   else storage)).
Proof.
  unfold TPCC.Execute.
  destruct (TPCC.dispatch kTotalItems stoi stoll new_order payment
              order_status deliver stock_level txn) as [[t|result t]| |] eqn:Hd;
    simpl; [| |done|done].
  - intros [= <- <-].
    destruct (dispatch_Returned _ _ _ _ _ _ _ _ _ _ Hd) as (reason & Hin & ->).
    split; [done|]. left. by split.
  - intros Hrun. split.
    + by destruct result; injection Hrun as <- <-.
    + right. exists result, t. split; [done|].
      by destruct result; injection Hrun as <- <-.
Qed.

Lemma Execute_never_reports_committed_witness :
  status (TPCC.aborted "Unknown procedure name" transfer_txn) = ABORTED ∧
  ((abort_reason (TPCC.aborted "Unknown procedure name" transfer_txn)
    ∈ validation_messages ∧
    TPCC.aborted "Unknown procedure name" transfer_txn
    = TPCC.aborted
        (abort_reason (TPCC.aborted "Unknown procedure name" transfer_txn))
        transfer_txn ∧
    (∅ : gmap Key Value) = ∅)
   ∨ (∃ result txn1,
        TPCC.dispatch 15 decimal decimal
          (λ _ _ _ _ _ _ _ txn, (true, txn))
          (λ _ _ _ _ _ _ _ _ txn, (true, txn))
          (λ _ _ _ _ txn, (true, txn))
          (λ _ _ _ _ _ _ txn, (true, txn))
          (λ _ _ _ _ txn, (true, txn)) transfer_txn
        = Returns (TPCC.Ran result txn1) ∧
        TPCC.aborted "Unknown procedure name" transfer_txn
        = TPCC.aborted "Aborted by a TPC-C txn"
            (if result then set_status COMMITTED txn1 else txn1) ∧
        (∅ : gmap Key Value)
        = if result then apply_write_set (set_status COMMITTED txn1) ∅ else ∅)).
Proof.
  apply (Execute_never_reports_committed apply_write_set 15 decimal decimal
           (λ _ _ _ _ _ _ _ txn, (true, txn))
           (λ _ _ _ _ _ _ _ _ txn, (true, txn))
           (λ _ _ _ _ txn, (true, txn))
           (λ _ _ _ _ _ _ txn, (true, txn))
           (λ _ _ _ _ txn, (true, txn))
           transfer_txn (TPCC.aborted "Unknown procedure name" transfer_txn)
           ∅ ∅).
  vm_compute. reflexivity.
Defined.

(** ** The sequencer: what enters the single-home batch and what leaves it *)

Lemma make_lock_only_id config counterless txn lock_only :
  Sequencer.make_lock_only config counterless txn = Returns lock_only →
  id lock_only = id txn ∧ type lock_only = LOCK_ONLY.
Proof.
  unfold Sequencer.make_lock_only, outcome_bind.
  repeat case_match; try discriminate; by intros [= <-].
Qed.

Lemma put_lock_only_frame config counterless s txn s' :
  Sequencer.put_lock_only config counterless s txn = Returns s' →
  Sequencer.batch_id_counter_ s' = Sequencer.batch_id_counter_ s ∧
  Sequencer.outbox s' = Sequencer.outbox s ∧
  ∃ added,
    Sequencer.transactions (Sequencer.batch_ s')
    = Sequencer.transactions (Sequencer.batch_ s) ++ added ∧
    Forall (λ t, type t = LOCK_ONLY ∧ carries_keys t) added ∧
    (id <$> added) `sublist_of` [id txn].
Proof.
  unfold Sequencer.put_lock_only.
  destruct (Sequencer.make_lock_only config counterless txn)
    as [lock_only| |] eqn:Hmake; simpl; [|done|done].
  destruct (make_lock_only_id _ _ _ _ Hmake) as [Hid Htype].
  assert (carries_keys lock_only →
          Returns (Sequencer.PutSingleHomeTransactionIntoBatch lock_only s)
          = Returns s' →
          Sequencer.batch_id_counter_ s' = Sequencer.batch_id_counter_ s ∧
          Sequencer.outbox s' = Sequencer.outbox s ∧
          ∃ added,
            Sequencer.transactions (Sequencer.batch_ s')
            = Sequencer.transactions (Sequencer.batch_ s) ++ added ∧
            Forall (λ t, type t = LOCK_ONLY ∧ carries_keys t) added ∧
            (id <$> added) `sublist_of` [id txn]) as Hput.
  { intros Hkeys [= <-]. split; [done|]. split; [done|].
    exists [lock_only]. split; [done|]. split; [by constructor|].
    simpl. by rewrite Hid. }
  destruct (read_set lock_only) as [|r rs] eqn:Hr;
    destruct (write_set lock_only) as [|w ws] eqn:Hw.
  - intros [= <-]. split; [done|]. split; [done|]. exists [].
    split; [by rewrite app_nil_r|]. split; [constructor|].
    apply sublist_nil_l.
  - apply Hput. right. by rewrite Hw.
  - apply Hput. left. by rewrite Hr.
  - apply Hput. left. by rewrite Hr.
Qed.

(** X12.  [ProcessMultiHomeBatch] whenever it returns, in either build: a batch
    that is not of type MULTI_HOME changes nothing; otherwise the batch is
    sent to the interleaver of every partition of the local region, the
    counter of batch ids is as before, and the single-home batch has its
    transactions as before, followed by transactions that are all of type
    LOCK_ONLY and have a key, with ids that follow the order of the batch. *)
Theorem ProcessMultiHomeBatch_only_appends_lock_onlys config counterless
    batch s s' :
  Sequencer.ProcessMultiHomeBatch config counterless batch s = Returns s' →
  (Sequencer.transaction_type batch ≠ MULTI_HOME → s' = s) ∧
  (Sequencer.transaction_type batch = MULTI_HOME →
   Sequencer.outbox s' = Sequencer.outbox s ++ replication config batch) ∧
  Sequencer.batch_id_counter_ s' = Sequencer.batch_id_counter_ s ∧
  ∃ added,
    Sequencer.transactions (Sequencer.batch_ s')
    = Sequencer.transactions (Sequencer.batch_ s) ++ added ∧
    Forall (λ t, type t = LOCK_ONLY ∧ carries_keys t) added ∧
    (id <$> added) `sublist_of` (id <$> Sequencer.transactions batch).
Proof.
  unfold Sequencer.ProcessMultiHomeBatch. case_decide as Htype.
  { intros [= <-]. split; [done|]. split; [done|]. split; [done|].
    exists []. split; [by rewrite app_nil_r|]. split; [constructor|].
    apply sublist_nil_l. }
  assert (∀ txns s0 s1,
            foldl (λ (acc : outcome Sequencer.t) txn,
                     outcome_bind acc (λ a,
                       Sequencer.put_lock_only config counterless a txn))
                  (Returns s0) txns = Returns s1 →
            Sequencer.batch_id_counter_ s1 = Sequencer.batch_id_counter_ s0 ∧
            Sequencer.outbox s1 = Sequencer.outbox s0 ∧
            ∃ added,
              Sequencer.transactions (Sequencer.batch_ s1)
              = Sequencer.transactions (Sequencer.batch_ s0) ++ added ∧
              Forall (λ t, type t = LOCK_ONLY ∧ carries_keys t) added ∧
              (id <$> added) `sublist_of` (id <$> txns)) as Hfold.
  { induction txns as [|txn txns IH]; intros s0 s1.
    - intros [= <-]. split; [done|]. split; [done|]. exists [].
      split; [by rewrite app_nil_r|]. split; [constructor|]. constructor.
    - cbn [foldl outcome_bind].
      destruct (Sequencer.put_lock_only config counterless s0 txn)
        as [s0'| |] eqn:Hput.
      + intros Hrun.
        destruct (put_lock_only_frame _ _ _ _ _ Hput)
          as (Hc & Ho & added1 & Htx & Hall & Hsub).
        destruct (IH _ _ Hrun) as (Hc' & Ho' & added2 & Htx' & Hall' & Hsub').
        split; [by rewrite Hc'|]. split; [by rewrite Ho'|].
        exists (added1 ++ added2). split; [by rewrite Htx' Htx app_assoc|].
        split; [by apply Forall_app|].
        rewrite fmap_app fmap_cons.
        by apply (sublist_app _ [id txn]).
      + intros Hrun. exfalso. clear -Hrun.
        induction txns as [|t txns IH]; [done | by apply IH].
      + intros Hrun. exfalso. clear -Hrun.
        induction txns as [|t txns IH]; [done | by apply IH]. }
  destruct (foldl _ _ (Sequencer.transactions batch)) as [s1| |] eqn:Hrun;
    simpl; [|done|done].
  intros [= <-]. destruct (Hfold _ _ _ Hrun) as (Hc & Ho & added & Htx & Hall & Hsub).
  split; [done|]. split.
  { intros _. simpl. by rewrite Ho. }
  split; [done|]. by exists added.
Qed.

Lemma ProcessMultiHomeBatch_only_appends_lock_onlys_witness :
  ∃ s',
    Sequencer.ProcessMultiHomeBatch region1 true
      (Sequencer.mkBatch 0 MULTI_HOME [remaster_txn]) new_sequencer
    = Returns s' ∧
    ∃ added,
      Sequencer.transactions (Sequencer.batch_ s')
      = Sequencer.transactions (Sequencer.batch_ new_sequencer) ++ added ∧
      Forall (λ t, type t = LOCK_ONLY ∧ carries_keys t) added ∧
      (id <$> added) `sublist_of` [9%N].
Proof.
  destruct (Sequencer.ProcessMultiHomeBatch region1 true
              (Sequencer.mkBatch 0 MULTI_HOME [remaster_txn]) new_sequencer)
    as [s'| |] eqn:Hrun; [|by vm_compute in Hrun..].
  exists s'. split; [reflexivity|].
  by apply (ProcessMultiHomeBatch_only_appends_lock_onlys region1 true
              (Sequencer.mkBatch 0 MULTI_HOME [remaster_txn]) new_sequencer s').
Defined.

Section Ticks.
Variable config_ : Configuration.
Variables kMaxNumMachines id_bits : Z.
Variable local_partition : Z.
Variable num_replicas : nat.

#[local] Abbreviation step :=
  (sequencer_step config_ kMaxNumMachines id_bits local_partition num_replicas).

#[local] Abbreviation batched sent :=
  (concat ((λ o, Sequencer.transactions (batch_data o)) <$> sent)).

#[local] Abbreviation well_sent :=
  (λ o, Sequencer.transactions (batch_data o) ≠ [] ∧
        Sequencer.transaction_type (batch_data o) = SINGLE_HOME ∧
        paxos_value o = local_partition ∧
        length (receivers o) = (num_partitions config_ * num_replicas)%nat).

Lemma length_receivers (f : nat → nat → Z) (n m : nat) :
  length (flat_map (λ part, (λ rep, f rep part) <$> seq 0 m) (seq 0 n))
  = (n * m)%nat.
Proof.
  generalize 0%nat at 2. induction n as [|n IH]; intros k; [done|].
  simpl. by rewrite length_app length_fmap length_seq IH.
Qed.

Lemma sequencer_step_inv s sent ev :
  Sequencer.transaction_type (Sequencer.batch_ s) = SINGLE_HOME →
  Forall well_sent sent →
  Sequencer.transaction_type (Sequencer.batch_ (step (s, sent) ev).1)
  = SINGLE_HOME ∧
  Forall well_sent (step (s, sent) ev).2 ∧
  batched (step (s, sent) ev).2
  ++ Sequencer.transactions (Sequencer.batch_ (step (s, sent) ev).1)
  = (batched sent ++ Sequencer.transactions (Sequencer.batch_ s))
    ++ forwarded [ev] ∧
  (length sent ≤ length (step (s, sent) ev).2)%nat.
Proof.
  intros Htype Hsent. destruct ev as [txn|received]; simpl.
  - split; [done|]. split; [done|]. split; [by rewrite app_assoc | done].
  - unfold HandleCustomSocket. destruct received; simpl.
    2:{ rewrite !app_nil_r. repeat split; try done; lia. }
    destruct (Sequencer.transactions (Sequencer.batch_ s)) as [|t ts] eqn:Htx;
      simpl.
    { rewrite ?Htx ?app_nil_r. repeat split; try done; lia. }
    split; [done|]. split.
    + apply Forall_app. split; [done|]. constructor; [|constructor].
      simpl. rewrite ?Htx. split; [done|]. split; [done|]. split; [done|].
      apply (length_receivers (λ rep part, MakeMachineId config_ (Z.of_nat rep) part)).
    + rewrite fmap_app concat_app. simpl. rewrite ?Htx ?app_nil_r.
      split; [done|]. rewrite length_app. simpl. lia.
Qed.

Lemma sequencer_run_inv evs s sent :
  Sequencer.transaction_type (Sequencer.batch_ s) = SINGLE_HOME →
  Forall well_sent sent →
  Sequencer.transaction_type (Sequencer.batch_ (foldl step (s, sent) evs).1)
  = SINGLE_HOME ∧
  Forall well_sent (foldl step (s, sent) evs).2 ∧
  batched (foldl step (s, sent) evs).2
  ++ Sequencer.transactions (Sequencer.batch_ (foldl step (s, sent) evs).1)
  = (batched sent ++ Sequencer.transactions (Sequencer.batch_ s))
    ++ forwarded evs.
Proof.
  revert s sent. induction evs as [|ev evs IH]; intros s sent Htype Hsent.
  - simpl. by rewrite app_nil_r.
  - destruct (sequencer_step_inv s sent ev Htype Hsent)
      as (Htype1 & Hsent1 & Hall1 & _).
    cbn [foldl]. destruct (step (s, sent) ev) as [s1 sent1] eqn:Hstep.
    destruct (IH s1 sent1 Htype1 Hsent1) as (Htype2 & Hsent2 & Hall2).
    split; [done|]. split; [done|]. rewrite Hall2. simpl in Hall1.
    rewrite Hall1. rewrite -app_assoc. f_equal.
    change (ev :: evs) with ([ev] ++ evs). unfold forwarded.
    by rewrite omap_app.
Qed.

End Ticks.

(** X13.  Transactions forwarded to a new sequencer and ticks, in any order (a
    build without ENABLE_REPLICATION_DELAY): the transactions of the batches
    sent so far, followed by those of the current batch, are the forwarded
    transactions in the order of their arrival, none lost and none twice; no
    batch is sent empty; every batch sent is of type SINGLE_HOME, comes with
    a proposal of the local partition to the local Paxos, and is sent once
    for every pair of a partition and a replica. *)
Theorem sequencer_batches_every_txn_once config kMaxNumMachines id_bits
    local_partition num_replicas evs :
  let run := sequencer_run config kMaxNumMachines id_bits local_partition
               num_replicas evs new_sequencer in
  concat ((λ o, Sequencer.transactions (batch_data o)) <$> run.2)
  ++ Sequencer.transactions (Sequencer.batch_ run.1)
  = forwarded evs ∧
  Forall (λ o, Sequencer.transactions (batch_data o) ≠ [] ∧
               Sequencer.transaction_type (batch_data o) = SINGLE_HOME ∧
               paxos_value o = local_partition ∧
               length (receivers o)
               = (num_partitions config * num_replicas)%nat) run.2.
Proof.
  intros run. subst run. unfold sequencer_run.
  destruct (sequencer_run_inv config kMaxNumMachines id_bits local_partition
              num_replicas evs new_sequencer [] eq_refl)
    as (_ & Hsent & Hall); [constructor|].
  split; [exact Hall | exact Hsent].
Qed.

(** ** The server: a request is answered or forwarded, and a transaction is
    answered once *)

Lemma ValidateTransaction_cases txn :
  (acceptable txn ∧ ValidateTransaction txn = set_status NOT_STARTED txn)
  ∨ (¬ acceptable txn ∧
     ∃ reason,
       reason ∈ ["Txn accesses no key";
                 "Remaster txns should not read anything";
                 "Remaster txns should write to 1 key"] ∧
       ValidateTransaction txn
       = set_abort_reason reason (set_status ABORTED txn)).
Proof.
  unfold ValidateTransaction, acceptable, carries_keys. simpl.
  case_decide as Hnone.
  { right. split.
    - intros [[Hr|Hw] _]; [destruct (read_set txn) | destruct (write_set txn)];
        simpl in *; done || lia.
    - eexists. split; [|done]. by left. }
  assert (read_set txn ≠ [] ∨ write_set txn ≠ []) as Hkeys.
  { destruct (read_set txn); [|by left]. destruct (write_set txn); [|by right].
    simpl in Hnone. lia. }
  destruct (remaster txn) as [rm|] eqn:Hrm.
  2:{ left. split; [|done]. split; [done|]. by intros [? ?]. }
  case_decide as Hread.
  { right. split.
    - intros [_ Hshape]. destruct Hshape as [Hr _]; [by eexists|].
      rewrite Hr in Hread. simpl in Hread. lia.
    - eexists. split; [|done]. right. by left. }
  case_decide as Hwrite.
  { right. split.
    - intros [_ Hshape]. by destruct Hshape as [_ Hw]; [by eexists|].
    - eexists. split; [|done]. right. right. by left. }
  left. split; [|done]. split; [done|]. intros _. split.
  - destruct (read_set txn); [done|]. simpl in Hread. lia.
  - destruct (decide (length (write_set txn) = 1%nat)) as [|Hn]; [done|].
    by destruct Hwrite.
Qed.

(** X14.  A request of a client that carries a transaction, on a server that has
    no pending response under the next id.  An acceptable transaction (it has
    a key, and a remaster reads nothing and writes one key) is forwarded with
    the new id and the status NOT_STARTED, and the client is remembered under
    that id.  Any other transaction is answered at once: the client gets it
    back with the new id, the status ABORTED and one of three reasons, with
    the stream id of the request; nothing is forwarded and nothing stays
    pending. *)
Theorem txn_request_forwarded_or_answered config kMaxNumMachines id_bits
    from txn s :
  let next_id :=
    Z.to_N (Server.NextTxnId config kMaxNumMachines id_bits (server s)).2 in
  let s' := HandleTxnRequest config kMaxNumMachines id_bits from txn s in
  pending_responses_ s !! next_id = None →
  server s' = (Server.NextTxnId config kMaxNumMachines id_bits (server s)).1 ∧
  completed_txns_ s' = completed_txns_ s ∧
  (acceptable txn →
   to_forwarder s'
   = to_forwarder s ++ [set_status NOT_STARTED (set_id next_id txn)] ∧
   to_clients s' = to_clients s ∧
   pending_responses_ s' = <[next_id := from]> (pending_responses_ s)) ∧
  (¬ acceptable txn →
   ∃ reason,
     reason ∈ ["Txn accesses no key";
               "Remaster txns should not read anything";
               "Remaster txns should write to 1 key"] ∧
     to_clients s'
     = to_clients s
       ++ [mkResponse (identity from) (stream_id from)
             (set_abort_reason reason
                (set_status ABORTED (set_id next_id txn)))] ∧
     to_forwarder s' = to_forwarder s ∧
     pending_responses_ s' = pending_responses_ s).
Proof.
  intros next_id s' Hfresh. subst s'. unfold HandleTxnRequest.
  destruct (Server.NextTxnId config kMaxNumMachines id_bits (server s))
    as [srv i] eqn:Hnext.
  simpl in next_id. subst next_id. rewrite Hfresh. cbv zeta.
  assert (acceptable (set_id (Z.to_N i) txn) ↔ acceptable txn) as Hsame by done.
  destruct (ValidateTransaction_cases (set_id (Z.to_N i) txn))
    as [[Hok ->]|[Hbad (reason & Hreason & ->)]].
  - case_decide as Hst; [done|]. simpl. split; [done|]. split; [done|].
    split; [done|]. intros Hno. by destruct Hno; apply Hsame.
  - case_decide as Hst; [|by destruct Hst].
    unfold SendTxnToClient, SendResponseToClient. simpl.
    rewrite lookup_insert_eq. simpl. split; [done|]. split; [done|].
    split; [intros Hok; by destruct Hbad; apply Hsame|].
    intros _. exists reason. split; [done|]. split; [done|].
    split; [done|]. by apply delete_insert_id.
Qed.

Lemma txn_request_forwarded_or_answered_witness :
  ∃ reason,
    reason ∈ ["Txn accesses no key";
              "Remaster txns should not read anything";
              "Remaster txns should write to 1 key"] ∧
    to_clients (HandleTxnRequest (machine 2) 1000 32 (mkPending "other" 9)
                  reading_remaster waiting_server)
    = [mkResponse "other" 9
         (set_abort_reason reason
            (set_status ABORTED (set_id 1002%N reading_remaster)))] ∧
    to_forwarder (HandleTxnRequest (machine 2) 1000 32 (mkPending "other" 9)
                    reading_remaster waiting_server) = [] ∧
    pending_responses_ (HandleTxnRequest (machine 2) 1000 32
                          (mkPending "other" 9) reading_remaster
                          waiting_server)
    = pending_responses_ waiting_server.
Proof.
  apply (txn_request_forwarded_or_answered (machine 2) 1000 32
           (mkPending "other" 9) reading_remaster waiting_server).
  - reflexivity.
  - intros [_ Hshape]. destruct Hshape as [Hr _]; [by eexists|]. discriminate Hr.
Defined.

Section Completed.
Variable MergeTransaction : Transaction → Transaction → Transaction.

#[local] Abbreviation process :=
  (foldl (λ s sub, ProcessCompletedSubtxn MergeTransaction sub s)).

Lemma first_subtxn sub s pr :
  pending_responses_ s !! id (sub_txn sub) = Some pr →
  completed_txns_ s !! id (sub_txn sub) = None →
  ProcessCompletedSubtxn MergeTransaction sub s
  = let awaited : gset nat :=
      list_to_set (filter (λ p, p ≠ partition sub) (involved_partitions sub)) in
    if decide (awaited = ∅) then
      {| server := server s;
         pending_responses_ := delete (id (sub_txn sub)) (pending_responses_ s);
         completed_txns_ := completed_txns_ s;
         to_clients :=
           to_clients s
           ++ [mkResponse (identity pr) (stream_id pr) (sub_txn sub)];
         to_forwarder := to_forwarder s |}
    else
      {| server := server s; pending_responses_ := pending_responses_ s;
         completed_txns_ :=
           <[id (sub_txn sub) := mkCompleted (sub_txn sub) awaited]>
             (completed_txns_ s);
         to_clients := to_clients s; to_forwarder := to_forwarder s |}.
Proof.
  intros Hpr Hnone. unfold ProcessCompletedSubtxn. rewrite Hpr Hnone.
  cbv zeta. cbn [awaited_partitions completed_txn].
  case_decide; [|done].
  unfold SendResponseToClient. cbn [pending_responses_]. rewrite Hpr. simpl.
  f_equal. by apply delete_insert_id.
Qed.

Lemma later_subtxn sub s pr merged (awaited : gset nat) :
  pending_responses_ s !! id (sub_txn sub) = Some pr →
  completed_txns_ s !! id (sub_txn sub) = Some (mkCompleted merged awaited) →
  partition sub ∈ awaited →
  ProcessCompletedSubtxn MergeTransaction sub s
  = if decide (awaited ∖ {[partition sub]} = ∅) then
      {| server := server s;
         pending_responses_ := delete (id (sub_txn sub)) (pending_responses_ s);
         completed_txns_ := delete (id (sub_txn sub)) (completed_txns_ s);
         to_clients :=
           to_clients s
           ++ [mkResponse (identity pr) (stream_id pr)
                 (MergeTransaction merged (sub_txn sub))];
         to_forwarder := to_forwarder s |}
    else
      {| server := server s; pending_responses_ := pending_responses_ s;
         completed_txns_ :=
           <[id (sub_txn sub) :=
               mkCompleted (MergeTransaction merged (sub_txn sub))
                           (awaited ∖ {[partition sub]})]>
             (completed_txns_ s);
         to_clients := to_clients s; to_forwarder := to_forwarder s |}.
Proof.
  intros Hpr Hc Hin. unfold ProcessCompletedSubtxn. rewrite Hpr Hc.
  cbv zeta. cbn [awaited_partitions completed_txn].
  rewrite (decide_True _ _ Hin). cbn [awaited_partitions completed_txn].
  case_decide; [|done].
  unfold SendResponseToClient. cbn [pending_responses_]. rewrite Hpr. simpl.
  f_equal. by rewrite delete_insert_eq.
Qed.

Lemma later_subtxns t pr subs s merged :
  pending_responses_ s !! t = Some pr →
  completed_txns_ s !! t
  = Some (mkCompleted merged (list_to_set (partition <$> subs))) →
  Forall (λ sub, id (sub_txn sub) = t) subs →
  NoDup (partition <$> subs) → subs ≠ [] →
  to_clients (process s subs)
  = to_clients s
    ++ [mkResponse (identity pr) (stream_id pr)
          (foldl MergeTransaction merged (sub_txn <$> subs))] ∧
  pending_responses_ (process s subs) = delete t (pending_responses_ s) ∧
  completed_txns_ (process s subs) = delete t (completed_txns_ s) ∧
  ∀ pre post, subs = pre ++ post → post ≠ [] →
              to_clients (process s pre) = to_clients s ∧
              is_Some (pending_responses_ (process s pre) !! t).
Proof.
  revert s merged.
  induction subs as [|sub subs IH]; intros s merged Hpr Hc Hids Hnd Hne;
    [done|].
  apply Forall_cons in Hids as [Hid Hids]. subst t.
  rewrite fmap_cons in Hnd. apply NoDup_cons in Hnd as [Hfresh Hnd].
  assert ((list_to_set (partition <$> sub :: subs) : gset nat)
          ∖ {[partition sub]} = list_to_set (partition <$> subs)) as Hrest.
  { rewrite fmap_cons list_to_set_cons.
    apply set_eq. intros p. rewrite elem_of_difference elem_of_union
      elem_of_singleton elem_of_list_to_set.
    split; [by intros [[?|?] ?] | intros Hp; split; [by right|]].
    by intros ->. }
  assert (partition sub ∈ (list_to_set (partition <$> sub :: subs) : gset nat))
    as Hin.
  { rewrite fmap_cons list_to_set_cons. apply elem_of_union. left.
    by apply elem_of_singleton. }
  pose proof (later_subtxn sub s pr merged _ Hpr Hc Hin) as Hstep.
  rewrite Hrest in Hstep. cbn [foldl]. rewrite Hstep.
  destruct subs as [|sub' subs'].
  - clear Hstep. case_decide as Hnil; [|by destruct Hnil].
    simpl. split; [done|]. split; [done|]. split; [done|].
    intros pre post Hsplit Hpost. destruct pre as [|x pre].
    + simpl. split; [done | by eexists].
    + injection Hsplit as _ Hsplit. symmetry in Hsplit.
      by apply app_eq_nil in Hsplit as [_ ->].
  - assert ((list_to_set (partition <$> sub' :: subs') : gset nat) ≠ ∅)
      as Hmore.
    { rewrite fmap_cons list_to_set_cons. intros Hempty.
      apply (not_elem_of_empty (C:=gset nat) (partition sub')).
      rewrite -Hempty. apply elem_of_union. left. by apply elem_of_singleton. }
    assert (∀ a b : ServerState,
              (if decide ((list_to_set (partition <$> sub' :: subs') : gset nat)
                          = ∅) then a else b) = b) as Hgo.
    { intros a b. by case_decide. }
    rewrite Hgo in Hstep |- *.
    match goal with |- context [foldl _ ?s1 (sub' :: subs')] =>
      destruct (IH s1 (MergeTransaction merged (sub_txn sub)))
        as (Hsent & Hpend & Hcompl & Hearly); try done
    end.
    { simpl. by rewrite lookup_insert_eq. }
    split; [exact Hsent|]. split; [exact Hpend|].
    split; [by rewrite Hcompl /= delete_insert_eq|].
    intros pre post Hsplit Hpost. destruct pre as [|x pre].
    + simpl. split; [done | by eexists].
    + injection Hsplit as <- Hsplit. cbn [foldl]. rewrite Hstep.
      by apply (Hearly pre post).
Qed.

End Completed.

(** X15.  The sub-transactions of a transaction that a client waits for, one from
    every involved partition and no partition twice, in any order, with
    nothing known of the transaction before: the client is answered once,
    when the last of them arrives and not before, with the first
    sub-transaction merged with the later ones in the order of their
    arrival; the pending response and the partial result are then gone. *)
Theorem one_response_after_all_partitions MergeTransaction s t pr first rest
    involved :
  pending_responses_ s !! t = Some pr →
  completed_txns_ s !! t = None →
  Forall (λ sub, id (sub_txn sub) = t) (first :: rest) →
  involved_partitions first = involved →
  NoDup (partition <$> first :: rest) →
  (∀ p, p ∈ involved ↔ p ∈ partition <$> first :: rest) →
  let process := foldl (λ s sub, ProcessCompletedSubtxn MergeTransaction sub s) in
  to_clients (process s (first :: rest))
  = to_clients s
    ++ [mkResponse (identity pr) (stream_id pr)
          (foldl MergeTransaction (sub_txn first) (sub_txn <$> rest))] ∧
  pending_responses_ (process s (first :: rest))
  = delete t (pending_responses_ s) ∧
  completed_txns_ (process s (first :: rest)) = completed_txns_ s ∧
  ∀ pre post, first :: rest = pre ++ post → post ≠ [] →
              to_clients (process s pre) = to_clients s ∧
              is_Some (pending_responses_ (process s pre) !! t).
Proof.
  intros Hpr Hnone Hids Hinv Hnd Hall process. subst process.
  apply Forall_cons in Hids as [Hid Hids]. subst t.
  rewrite fmap_cons in Hnd. apply NoDup_cons in Hnd as [Hfresh Hnd].
  assert ((list_to_set (filter (λ p, p ≠ partition first) involved) : gset nat)
          = list_to_set (partition <$> rest)) as Hrest.
  { apply set_eq. intros p.
    rewrite !elem_of_list_to_set list_elem_of_filter Hall fmap_cons elem_of_cons.
    split; [by intros [? [?|?]] | intros Hp; split; [|by right]].
    by intros ->. }
  pose proof (first_subtxn MergeTransaction first s pr Hpr Hnone) as Hstep.
  cbv zeta in Hstep. rewrite Hinv Hrest in Hstep. cbn [foldl]. rewrite Hstep.
  destruct rest as [|sub' subs'].
  - clear Hstep. case_decide as Hnil; [|by destruct Hnil].
    simpl. split; [done|]. split; [done|]. split; [done|].
    intros pre post Hsplit Hpost. destruct pre as [|x pre].
    + simpl. split; [done | by eexists].
    + injection Hsplit as _ Hsplit. symmetry in Hsplit.
      by apply app_eq_nil in Hsplit as [_ ->].
  - assert ((list_to_set (partition <$> sub' :: subs') : gset nat) ≠ ∅)
      as Hmore.
    { rewrite fmap_cons list_to_set_cons. intros Hempty.
      apply (not_elem_of_empty (C:=gset nat) (partition sub')).
      rewrite -Hempty. apply elem_of_union. left. by apply elem_of_singleton. }
    assert (∀ a b : ServerState,
              (if decide ((list_to_set (partition <$> sub' :: subs') : gset nat)
                          = ∅) then a else b) = b) as Hgo.
    { intros a b. by case_decide. }
    rewrite Hgo in Hstep |- *.
    match goal with |- context [foldl _ ?s1 (sub' :: subs')] =>
      destruct (later_subtxns MergeTransaction (id (sub_txn first)) pr
                  (sub' :: subs') s1 (sub_txn first))
        as (Hsent & Hpend & Hcompl & Hearly); try done
    end.
    { simpl. by rewrite lookup_insert_eq. }
    split; [exact Hsent|]. split; [exact Hpend|].
    split; [rewrite Hcompl /=; by apply delete_insert_id|].
    intros pre post Hsplit Hpost. destruct pre as [|x pre].
    + simpl. split; [done | by eexists].
    + injection Hsplit as <- Hsplit. cbn [foldl]. rewrite Hstep.
      by apply (Hearly pre post).
Qed.

Lemma one_response_after_all_partitions_witness :
  to_clients
    (foldl (λ s sub, ProcessCompletedSubtxn (λ a _, a) sub s) waiting_server
           [sub_of 1; sub_of 0])
  = [mkResponse "client" 3 (MakeTransaction 5%N ["A"] [])].
Proof.
  destruct (one_response_after_all_partitions (λ a _, a) waiting_server 5%N
              (mkPending "client" 3) (sub_of 1) [sub_of 0] [0; 1]%nat)
    as [Hsent _].
  - reflexivity.
  - reflexivity.
  - repeat constructor.
  - reflexivity.
  - apply NoDup_cons. split; [|apply NoDup_singleton].
    intros H%list_elem_of_singleton. discriminate H.
  - intros p. simpl. rewrite !elem_of_cons !elem_of_nil. tauto.
  - exact Hsent.
Defined.

(** ** The keys of a transaction holder *)

Lemma extract_loop (f : Key * Value → bool) (g : Key → nat) (md : LockMode)
    (l : pbmap Value) (keys : list (Key * LockMode)) (parts : gset nat) :
  foldl (λ (a : list (Key * LockMode) * gset nat) (kv : Key * Value),
           (if f kv then a.1 ++ [(kv.1, md)] else a.1, {[g kv.1]} ∪ a.2))
        (keys, parts) l
  = (keys ++ ((λ kv : Key * Value, (kv.1, md)) <$> filter (λ kv, f kv) l),
     parts ∪ list_to_set (g <$> l.*1)).
Proof.
  revert keys parts. induction l as [|kv l IH]; intros keys parts.
  - simpl. rewrite app_nil_r. f_equal. set_solver.
  - cbn [foldl]. rewrite IH. simpl. destruct (f kv) eqn:Hf.
    + rewrite filter_cons_True; [|by apply Is_true_eq_left].
      rewrite fmap_cons -app_assoc. f_equal. set_solver.
    + rewrite filter_cons_False; [|by intros H; rewrite Hf in H].
      f_equal. set_solver.
Qed.

(** X16.  The keys that [ExtractKeyPartitions] appends for a transaction holder are
    the lock requests that [DeterministicLockManager::ExtractKeys] computes
    for the same transaction, in the same order, so that a new holder has as
    [KeysInPartition] exactly the keys the lock manager locks; the partitions
    it adds are those of all the keys of the transaction; and what the two
    containers held before stays (a second [SetTransaction] on a holder does
    not replace its keys). *)
Theorem ExtractKeyPartitions_is_ExtractKeys config GetPartitionOfKey keys parts
    txn :
  ExtractKeyPartitions config GetPartitionOfKey (keys, parts) txn
  = (keys ++ ExtractKeys config txn,
     parts ∪ list_to_set (GetPartitionOfKey
                            <$> (read_set txn).*1 ++ (write_set txn).*1)) ∧
  Remaster.KeysInPartition (new_holder config GetPartitionOfKey txn)
  = ExtractKeys config txn.
Proof.
  assert (∀ keys parts,
            ExtractKeyPartitions config GetPartitionOfKey (keys, parts) txn
            = (keys ++ ExtractKeys config txn,
               parts ∪ list_to_set (GetPartitionOfKey
                          <$> (read_set txn).*1 ++ (write_set txn).*1)))
    as Hall.
  { clear keys parts. intros keys parts. unfold ExtractKeyPartitions, ExtractKeys.
    rewrite (extract_loop
               (λ kv, KeyIsInLocalPartition config kv.1
                      && negb (pb_contains kv.1 (write_set txn)))
               GetPartitionOfKey READ).
    rewrite (extract_loop (λ kv, KeyIsInLocalPartition config kv.1)
               GetPartitionOfKey WRITE).
    rewrite -app_assoc fmap_app list_to_set_app_L. f_equal. set_solver. }
  split; [apply Hall|]. unfold new_holder. simpl. by rewrite Hall.
Qed.

(** ** A transaction without a key in the partition *)

(** X17.  A transaction with no key in the partition, passed once to
    [RegisterTxn] and once to [AcquireLocks], in either order, among calls
    for transactions with other ids, from a new lock manager: every call
    returns, both of its calls answer false, no [ReleaseLocks] returns it, and
    yet its count of outstanding locks reads zero at the end: for such a
    transaction a count of zero does not mean that it is ready. *)
Theorem no_local_key_zero_count_never_ready config txn before between after
    first second :
  ExtractKeys config txn = [] →
  first = CallRegisterTxn txn ∧ second = CallAcquireLocks txn ∨
  first = CallAcquireLocks txn ∧ second = CallRegisterTxn txn →
  Forall (λ op, id (op_txn op) ≠ id txn) (before ++ between ++ after) →
  ∃ lm answers1 answers2 answers3,
    lm_calls config (before ++ first :: between ++ second :: after)
             new_lock_manager
    = Some (lm, answers1 ++ Answered false :: answers2
                ++ Answered false :: answers3) ∧
    length answers1 = length before ∧ length answers2 = length between ∧
    locks_waited (id txn) lm = 0 ∧
    ¬ returned_ready (id txn) answers3.
Proof.
  intros Hkeys Horder Hothers.
  apply Forall_app in Hothers as [Hbefore Hothers].
  apply Forall_app in Hothers as [Hbetween Hafter].
  assert (∀ lm, lm_call config lm first = Some (lm, Answered false) ∧
                lm_call config lm second = Some (lm, Answered false))
    as Hown.
  { intros lm0.
    assert (lm_call config lm0 (CallRegisterTxn txn) = Some (lm0, Answered false))
      as Hreg.
    { simpl. unfold RegisterTxn. by rewrite Hkeys. }
    assert (lm_call config lm0 (CallAcquireLocks txn) = Some (lm0, Answered false))
      as Hacq.
    { simpl. unfold AcquireLocks. by rewrite Hkeys. }
    by destruct Horder as [[-> ->]|[-> ->]]. }
  assert (∀ k : Key, k ∈ [] → k ∈ ([] : list Key)) as Hon by done.
  destruct (other_calls config (id txn) [] (NoDup_nil_2) before (λ k, k ∈ []) 0
              new_lock_manager Hbefore Hon)
    as (lm1 & answers1 & Hrun1 & Hinv1 & _ & _);
    [by left | apply waited_inv_new |].
  destruct (other_calls config (id txn) [] (NoDup_nil_2) between (λ k, k ∈ []) 0
              lm1 Hbetween Hon)
    as (lm2 & answers2 & Hrun2 & Hinv2 & _ & _); [by left | done |].
  destruct (other_calls config (id txn) [] (NoDup_nil_2) after (λ k, k ∈ []) 0
              lm2 Hafter Hon)
    as (lm3 & answers3 & Hrun3 & Hinv3 & _ & Hready); [by left | done |].
  exists lm3, answers1, answers2, answers3.
  split; [|split; [by eapply length_lm_calls
                  |split; [by eapply length_lm_calls|split]]].
  - rewrite (lm_calls_app _ _ _ _ _ _ Hrun1). simpl.
    rewrite (proj1 (Hown lm1)) /=.
    rewrite (lm_calls_app _ _ _ _ _ _ Hrun2). simpl.
    by rewrite (proj2 (Hown lm2)) /= Hrun3 /=.
  - by destruct Hinv3 as [_ _ ->].
  - rewrite Hready. unfold held_keys. simpl. lia.
Qed.

Lemma no_local_key_zero_count_never_ready_witness :
  ∃ lm answers1 answers2 answers3,
    lm_calls other_partition
      ([CallRegisterTxn txn1; CallAcquireLocks txn1]
       ++ CallAcquireLocks ghost_txn :: []
       ++ CallRegisterTxn ghost_txn :: [CallReleaseLocks txn1])
      new_lock_manager
    = Some (lm, answers1 ++ Answered false :: answers2
                ++ Answered false :: answers3) ∧
    length answers1 = 2%nat ∧ length answers2 = 0%nat ∧
    locks_waited 100%N lm = 0 ∧
    ¬ returned_ready 100%N answers3.
Proof.
  apply (no_local_key_zero_count_never_ready other_partition ghost_txn
           [CallRegisterTxn txn1; CallAcquireLocks txn1] []
           [CallReleaseLocks txn1] (CallAcquireLocks ghost_txn)
           (CallRegisterTxn ghost_txn)).
  - reflexivity.
  - by right.
  - repeat constructor; intros H; vm_compute in H; discriminate H.
Defined.
